(** * Modrinth collection downloader: version resolution, retrying client,
      index store and download orchestration

    A shallow embedding of [modrinth_collection_downloader.py].

    Conventions of the embedding.
    - Python [str] values are [string]s; the character-level functions
      ([str.isdigit], [str.strip], [str.lower], the regular expression of
      [normalize_filename]) are given on ASCII text.
    - A parsed game version (a Python tuple of ints) is a [list N], compared
      lexicographically as Python compares tuples.
    - The JSON objects returned by the remote API are records; a key read
      with [.get(key, [])] is a list field, an absent key being the empty list.
    - A Python exception is a value of [Exn]; code that can raise returns
      [res], and effectful code runs in a state monad whose state survives
      a raise, as the side effects of a Python call survive its exception.
    - What [os.listdir] returns is a parameter of the scan for manual
      additions.  The log thread is a function of the items of its queue,
      in order, on the text of the log files. *)

From Stdlib Require Import Ascii String.
From stdpp Require Import gmap strings list pretty sorting.

Open Scope string_scope.
Open Scope list_scope.
Open Scope nat_scope.

#[local] Set Warnings "-clear-no-such-hyp,-unused-intro-pattern".

(** ** Exceptions and fallible results *)

Inductive Exn : Type :=
| AttributeError   (* attribute access on None *)
| TypeError        (* None compared with a tuple, None + str *)
| ValueError       (* max() of an empty sequence, unknown index type, bad sleep *)
| KeyError         (* a dict subscripted with a missing key *)
| OSError.         (* a file operation the system refuses *)

Inductive res (A : Type) : Type :=
| Ok (a : A)
| Raise (e : Exn).
Arguments Ok {A} a.
Arguments Raise {A} e.

Definition res_bind {A B} (r : res A) (k : A -> res B) : res B :=
  match r with
  | Ok a => k a
  | Raise e => Raise e
  end.

Notation "x <-? r ; k" := (res_bind r (fun x => k))
  (at level 100, r at next level, right associativity, only parsing).

#[global] Instance Exn_eq_dec : EqDecision Exn.
Proof. solve_decision. Defined.

(** ** Version tuples *)

Module Versions.

Definition tuple := list N.

(** Python's tuple comparison: lexicographic, a proper prefix being smaller. *)
Fixpoint tuple_le (a b : tuple) : bool :=
  match a, b with
  | [], _ => true
  | _ :: _, [] => false
  | x :: a', y :: b' =>
      if (x <? y)%N then true
      else if (x =? y)%N then tuple_le a' b'
      else false
  end.

Fixpoint tuple_lt (a b : tuple) : bool :=
  match a, b with
  | _, [] => false
  | [], _ :: _ => true
  | x :: a', y :: b' =>
      if (x <? y)%N then true
      else if (x =? y)%N then tuple_lt a' b'
      else false
  end.

Definition tuple_eqb (a b : tuple) : bool := bool_decide (a = b).

(** [x in xs] on a list of tuples. *)
Definition tuple_in (t : tuple) (ts : list tuple) : bool :=
  existsb (tuple_eqb t) ts.

(** [str.split(".")]: the list of segments, never empty. *)
Fixpoint split_dot (s : string) : list string :=
  match s with
  | EmptyString => [""]
  | String c s' =>
      if Ascii.eqb c "."%char then "" :: split_dot s'
      else
        match split_dot s' with
        | seg :: segs => String c seg :: segs
        | [] => [String c ""]
        end
  end.

Definition is_digit_char (c : ascii) : bool :=
  let n := Ascii.N_of_ascii c in ((48 <=? n) && (n <=? 57))%N.

Fixpoint all_digits (s : string) : bool :=
  match s with
  | EmptyString => true
  | String c s' => is_digit_char c && all_digits s'
  end.

(** No character of the string is the separator. *)
Fixpoint dot_free (s : string) : bool :=
  match s with
  | EmptyString => true
  | String c s' => negb (Ascii.eqb c ".") && dot_free s'
  end.

(** [str.isdigit()]: at least one character, and all of them digits. *)
Definition isdigit (s : string) : bool :=
  match s with
  | EmptyString => false
  | _ => all_digits s
  end.

Fixpoint int_of_digits (acc : N) (s : string) : N :=
  match s with
  | EmptyString => acc
  | String c s' => int_of_digits (acc * 10 + (Ascii.N_of_ascii c - 48))%N s'
  end.

(** [int(part)] for a segment of decimal digits. *)
Definition int (s : string) : N := int_of_digits 0%N s.

(** [tuple(int(part) for part in v.split(".") if part.isdigit())] *)
Definition parse_version (v : string) : tuple :=
  map int (filter (fun part => Is_true (isdigit part)) (split_dot v)).

Fixpoint join_dot (parts : list string) : string :=
  match parts with
  | [] => ""
  | [p] => p
  | p :: ps => p +:+ "." +:+ join_dot ps
  end.

(** [".".join(map(str, v))] *)
Definition format_version (v : tuple) : string :=
  join_dot (map (fun n : N => pretty n) v).

(** [max(xs, default=None)] on tuples: the first greatest element. *)
Fixpoint max_from (best : tuple) (l : list tuple) : tuple :=
  match l with
  | [] => best
  | x :: l' => if tuple_lt best x then max_from x l' else max_from best l'
  end.

Definition max_default (l : list tuple) : option tuple :=
  match l with
  | [] => None
  | x :: l' => Some (max_from x l')
  end.

(** [max(xs)] without a default raises ValueError on an empty sequence. *)
Definition py_max (l : list tuple) : res tuple :=
  match max_default l with
  | Some t => Ok t
  | None => Raise ValueError
  end.

End Versions.
Export Versions.

(** ** The remote API's objects *)

Record File : Type := mkFile {
  file_filename : string;        (* file["filename"] *)
  file_url : string;             (* file["url"] *)
  file_primary : bool            (* f.get("primary") *)
}.

Record Dependency : Type := mkDependency {
  dep_project_id : string;       (* dep["project_id"] *)
  dependency_type : string       (* dep["dependency_type"] *)
}.

Record Version : Type := mkVersion {
  game_versions : list string;   (* v.get("game_versions", []) *)
  loaders : list string;         (* v.get("loaders", []) *)
  files : list File;             (* version.get("files", []) *)
  dependencies : list Dependency (* version.get("dependencies", []) *)
}.

Record Details : Type := mkDetails {
  title : option string;         (* mod_details.get("title") *)
  project_type : option string   (* mod_details.get("project_type") *)
}.

#[global] Instance File_eq_dec : EqDecision File.
Proof. solve_decision. Defined.
#[global] Instance Dependency_eq_dec : EqDecision Dependency.
Proof. solve_decision. Defined.
#[global] Instance Version_eq_dec : EqDecision Version.
Proof. solve_decision. Defined.

(** ** Version compatibility resolver *)

Module Resolver.

Definition str_in (x : string) (xs : list string) : bool :=
  existsb (String.eqb x) xs.

Definition parsed_game_versions (v : Version) : list tuple :=
  map parse_version (game_versions v).

(** [gv]: the highest supported game version not above the target. *)
Definition gv (v : Version) (target_version : tuple) : option tuple :=
  max_default
    (filter (fun t => Is_true (tuple_le t target_version)) (parsed_game_versions v)).

(** [fallback <= gv_ <= target] *)
Definition in_window (fallback target gv_ : tuple) : bool :=
  tuple_le fallback gv_ && tuple_le gv_ target.

(** [any(fallback <= gv_ <= target for gv_ in game_versions)].  The floor
    comes from an optional command-line flag: when it is None the first
    comparison raises TypeError. *)
Definition version_ok (fallback : option tuple) (target : tuple)
    (gvs : list tuple) : res bool :=
  match gvs, fallback with
  | [], _ => Ok false
  | _ :: _, None => Raise TypeError
  | _ :: _, Some fb => Ok (existsb (in_window fb target) gvs)
  end.

Definition loader_ok (v : Version) (loader : option string)
    (project_type : option string) : bool :=
  negb (bool_decide (project_type = Some "mod"))
  || match loader with
     | None => true
     | Some l => str_in l (loaders v)
     end
  || existsb (fun l => str_in l (loaders v)) ["minecraft"; "datapack"].

Definition is_compatible (v : Version) (loader : option string)
    (fallback : option tuple) (target : tuple)
    (project_type : option string) : res bool :=
  ok <-? version_ok fallback target (parsed_game_versions v);
  Ok (ok && loader_ok v loader project_type).

(** A list comprehension whose condition can raise. *)
Fixpoint filter_res {A} (p : A -> res bool) (l : list A) : res (list A) :=
  match l with
  | [] => Ok []
  | x :: l' =>
      b <-? p x;
      r <-? filter_res p l';
      Ok (if b then x :: r else r)
  end.

(** [max(xs, key=...)]: the first element whose key is greatest; comparing
    a key that is None raises TypeError. *)
Fixpoint max_key_from {A} (key : A -> option tuple) (best : A)
    (kbest : option tuple) (l : list A) : res A :=
  match l with
  | [] => Ok best
  | x :: l' =>
      match key x, kbest with
      | Some kx, Some kb =>
          if tuple_lt kb kx then max_key_from key x (Some kx) l'
          else max_key_from key best kbest l'
      | _, _ => Raise TypeError
      end
  end.

Definition max_key {A} (key : A -> option tuple) (l : list A) : res A :=
  match l with
  | [] => Raise ValueError
  | x :: l' => max_key_from key x (key x) l'
  end.

Definition lists_target (target : tuple) (v : Version) : bool :=
  tuple_in target (parsed_game_versions v).

(** The body of [get_latest_version] once the version list is fetched and
    known to be non-empty (source lines 240-252). *)
Definition select_version (versions : list Version) (target_version : tuple)
    (loader : option string) (fallback_bound : option tuple)
    (project_type : option string) : res (option Version * bool) :=
  compatible <-? filter_res
    (fun v => is_compatible v loader fallback_bound target_version project_type)
    versions;
  match compatible with
  | [] =>
      let valid_versions :=
        filter (fun v => is_Some (gv v target_version)) versions in
      match valid_versions with
      | [] => Ok (None, false)
      | _ :: _ =>
          v <-? max_key (fun v => gv v target_version) valid_versions;
          Ok (Some v, false)
      end
  | _ :: _ =>
      match List.find (lists_target target_version) compatible with
      | Some exact => Ok (Some exact, true)
      | None =>
          fallback <-? max_key (fun v => gv v target_version) compatible;
          Ok (Some fallback, true)
      end
  end.

End Resolver.
Export Resolver.

(** ** Observable events

    Every effect of the program on its environment is recorded, in order,
    in a trace of events. *)

(** A category index: the JSON object mapping an installed filename to the
    project id it came from.  A Python dict keeps insertion order, and
    [download_project] takes the first entry of a given project id, so the
    index is an association list in insertion order. *)
Definition Index := list (string * string).

Inductive Action : Type := GET | DOWNLOAD.

Inductive Event : Type :=
| EvAttempt (action : Action) (url : string) (attempt : nat)
      (* one request.urlopen / request.urlretrieve call *)
| EvRetrieved (url : string) (dest : option string)
      (* urlretrieve stored the body at dest *)
| EvSleepDelay                            (* time.sleep(delay), a random float *)
| EvSleep (seconds : Z)                   (* time.sleep of a whole number *)
| EvPrint (msg : string)                  (* safe_print *)
| EvPrompt (prompt reply : string)        (* safe_input *)
| EvLog (log_type msg : string)           (* log_event *)
| EvMakedirs (dir : string)               (* os.makedirs(dir, exist_ok=True) *)
| EvLoadIndex (index_file : string)       (* load_index read the file *)
| EvSaveIndex (index_file : string) (index : Index)   (* save_index *)
| EvRemove (path : string)                (* os.remove *)
| EvDownload (mod_id url filepath : string).
      (* download_project(mod_id) calls modrinth.download_file(url, filepath) *)

#[global] Instance Action_eq_dec : EqDecision Action.
Proof. solve_decision. Defined.
#[global] Instance Event_eq_dec : EqDecision Event.
Proof. solve_decision. Defined.

(** ** Resilient API client *)

Module ModrinthClient.

Definition BASE_URL : string := "https://api.modrinth.com".
Definition MAX_RETRIES : nat := 5.
Definition TIMEOUT : Z := 10.

(** The Retry-After header of a 429 response, as [int(...)] sees it. *)
Inductive RetryAfter : Type :=
| NoHeader                     (* the default 2 is used *)
| Seconds (n : Z)              (* the header parses to the integer n *)
| NotAnInteger.                (* int() raises ValueError *)

(** What one attempt of a request meets. *)
Inductive Attempt (A : Type) : Type :=
| Success (payload : A)
| HTTPError (code : Z) (retry_after : RetryAfter)
| URLError (is_timeout : bool) (reason : string)
| Crash (e : Exn).             (* an exception of any other class *)
Arguments Success {A} payload.
Arguments HTTPError {A} code retry_after.
Arguments URLError {A} is_timeout reason.
Arguments Crash {A} e.

(** [min(2 ** attempt, 30)] *)
Definition _retry_backoff (attempt : nat) : Z := Z.min (2 ^ Z.of_nat attempt) 30.

Definition action_name (action : Action) : string :=
  match action with GET => "GET" | DOWNLOAD => "DOWNLOAD" end.

Definition attempt_no (attempt : nat) : string := pretty (S attempt).

(** How one iteration of the [for attempt in range(MAX_RETRIES)] loop ends. *)
Inductive Iter (A : Type) : Type :=
| IterReturn (r : option A)    (* a return inside the try block *)
| IterContinue                 (* the next attempt *)
| IterBreak                    (* break *)
| IterRaise (e : Exn).         (* an exception leaves the function *)
Arguments IterReturn {A} r.
Arguments IterContinue {A}.
Arguments IterBreak {A}.
Arguments IterRaise {A} e.

Definition iteration {A} (url : string) (action : Action) (dest : option string)
    (attempt : nat) (o : Attempt A) : list Event * Iter A :=
  match o with
  | Success payload =>
      match action with
      | GET => ([EvAttempt GET url attempt; EvSleepDelay], IterReturn (Some payload))
      | DOWNLOAD =>
          ([EvAttempt DOWNLOAD url attempt; EvRetrieved url dest; EvSleepDelay],
           IterReturn None)
      end
  | HTTPError code retry_after =>
      if (code =? 429)%Z then
        match retry_after with
        | NotAnInteger => ([EvAttempt action url attempt], IterRaise ValueError)
        | _ =>
            let wait := match retry_after with Seconds n => n | _ => 2%Z end in
            let msg := "[⏳ Throttled] Retry-After: " +:+ pretty wait
                         +:+ "s | Attempt " +:+ attempt_no attempt in
            if (wait <? 0)%Z then
              ([EvAttempt action url attempt; EvPrint msg], IterRaise ValueError)
            else
              ([EvAttempt action url attempt; EvPrint msg; EvSleep wait], IterContinue)
        end
      else if (code =? 408)%Z then
        ([EvAttempt action url attempt;
          EvPrint ("[⌛ Server Timeout] HTTP 408 for " +:+ url
                     +:+ " | Attempt " +:+ attempt_no attempt);
          EvSleep (_retry_backoff attempt)], IterContinue)
      else
        ([EvAttempt action url attempt;
          EvPrint ("[❌ HTTP " +:+ action_name action +:+ "] " +:+ pretty code
                     +:+ " for " +:+ url +:+ " | Attempt " +:+ attempt_no attempt)],
         IterBreak)
  | URLError is_timeout reason =>
      ([EvAttempt action url attempt;
        EvPrint (if is_timeout
                 then "[⌛ Client Timeout] " +:+ url +:+ " | Attempt " +:+ attempt_no attempt
                 else "[🌐 Network " +:+ action_name action +:+ "] " +:+ reason
                        +:+ " | Attempt " +:+ attempt_no attempt);
        EvSleep (_retry_backoff attempt)], IterContinue)
  | Crash e => ([EvAttempt action url attempt], IterRaise e)
  end.

Definition failed_msg (url : string) (action : Action) : string :=
  "[🚫 Failed] " +:+ action_name action +:+ " failed for " +:+ url
    +:+ " after " +:+ pretty MAX_RETRIES +:+ " attempts.".

(** The loop over [range(MAX_RETRIES)], from [attempt] with [n] iterations
    left, followed by the statements after the loop. *)
Fixpoint retry_loop {A} (net : nat -> Attempt A) (url : string)
    (action : Action) (dest : option string) (n attempt : nat)
    : list Event * res (option A) :=
  match n with
  | 0 => ([EvPrint (failed_msg url action)], Ok None)
  | S n' =>
      let '(evs, it) := iteration url action dest attempt (net attempt) in
      match it with
      | IterReturn r => (evs, Ok r)
      | IterRaise e => (evs, Raise e)
      | IterBreak => (evs ++ [EvPrint (failed_msg url action)], Ok None)
      | IterContinue =>
          let '(evs', r) := retry_loop net url action dest n' (S attempt) in
          (evs ++ evs', r)
      end
  end.

(** [net k] is what the [k]-th attempt of this request meets. *)
Definition _request_with_retries {A} (net : nat -> Attempt A) (url : string)
    (action : Action) (dest : option string) : list Event * res (option A) :=
  retry_loop net url action dest MAX_RETRIES 0.

Definition get {A} (net : nat -> Attempt A) (endpoint : string)
    : list Event * res (option A) :=
  _request_with_retries net (BASE_URL +:+ endpoint) GET None.

(** [download_file] has no return statement: whatever the request returns
    is dropped and the caller receives None. *)
Definition download_file (net : nat -> Attempt ()) (url filename : string)
    : list Event * res (option ()) :=
  let '(evs, r) := _request_with_retries net url DOWNLOAD (Some filename) in
  (evs, _ <-? r; Ok None).

(** The attempts of a request, read off its trace. *)
Definition is_attempt (e : Event) : bool :=
  match e with EvAttempt _ _ _ => true | _ => false end.

Definition attempts_made (evs : list Event) : nat :=
  length (List.filter is_attempt evs).

(** An attempt after which the loop goes on to the next one: a URLError,
    HTTP 408, or HTTP 429 whose Retry-After is absent or a non-negative
    integer. *)
Definition retryable {A} (o : Attempt A) : Prop :=
  match o with
  | HTTPError code retry_after =>
      (code = 429 ∧ (retry_after = NoHeader ∨ ∃ n, retry_after = Seconds n ∧ 0 ≤ n))%Z
      ∨ code = 408%Z
  | URLError _ _ => True
  | _ => False
  end.



End ModrinthClient.
Export ModrinthClient.

(** ** The program's world and state *)

(** The command-line arguments ([args]). *)
Record Args : Type := mkArgs {
  arg_version : tuple;                  (* args.version, required *)
  arg_loader : option string;           (* args.loader *)
  arg_fallback_bound : option tuple;    (* args.fallback_bound, optional *)
  arg_collection : string               (* args.collection *)
}.

(** A project of the remote service: what each attempt of its two
    endpoints meets. *)
Record RemoteProject : Type := mkRemoteProject {
  details_net : nat -> Attempt Details;          (* /v2/project/{id} *)
  versions_net : nat -> Attempt (list Version)   (* /v2/project/{id}/version *)
}.

(** Everything outside the program that it reads but does not change. *)
Record World : Type := mkWorld {
  cwd : string;                                  (* os.getcwd() *)
  remote : gmap string RemoteProject;            (* the projects the service knows *)
  file_net : string -> nat -> Attempt ();        (* file downloads, by URL *)
  operator : nat -> string                       (* the k-th line typed at a prompt *)
}.

(** An id the service does not know is answered 404 on every attempt. *)
Definition details_of (w : World) (mod_id : string) : nat -> Attempt Details :=
  match remote w !! mod_id with
  | Some p => details_net p
  | None => fun _ => HTTPError 404 NoHeader
  end.

Definition versions_of (w : World) (mod_id : string) : nat -> Attempt (list Version) :=
  match remote w !! mod_id with
  | Some p => versions_net p
  | None => fun _ => HTTPError 404 NoHeader
  end.

(** What the program changes. *)
Record State : Type := mkState {
  seen_mods : gset string;             (* the shared seen-set *)
  index_files : gmap string Index;     (* the index files on disk, by path *)
  fs_files : gset string;              (* paths of the regular files on disk *)
  fs_dirs : gset string;               (* paths of the directories on disk *)
  prompts : nat;                       (* prompts answered so far *)
  trace : list Event                   (* everything done so far, oldest first *)
}.

(** ** State and exception monad *)

Definition M (A : Type) : Type := State -> State * res A.

Definition ret {A} (a : A) : M A := fun s => (s, Ok a).

Definition raise {A} (e : Exn) : M A := fun s => (s, Raise e).

Definition bind {A B} (m : M A) (k : A -> M B) : M B :=
  fun s =>
    match m s with
    | (s', Ok a) => k a s'
    | (s', Raise e) => (s', Raise e)
    end.

Notation "x <- m ;; k" := (bind m (fun x => k))
  (at level 100, m at next level, right associativity, only parsing).
Notation "m ;;; k" := (bind m (fun _ => k))
  (at level 100, right associativity, only parsing).

Definition lift_res {A} (r : res A) : M A := fun s => (s, r).

Definition emit (e : Event) : M () :=
  fun s => (mkState (seen_mods s) (index_files s) (fs_files s) (fs_dirs s)
                    (prompts s) (trace s ++ [e]), Ok ()).

(** ** Console, log and operator *)

Definition safe_print (msg : string) : M () := emit (EvPrint msg).

Definition log_event (log_type msg : string) : M () := emit (EvLog log_type msg).

(** [safe_input]: the prompt is shown and the operator's next line returned. *)
Definition safe_input (w : World) (prompt : string) : M string :=
  fun s =>
    let reply := operator w (prompts s) in
    (mkState (seen_mods s) (index_files s) (fs_files s) (fs_dirs s)
             (S (prompts s)) (trace s ++ [EvPrompt prompt reply]), Ok reply).

(** ** Running the client in the state *)

(** The files that the [urlretrieve] calls of a client trace stored. *)
Fixpoint retrieved (evs : list Event) : gset string :=
  match evs with
  | [] => ∅
  | EvRetrieved _ (Some dest) :: evs' => {[dest]} ∪ retrieved evs'
  | _ :: evs' => retrieved evs'
  end.

Definition run_client {A} (c : list Event * res (option A)) : M (option A) :=
  fun s =>
    (mkState (seen_mods s) (index_files s) (fs_files s ∪ retrieved c.1)
             (fs_dirs s) (prompts s) (trace s ++ c.1), c.2).

Definition get_mod_version (w : World) (mod_id : string) : M (option (list Version)) :=
  run_client (get (versions_of w mod_id) ("/v2/project/" +:+ mod_id +:+ "/version")).

Definition get_mod_details (w : World) (mod_id : string) : M (option Details) :=
  run_client (get (details_of w mod_id) ("/v2/project/" +:+ mod_id)).

Definition modrinth_download_file (w : World) (url filename : string) : M (option ()) :=
  run_client (download_file (file_net w url) url filename).

(** ** Strings, paths and the file system *)

Definition LOG_DIR : string := "modrinth_collection_downloader".

(** [INDEX_FILES.get(index_type)] *)
Definition INDEX_FILES (index_type : option string) : option string :=
  match index_type with
  | None => None
  | Some t =>
      if String.eqb t "mod" then Some "mods_index.json"
      else if String.eqb t "datapack" then Some "datapacks_index.json"
      else if String.eqb t "resourcepack" then Some "resourcepacks_index.json"
      else if String.eqb t "shaderpack" then Some "shaderpacks_index.json"
      else if String.eqb t "shader" then Some "shaderpacks_index.json"
      else None
  end.

Definition is_word_char (c : ascii) : bool :=
  let n := Ascii.N_of_ascii c in
  (((48 <=? n) && (n <=? 57)) || ((65 <=? n) && (n <=? 90))
   || ((97 <=? n) && (n <=? 122)) || (n =? 95))%N.

Definition keeps (c : ascii) : bool :=
  is_word_char c || Ascii.eqb c "-" || Ascii.eqb c "+" || Ascii.eqb c ".".

(** [re.sub(r"[^\w\-+.]", "_", name)] *)
Fixpoint normalize_filename (name : string) : string :=
  match name with
  | EmptyString => EmptyString
  | String c name' =>
      String (if keeps c then c else "_"%char) (normalize_filename name')
  end.

Definition starts_with_slash (p : string) : bool :=
  match p with
  | String c _ => Ascii.eqb c "/"
  | EmptyString => false
  end.

Fixpoint ends_with_slash (p : string) : bool :=
  match p with
  | EmptyString => false
  | String c EmptyString => Ascii.eqb c "/"
  | String _ p' => ends_with_slash p'
  end.

(** [os.path.join(a, b)] of posixpath. *)
Definition path_join (a b : string) : string :=
  if starts_with_slash b then b
  else if bool_decide (a = "") || ends_with_slash a then a +:+ b
  else a +:+ "/" +:+ b.

(** The characters that [str.strip()] removes. *)
Definition is_space (c : ascii) : bool :=
  let n := Ascii.N_of_ascii c in
  (((9 <=? n) && (n <=? 13)) || ((28 <=? n) && (n <=? 32)))%N.

Fixpoint lstrip (s : string) : string :=
  match s with
  | String c s' => if is_space c then lstrip s' else s
  | EmptyString => EmptyString
  end.

Definition strip (s : string) : string :=
  String.rev (lstrip (String.rev (lstrip s))).

Definition lower_char (c : ascii) : ascii :=
  let n := Ascii.N_of_ascii c in
  if ((65 <=? n) && (n <=? 90))%N then Ascii.ascii_of_N (n + 32) else c.

Fixpoint lower (s : string) : string :=
  match s with
  | EmptyString => EmptyString
  | String c s' => String (lower_char c) (lower s')
  end.

(** [os.makedirs(dir, exist_ok=True)] *)
Definition makedirs (dir : string) : M () :=
  fun s => (mkState (seen_mods s) (index_files s) (fs_files s)
                    (fs_dirs s ∪ {[dir]}) (prompts s)
                    (trace s ++ [EvMakedirs dir]), Ok ()).

(** [os.path.exists(path)] *)
Definition path_exists (path : string) : M bool :=
  fun s => (s, Ok (bool_decide (path ∈ fs_files s ∪ fs_dirs s))).

(** [os.remove(path)]: unlinks a regular file and refuses a directory. *)
Definition os_remove (path : string) : M () :=
  fun s =>
    if bool_decide (path ∈ fs_files s) then
      (mkState (seen_mods s) (index_files s) (fs_files s ∖ {[path]})
               (fs_dirs s) (prompts s) (trace s ++ [EvRemove path]), Ok ())
    else (s, Raise OSError).

(** ** Local index store *)

Module IndexStore.

(** [index.get(key)] *)
Fixpoint dict_get (key : string) (index : Index) : option string :=
  match index with
  | [] => None
  | (k, v) :: index' => if String.eqb k key then Some v else dict_get key index'
  end.

(** [index[key] = value]: an existing key keeps its place. *)
Fixpoint dict_set (key value : string) (index : Index) : Index :=
  match index with
  | [] => [(key, value)]
  | (k, v) :: index' =>
      if String.eqb k key then (k, value) :: index'
      else (k, v) :: dict_set key value index'
  end.

(** [index.pop(key, None)] *)
Fixpoint dict_pop (key : string) (index : Index) : Index :=
  match index with
  | [] => []
  | (k, v) :: index' =>
      if String.eqb k key then index' else (k, v) :: dict_pop key index'
  end.

Definition index_path (filename : string) : string := path_join LOG_DIR filename.

(** [load_index]: the whole mapping, or the empty one when the file is absent. *)
Definition load_index (index_type : option string) : M Index :=
  match INDEX_FILES index_type with
  | None => raise ValueError
  | Some filename =>
      fun s =>
        match index_files s !! index_path filename with
        | Some index =>
            (mkState (seen_mods s) (index_files s) (fs_files s) (fs_dirs s)
                     (prompts s) (trace s ++ [EvLoadIndex (index_path filename)]),
             Ok index)
        | None => (s, Ok [])
        end
  end.

(** [save_index]: the whole mapping rewritten. *)
Definition save_index (index_type : option string) (index : Index) : M () :=
  match INDEX_FILES index_type with
  | None => raise KeyError
  | Some filename =>
      fun s =>
        (mkState (seen_mods s) (<[index_path filename := index]> (index_files s))
                 (fs_files s) (fs_dirs s) (prompts s)
                 (trace s ++ [EvSaveIndex (index_path filename) index]), Ok ())
  end.

(** A Python dict has each key once. *)
Definition dict_wf (index : Index) : Prop := NoDup index.*1.


End IndexStore.
Export IndexStore.

(** ** Download orchestrator *)

Module Orchestrator.

(** [str(x)] of a value that may be None, as an f-string prints it. *)
Definition py_str (x : option string) : string := default "None" x.

(** *** The messages *)

Definition meta (mod_name : string) (project_type : option string)
    (mod_id : string) : string :=
  "Project: " +:+ mod_name +:+ " | Type: " +:+ py_str project_type
    +:+ " | ID: " +:+ mod_id.

Definition msg_notice (mod_name mod_id : string) : string :=
  "[⚠️ NOTICE] No versions found for '" +:+ mod_name +:+ "' (ID: " +:+ mod_id +:+ ").".

Definition msg_no_version (mod_name : string) (project_type : option string)
    (mod_id : string) (closest_version : option string) : string :=
  "[❌ FAILED ] No version found | " +:+ meta mod_name project_type mod_id
    +:+ " | Closest Version " +:+ py_str closest_version.

Definition msg_no_primary (mod_name : string) (project_type : option string)
    (mod_id : string) : string :=
  "[❌ ERROR  ] No primary file found | " +:+ meta mod_name project_type mod_id.

Definition msg_unknown_type (mod_name : string) (project_type : option string)
    : string :=
  "[⚠️ SKIPPED] Project: " +:+ mod_name +:+ " | Type: " +:+ py_str project_type
    +:+ " | Reason: Not included or unknown type".

Definition msg_prompt (mod_name target_display filename fallback_display : string)
    : string :=
  "[⚠️ FALLBCK] No exact match for '" +:+ mod_name +:+ "' (target: "
    +:+ target_display +:+ "). Use fallback version " +:+ filename
    +:+ " (supports Minecraft " +:+ fallback_display +:+ ")? [y/N]: ".

Definition msg_declined (mod_name : string) (project_type : option string)
    (mod_id closest_version : string) : string :=
  "[❌ FAILED ] Fallback declined for '" +:+ mod_name +:+ " | Type: "
    +:+ py_str project_type +:+ " | ID: " +:+ mod_id +:+ " | Closest Version "
    +:+ closest_version.

Definition msg_skipped (mod_name : string) (project_type : option string)
    (mod_id filename : string) : string :=
  "[⏩ SKIPPED] Already exists | " +:+ meta mod_name project_type mod_id
    +:+ " | File: " +:+ filename.

Definition msg_transfer (update : bool) (filename target_dir : string)
    (project_type : option string) : string :=
  (if update then "[💹 UPDATE ]" else "[✅ DWNLDNG]") +:+ " " +:+ filename
    +:+ " → " +:+ target_dir +:+ " | Type: " +:+ py_str project_type.

Definition msg_removing (old_filename : string) (project_type : option string)
    : string :=
  "[🚫 REMOVING OLD VERSION] " +:+ old_filename +:+ " | Type: "
    +:+ py_str project_type.

Definition msg_updated (mod_name : string) (project_type : option string)
    (mod_id filename : string) : string :=
  "[💹 UPDATED] Project updated | " +:+ meta mod_name project_type mod_id
    +:+ " | File: " +:+ filename.

Definition msg_downloaded (mod_name : string) (project_type : option string)
    (mod_id filename : string) : string :=
  "[✅ DWNLDNG] Project downloaded | " +:+ meta mod_name project_type mod_id
    +:+ " | File: " +:+ filename.

(** *** The functions *)

Definition get_latest_version (w : World) (mod_id mod_name : string)
    (target_version : tuple) (loader : option string)
    (fallback_bound : option tuple) (project_type : option string)
    : M (option Version * bool) :=
  versions <- get_mod_version w mod_id ;;
  match versions with
  | None | Some [] =>
      safe_print (msg_notice mod_name mod_id) ;;;
      ret (None, false)
  | Some versions =>
      lift_res (select_version versions target_version loader fallback_bound
                               project_type)
  end.

(** [os.path.join(os.getcwd(), p_type + "s")]; None + "s" raises TypeError. *)
Definition resolve_target_directory (w : World) (project_type : option string)
    : res string :=
  match project_type with
  | None => Raise TypeError
  | Some t =>
      let p_type := if String.eqb t "shader" then "shaderpack" else t in
      Ok (path_join (cwd w) (p_type +:+ "s"))
  end.

(** An answer counts as yes when [reply.strip().lower() == "y"]. *)
Definition says_yes (reply : string) : bool :=
  bool_decide (lower (strip reply) = "y").

Definition should_use_fallback (w : World) (version : Version)
    (target_version : tuple) (mod_name filename : string) : M bool :=
  match gv version target_version with
  | None => raise TypeError          (* map(str, None) *)
  | Some g =>
      let fallback_display := format_version g in
      let target_display := format_version target_version in
      reply <- safe_input w
                 (msg_prompt mod_name target_display filename fallback_display) ;;
      ret (says_yes reply)
  end.

(** [next((f for f in version.get("files", []) if f.get("primary")), None)] *)
Definition primary_file (version : Version) : option File :=
  List.find file_primary (files version).

Definition owned_elsewhere (mod_id filename : string) (entry : string * string)
    : bool :=
  String.eqb entry.2 mod_id && negb (String.eqb entry.1 filename).

(** [next((fname for fname, mid in index.items()
           if mid == mod_id and fname != filename), None)] *)
Definition find_old_filename (index : Index) (mod_id filename : string)
    : option string :=
  fst <$> List.find (owned_elsewhere mod_id filename) index.

(** [if old_filename:] holds for a filename that is found and not empty. *)
Definition truthy (x : option string) : bool :=
  match x with
  | Some s => negb (bool_decide (s = ""))
  | None => false
  end.

(** Source lines 311-318: the fallback confirmation gate.  The result tells
    whether the operator declined. *)
Definition fallback_gate (w : World) (args : Args) (mod_id mod_name : string)
    (project_type : option string) (version : Version) (filename : string)
    (existing_id : option string) : M bool :=
  let game_versions := parsed_game_versions version in
  if negb (tuple_in (arg_version args) game_versions)
     && negb (bool_decide (existing_id = Some mod_id))
  then
    use <- should_use_fallback w version (arg_version args) mod_name filename ;;
    if (use : bool) then ret false
    else
      closest <- lift_res (py_max game_versions) ;;
      let msg := msg_declined mod_name project_type mod_id (format_version closest) in
      safe_print msg ;;;
      log_event "no_version" msg ;;;
      ret true
  else ret false.

(** Source lines 331-335: the old file of an updated project is removed. *)
Definition remove_old_file (target_dir : string) (old_filename : option string)
    (project_type : option string) : M () :=
  if truthy old_filename then
    let old_path := path_join target_dir (py_str old_filename) in
    found <- path_exists old_path ;;
    if (found : bool) then
      safe_print (msg_removing (py_str old_filename) project_type) ;;;
      os_remove old_path
    else ret ()
  else ret ().

(** Source lines 338-349: the index is read again, the old entry dropped,
    the new one set and the whole index written. *)
Definition record_index (mod_id mod_name : string) (project_type : option string)
    (filename : string) (old_filename : option string) : M () :=
  index <- load_index project_type ;;
  index <-
    (if truthy old_filename then
       log_event "updated" (msg_updated mod_name project_type mod_id filename) ;;;
       ret (dict_pop (py_str old_filename) index)
     else
       log_event "downloaded" (msg_downloaded mod_name project_type mod_id filename) ;;;
       ret index) ;;
  save_index project_type (dict_set filename mod_id index).

(** Source lines 327-349: the transfer, the removal of the old file and the
    index update. *)
Definition transfer_and_record (w : World) (mod_id mod_name : string)
    (project_type : option string) (file : File) (filename target_dir : string)
    (old_filename : option string) : M () :=
  let filepath := path_join target_dir filename in
  safe_print (msg_transfer (truthy old_filename) filename target_dir project_type) ;;;
  emit (EvDownload mod_id (file_url file) filepath) ;;;
  modrinth_download_file w (file_url file) filepath ;;;
  remove_old_file target_dir old_filename project_type ;;;
  record_index mod_id mod_name project_type filename old_filename.

(** Source lines 294-349, for a primary file that was found.  The result
    tells whether the function goes on to the dependencies (true) or has
    returned (false). *)
Definition install (w : World) (args : Args) (mod_id mod_name : string)
    (project_type : option string) (version : Version) (file : File) : M bool :=
  let filename := normalize_filename (file_filename file) in
  target_dir <- lift_res (resolve_target_directory w project_type) ;;
  if bool_decide (target_dir = "") then
    safe_print (msg_unknown_type mod_name project_type) ;;;
    ret false
  else
    makedirs target_dir ;;;
    index <- load_index project_type ;;
    let existing_id := dict_get filename index in
    let old_filename := find_old_filename index mod_id filename in
    declined <- fallback_gate w args mod_id mod_name project_type version
                              filename existing_id ;;
    if (declined : bool) then ret false
    else if bool_decide (existing_id = Some mod_id) then
      let msg := msg_skipped mod_name project_type mod_id filename in
      safe_print msg ;;;
      log_event "skipped" msg ;;;
      ret false
    else
      transfer_and_record w mod_id mod_name project_type file filename target_dir
                          old_filename ;;;
      ret true.

Definition with_seen (mod_id : string) (s : State) : State :=
  mkState (seen_mods s ∪ {[mod_id]}) (index_files s) (fs_files s) (fs_dirs s)
          (prompts s) (trace s).

(** [seen_mods.add(mod_id)] *)
Definition add_seen (mod_id : string) : M () :=
  fun s => (with_seen mod_id s, Ok ()).

(** Source lines 281-287: the report of a project without a usable version. *)
Definition report_no_version (mod_id mod_name : string)
    (project_type : option string) (version : option Version) : M () :=
  match version with
  | None => raise AttributeError            (* version.get on None *)
  | Some v =>
      closest_version <-
        match game_versions v with
        | [] => ret None
        | versions =>
            t <- lift_res (py_max (map parse_version versions)) ;;
            ret (Some (format_version t))
        end ;;
      let msg := msg_no_version mod_name project_type mod_id closest_version in
      safe_print msg ;;;
      log_event "no_version" msg
  end.

(** [project_type = "datapack"] when the version lists the datapack loader. *)
Definition corrected_type (version : option Version)
    (project_type : option string) : option string :=
  match version with
  | Some v => if str_in "datapack" (loaders v) then Some "datapack" else project_type
  | None => project_type
  end.

(** Source lines 272-349: one project, from its entry in the seen-set to
    its index update.  The result is the list of dependencies that the loop
    of lines 352-354 runs over, empty where the function has returned. *)
Definition visit (w : World) (args : Args) (mod_id : string) : M (list Dependency) :=
  add_seen mod_id ;;;
  mod_details <- get_mod_details w mod_id ;;
  let mod_name :=
    match mod_details with
    | Some d => default mod_id (title d)
    | None => mod_id
    end in
  project_type <-
    match mod_details with
    | Some d => ret (project_type d)
    | None => raise AttributeError          (* mod_details.get on None *)
    end ;;
  resolved <- get_latest_version w mod_id mod_name (arg_version args)
                (arg_loader args) (arg_fallback_bound args) project_type ;;
  let version := resolved.1 in
  let success := resolved.2 in
  let project_type := corrected_type version project_type in
  if negb success then
    report_no_version mod_id mod_name project_type version ;;;
    ret []
  else
    match version with
    | None => raise AttributeError          (* version.get on None *)
    | Some v =>
        match primary_file v with
        | None =>
            safe_print (msg_no_primary mod_name project_type mod_id) ;;;
            ret []
        | Some file =>
            recurse <- install w args mod_id mod_name project_type v file ;;
            ret (if (recurse : bool) then dependencies v else [])
        end
    end.

(** How a call of [download_project] ends: it returns, it raises, or the
    nesting of calls exceeds what the interpreter allows (Python's
    RecursionError, which no code of the program raises otherwise). *)
Inductive outcome : Type :=
| Returned
| Raised (e : Exn)
| RecursionError.

(** Source lines 352-354: the loop over the dependencies, [call] being the
    recursive call. *)
Fixpoint each_dependency (call : string → State → State * outcome)
    (deps : list Dependency) (s : State) : State * outcome :=
  match deps with
  | [] => (s, Returned)
  | dep :: deps' =>
      if String.eqb (dependency_type dep) "required" then
        match call (dep_project_id dep) s with
        | (s1, Returned) => each_dependency call deps' s1
        | (s1, o) => (s1, o)
        end
      else each_dependency call deps' s
  end.

(** [download_project].  The recursion of the source is on the call stack;
    [depth] is the number of nested calls the interpreter still allows. *)
Fixpoint download_project (depth : nat) (w : World) (args : Args)
    (mod_id : string) (s : State) : State * outcome :=
  match depth with
  | 0 => (s, RecursionError)
  | S depth' =>
      if bool_decide (mod_id ∈ seen_mods s) then (s, Returned)
      else
        match visit w args mod_id s with
        | (s1, Raise e) => (s1, Raised e)
        | (s1, Ok deps) => each_dependency (download_project depth' w args) deps s1
        end
  end.

(** One task of the worker pool: an exception raised inside it stays in
    the task's future, which [main] never reads. *)
Definition run_task (depth : nat) (w : World) (args : Args) (mod_id : string)
    (s : State) : State :=
  (download_project depth w args mod_id s).1.

Definition fresh_seen (s : State) : State :=
  mkState ∅ (index_files s) (fs_files s) (fs_dirs s) (prompts s) (trace s).

(** Source lines 389-393, the tasks taken one after the other: a fresh
    seen-set, then [download_project] on every project of the collection. *)
Definition orchestrate (depth : nat) (w : World) (args : Args)
    (mods : list string) (s : State) : State :=
  foldl (fun s mod_id => run_task depth w args mod_id s) (fresh_seen s) mods.

End Orchestrator.
Export Orchestrator.

(** The functions of the program are unfolded on request only. *)
#[global] Arguments _request_with_retries : simpl never.
#[global] Arguments get : simpl never.
#[global] Arguments download_file : simpl never.
#[global] Arguments select_version : simpl never.
#[global] Arguments get_latest_version : simpl never.
#[global] Arguments should_use_fallback : simpl never.
#[global] Arguments fallback_gate : simpl never.
#[global] Arguments remove_old_file : simpl never.
#[global] Arguments record_index : simpl never.
#[global] Arguments transfer_and_record : simpl never.
#[global] Arguments install : simpl never.
#[global] Arguments report_no_version : simpl never.
#[global] Arguments visit : simpl never.
#[global] Arguments load_index : simpl never.
#[global] Arguments save_index : simpl never.
#[global] Arguments normalize_filename : simpl never.
#[global] Arguments path_join : simpl never.
#[global] Arguments format_version : simpl never.
#[global] Arguments parse_version : simpl never.

(** ** Scan for manual additions *)

Module Scanner.

(** [s.endswith(suffix)]: [s] or one of its tails is [suffix]. *)
Fixpoint endswith (s suffix : string) : bool :=
  String.eqb s suffix
  || match s with
     | EmptyString => false
     | String _ s' => endswith s' suffix
     end.

(** [fname.endswith(".jar") or fname.endswith(".zip")] *)
Definition is_archive (fname : string) : bool :=
  endswith fname ".jar" || endswith fname ".zip".

(** The set comprehension of source lines 180-183, over the names that
    [os.listdir] returns. *)
Definition actual_files (listing : list string) : list string :=
  remove_dups (List.filter is_archive listing).

(** [key in index] *)
Definition dict_has (key : string) (index : Index) : bool :=
  str_in key index.*1.

(** [del index[key]]: a missing key raises KeyError. *)
Fixpoint dict_del (key : string) (index : Index) : res Index :=
  match index with
  | [] => Raise KeyError
  | (k, v) :: index' =>
      if String.eqb k key then Ok index'
      else (r <-? dict_del key index'; Ok ((k, v) :: r))
  end.

(** [sorted(xs)], in the order of Python on [str], taken on the bytes of
    the text. *)
Definition sorted (xs : list string) : list string := merge_sort String.le xs.

Definition msg_stale (stale : string) : string :=
  "[🧹 REMOVED STALE] " +:+ stale +:+ " no longer exists in folder.".

Definition msg_manual (fname : string) : string :=
  "[📦 MANUAL DETECTED] " +:+ fname +:+ " not in index.".

Definition msg_enter_id (fname : string) : string :=
  "🔍 Enter Modrinth project ID for '" +:+ fname +:+ "' (or leave blank to skip): ".

Definition msg_added (fname mod_id : string) : string :=
  "[✅ ADDED  ] " +:+ fname +:+ " → " +:+ mod_id.

Definition msg_left (fname : string) : string :=
  "[⏭️ SKIPPED] " +:+ fname +:+ " left unindexed.".

(** [[fname for fname in index if fname not in actual_files]] *)
Definition stale_files (index : Index) (actual : list string) : list string :=
  List.filter (fun fname => negb (str_in fname actual)) index.*1.

(** Source lines 187-189. *)
Fixpoint remove_stale (stale : list string) (index : Index) : M Index :=
  match stale with
  | [] => ret index
  | fname :: stale' =>
      safe_print (msg_stale fname) ;;;
      index <- lift_res (dict_del fname index) ;;
      remove_stale stale' index
  end.

(** Source lines 192-200. *)
Fixpoint add_new (w : World) (files : list string) (index : Index) : M Index :=
  match files with
  | [] => ret index
  | fname :: files' =>
      if dict_has fname index then add_new w files' index
      else
        safe_print (msg_manual fname) ;;;
        reply <- safe_input w (msg_enter_id fname) ;;
        let mod_id := strip reply in
        if bool_decide (mod_id = "") then
          safe_print (msg_left fname) ;;;
          add_new w files' index
        else
          safe_print (msg_added fname mod_id) ;;;
          add_new w files' (dict_set fname mod_id index)
  end.

(** [scan_manual_additions]; [listdir] is [os.listdir] on the folders of
    the operator. *)
Definition scan_manual_additions (w : World) (listdir : string → list string)
    (index_type : option string) : M () :=
  index <- load_index index_type ;;
  directory <- lift_res (resolve_target_directory w index_type) ;;
  makedirs directory ;;;
  let actual := actual_files (listdir directory) in
  index <- remove_stale (stale_files index actual) index ;;
  index <- add_new w (sorted actual) index ;;
  save_index index_type index.

(** The categories that [main] prepares and scans. *)
Definition CATEGORIES : list string :=
  ["mod"; "datapack"; "resourcepack"; "shaderpack"].

(** Source lines 379-380: the scan of every category. *)
Fixpoint scan_each (w : World) (listdir : string → list string)
    (types : list string) : M () :=
  match types with
  | [] => ret ()
  | project_type :: types' =>
      scan_manual_additions w listdir (Some project_type) ;;;
      scan_each w listdir types'
  end.

End Scanner.
Export Scanner.

#[global] Arguments scan_manual_additions : simpl never.

(** ** Log files *)

Module LogFiles.

(** [LOG_FILES.get(log_type)] *)
Definition LOG_FILES (log_type : string) : option string :=
  if String.eqb log_type "downloaded" then Some "downloaded_projects_logs.txt"
  else if String.eqb log_type "updated" then Some "updated_projects_logs.txt"
  else if String.eqb log_type "no_version"
       then Some "no_version_found_for_projects_logs.txt"
  else if String.eqb log_type "skipped" then Some "already_existing_projects_logs.txt"
  else None.

Definition LOG_NAMES : list string :=
  ["downloaded_projects_logs.txt"; "updated_projects_logs.txt";
   "no_version_found_for_projects_logs.txt"; "already_existing_projects_logs.txt"].

Definition log_path (name : string) : string := path_join LOG_DIR name.

(** The part of the disk that the log thread works on: whether the log
    folder exists, and the text of the files in it, by path. *)
Record LogDisk : Type := mkLogDisk {
  log_dir : bool;
  log_text : gmap string string
}.

Definition LF : ascii := "010"%char.
Definition CR : ascii := "013"%char.

(** The number of lines that iterating over a text file yields: a line
    ends at a line feed, a carriage return, or the two together, and text
    after the last of them is a line too. *)
Fixpoint count_lines (text : string) : nat :=
  match text with
  | EmptyString => 0
  | String c text' =>
      if Ascii.eqb c LF then S (count_lines text')
      else if Ascii.eqb c CR then
        match text' with
        | String c' text'' =>
            if Ascii.eqb c' LF then S (count_lines text'') else S (count_lines text')
        | EmptyString => 1
        end
      else
        match text' with
        | EmptyString => 1
        | _ => count_lines text'
        end
  end.

(** [f"{count + 1}. {message}\n"] *)
Definition log_line (count : nat) (message : string) : string :=
  pretty (count + 1) +:+ ". " +:+ message +:+ String LF "".

(** [initialize_logs]: the folder is made and every log file emptied. *)
Definition initialize_logs (d : LogDisk) : LogDisk :=
  mkLogDisk true
    (foldl (fun texts name => <[log_path name := ""]> texts) (log_text d) LOG_NAMES).

(** How the log thread ends: at the None item, by an exception, or not at
    all, waiting for a further item. *)
Inductive log_end : Type :=
| LogStopped
| LogDied (e : Exn)
| LogWaiting.

(** [log_dispatcher] on the items that [log_queue] delivers, in order. *)
Fixpoint log_dispatcher (items : list (option (string * string))) (d : LogDisk)
    : LogDisk * log_end :=
  match items with
  | [] => (d, LogWaiting)
  | None :: _ => (d, LogStopped)
  | Some (log_type, message) :: items' =>
      match LOG_FILES log_type with
      | None => (d, LogDied KeyError)
      | Some name =>
          if log_dir d then
            let path := log_path name in
            let text := default "" (log_text d !! path) in
            let count := count_lines text in
            log_dispatcher items'
              (mkLogDisk (log_dir d)
                 (<[path := text +:+ log_line count message]> (log_text d)))
          else (d, LogDied OSError)
      end
  end.

(** The items that a trace puts on [log_queue]. *)
Fixpoint log_items (evs : list Event) : list (string * string) :=
  match evs with
  | [] => []
  | EvLog log_type msg :: evs' => (log_type, msg) :: log_items evs'
  | _ :: evs' => log_items evs'
  end.

End LogFiles.
Export LogFiles.

(** ** Further vocabulary of the properties *)

Module Observed.

(** The whole-number pauses of a trace, in order. *)
Fixpoint sleeps (evs : list Event) : list Z :=
  match evs with
  | [] => []
  | EvSleep seconds :: evs' => seconds :: sleeps evs'
  | _ :: evs' => sleeps evs'
  end.

(** The prompts of a trace, in order. *)
Fixpoint prompted (evs : list Event) : list string :=
  match evs with
  | [] => []
  | EvPrompt prompt _ :: evs' => prompt :: prompted evs'
  | _ :: evs' => prompted evs'
  end.

(** The characters of a string. *)
Fixpoint chars (s : string) : list ascii :=
  match s with
  | EmptyString => []
  | String c s' => c :: chars s'
  end.

(** No character of the string ends a line. *)
Definition one_line (s : string) : Prop :=
  Forall (fun c => c ≠ LF ∧ c ≠ CR) (chars s).

(** A log entry that the log thread can file. *)
Definition known_log (e : Event) : Prop :=
  match e with
  | EvLog log_type _ => is_Some (LOG_FILES log_type)
  | _ => True
  end.

(** The numbered lines of a log file that holds [msgs], from number [k]. *)
Fixpoint numbered (k : nat) (msgs : list string) : string :=
  match msgs with
  | [] => ""
  | msg :: msgs' => log_line k msg +:+ numbered (S k) msgs'
  end.

(** The messages among [items] that go to the log file [name]. *)
Definition filed (name : string) (items : list (string * string)) : list string :=
  snd <$> List.filter (fun item => bool_decide (LOG_FILES item.1 = Some name)) items.

(** Console output, prompts, directory creation, and the reading and
    writing of an index: nothing on the network, no file transferred or
    removed. *)
Definition local_event (e : Event) : bool :=
  match e with
  | EvPrint _ | EvPrompt _ _ | EvMakedirs _ | EvLoadIndex _ | EvSaveIndex _ _ => true
  | _ => false
  end.

(** The state after [n] prompts and the events [evs]. *)
Definition told (n : nat) (evs : list Event) (s : State) : State :=
  mkState (seen_mods s) (index_files s) (fs_files s) (fs_dirs s) (prompts s + n)
          (trace s ++ evs).

(** The archives of a listing that the index does not hold, in the order
    in which the scan meets them. *)
Definition unindexed (index : Index) (listing : list string) : list string :=
  List.filter (fun fname => negb (dict_has fname index)) (sorted (actual_files listing)).

(** The paths of the index files of the categories that [main] scans. *)
Definition category_index_paths : list string :=
  omap (fun t => index_path <$> INDEX_FILES (Some t)) CATEGORIES.

(** Every index file on disk is a dict. *)
Definition all_dicts (s : State) : Prop :=
  ∀ path index, index_files s !! path = Some index → dict_wf index.

(** The log files hold the numbered entries of [past], from number 1. *)
Definition holds (texts : gmap string string) (past : list (string * string)) : Prop :=
  ∀ name, name ∈ LOG_NAMES →
    texts !! log_path name = Some (numbered 0 (filed name past)).

(** An attempt that is answered by a URLError or by HTTP 408. *)
Definition backs_off {A} (o : Attempt A) : Prop :=
  match o with
  | HTTPError code _ => code = 408%Z
  | URLError _ _ => True
  | _ => False
  end.

(** Events other than log entries, prompts and the start of a download. *)
Definition plain_event (e : Event) : bool :=
  match e with
  | EvLog _ _ | EvPrompt _ _ | EvDownload _ _ _ => false
  | _ => true
  end.

(** An event that is not a prompt. *)
Definition unprompted (e : Event) : Prop :=
  match e with
  | EvPrompt _ _ => False
  | _ => True
  end.

(** Every run of [m] extends the trace by events that satisfy [P]. *)
Definition Emits (P : Event → Prop) {A} (m : M A) : Prop :=
  ∀ s, ∃ evs, trace (m s).1 = trace s ++ evs ∧ Forall P evs.

(** The same for a call that ends in an [outcome]. *)
Definition Extends (P : Event → Prop) (s s' : State) : Prop :=
  ∃ evs, trace s' = trace s ++ evs ∧ Forall P evs.

(** An attempt that ends in an exception which the client does not catch:
    one of another class, or the ValueError of [int] or of [time.sleep] on
    the Retry-After header of a 429 answer. *)
Definition escapes {A} (o : Attempt A) (e : Exn) : Prop :=
  match o with
  | Crash e' => e' = e
  | HTTPError code NotAnInteger => code = 429%Z ∧ e = ValueError
  | HTTPError code (Seconds n) => code = 429%Z ∧ (n < 0)%Z ∧ e = ValueError
  | _ => False
  end.

(** What a request returns when an attempt succeeds. *)
Definition payload_of {A} (action : Action) (payload : A) : option A :=
  match action with
  | GET => Some payload
  | DOWNLOAD => None
  end.

End Observed.
Export Observed.

(** ** Vocabulary of the properties *)

Module Spec.

(** Events that neither transfer nor remove a file nor write an index:
    console and log output, prompts, GET requests, pauses, directory
    creation and index reads. *)
Definition basic_event (e : Event) : bool :=
  match e with
  | EvPrint _ | EvPrompt _ _ | EvLog _ _ | EvMakedirs _ | EvLoadIndex _
  | EvSleepDelay | EvSleep _ | EvAttempt GET _ _ => true
  | _ => false
  end.

(** Basic events other than log entries and prompts. *)
Definition silent_event (e : Event) : bool :=
  match e with
  | EvPrint _ | EvMakedirs _ | EvLoadIndex _
  | EvSleepDelay | EvSleep _ | EvAttempt GET _ _ => true
  | _ => false
  end.

(** The events of a file transfer and of the removal of an old file. *)
Definition transfer_event (e : Event) : bool :=
  match e with
  | EvAttempt DOWNLOAD _ _ | EvRetrieved _ _ | EvRemove _ => true
  | _ => false
  end.

Definition is_download_call (e : Event) : bool :=
  match e with EvDownload _ _ _ => true | _ => false end.

Definition is_save (e : Event) : bool :=
  match e with EvSaveIndex _ _ => true | _ => false end.

(** An event that is not the start of a file download. *)
Definition quiet (e : Event) : Prop := is_download_call e = false.


(** The project ids for which a trace starts a file download, in order. *)
Fixpoint downloads (evs : list Event) : list string :=
  match evs with
  | [] => []
  | EvDownload mod_id _ _ :: evs' => mod_id :: downloads evs'
  | _ :: evs' => downloads evs'
  end.

(** [s'] comes from [s] by events that all satisfy [P], with the seen-set
    untouched, and the index files too unless one of the events is a save. *)
Definition Frame (P : Event → Prop) (s s' : State) : Prop :=
  seen_mods s' = seen_mods s
  ∧ ∃ evs, trace s' = trace s ++ evs ∧ Forall P evs
           ∧ (Forall (fun e => is_save e = false) evs →
              index_files s' = index_files s).

Definition framed (P : Event → Prop) {A} (m : M A) : Prop :=
  ∀ s, Frame P s (m s).1.

(** From [s] to [s'] the seen-set is untouched and at most one download
    is started, that of [mod_id]. *)
Definition AtMostOne (mod_id : string) (s s' : State) : Prop :=
  seen_mods s' = seen_mods s
  ∧ ∃ evs, trace s' = trace s ++ evs
           ∧ (downloads evs = [] ∨ downloads evs = [mod_id]).

(** From [s] to [s'] the seen-set grows, no project has its download
    started twice, and every project whose download is started enters the
    seen-set on the way. *)
Definition Once (s s' : State) : Prop :=
  seen_mods s ⊆ seen_mods s'
  ∧ ∃ evs, trace s' = trace s ++ evs ∧ NoDup (downloads evs)
           ∧ ∀ x, x ∈ downloads evs → x ∈ seen_mods s' ∧ x ∉ seen_mods s.

(** The messages that a trace logs under [log_type]. *)
Fixpoint logs (log_type : string) (evs : list Event) : list string :=
  match evs with
  | [] => []
  | EvLog t msg :: evs' =>
      if String.eqb t log_type then msg :: logs log_type evs' else logs log_type evs'
  | _ :: evs' => logs log_type evs'
  end.

(** The messages that a trace prints. *)
Fixpoint printed (evs : list Event) : list string :=
  match evs with
  | [] => []
  | EvPrint msg :: evs' => msg :: printed evs'
  | _ :: evs' => printed evs'
  end.

(** The directories that a trace creates. *)
Fixpoint made_dirs (evs : list Event) : list string :=
  match evs with
  | [] => []
  | EvMakedirs dir :: evs' => dir :: made_dirs evs'
  | _ :: evs' => made_dirs evs'
  end.

(** Project [mod_id] resolves: its details [d] and its versions are
    fetched, [get_latest_version] selects [v] as a match, and [v] has the
    primary file [file]. *)
Definition resolves (w : World) (args : Args) (mod_id : string) (d : Details)
    (v : Version) (file : File) : Prop :=
  (get (details_of w mod_id) ("/v2/project/" +:+ mod_id)).2 = Ok (Some d)
  ∧ (∃ versions,
       (get (versions_of w mod_id) ("/v2/project/" +:+ mod_id +:+ "/version")).2
         = Ok (Some versions)
       ∧ versions ≠ []
       ∧ select_version versions (arg_version args) (arg_loader args)
           (arg_fallback_bound args) (project_type d) = Ok (Some v, true))
  ∧ primary_file v = Some file.

(** The state once [mod_id] has entered the seen-set and its details and
    versions are fetched. *)
Definition fetched (w : World) (mod_id : string) (s : State) : State :=
  mkState (seen_mods s ∪ {[mod_id]}) (index_files s) (fs_files s) (fs_dirs s)
          (prompts s)
          (trace s ++ (get (details_of w mod_id) ("/v2/project/" +:+ mod_id)).1
             ++ (get (versions_of w mod_id)
                     ("/v2/project/" +:+ mod_id +:+ "/version")).1).

(** The index that [load_index] returns in state [s]. *)
Definition stored (s : State) (index_file : string) : Index :=
  default [] (index_files s !! index_path index_file).

(** The state with further events in its trace. *)
Definition add_events (evs : list Event) (s : State) : State :=
  mkState (seen_mods s) (index_files s) (fs_files s) (fs_dirs s) (prompts s)
          (trace s ++ evs).

(** The events of [load_index]: the file is read when it exists. *)
Definition load_events (s : State) (index_file : string) : list Event :=
  match index_files s !! index_path index_file with
  | Some _ => [EvLoadIndex (index_path index_file)]
  | None => []
  end.



(** No index file on disk has an entry under the empty filename. *)
Definition no_empty_filename (s : State) : Prop :=
  ∀ path index mod_id, index_files s !! path = Some index → ("", mod_id) ∉ index.








End Spec.
Export Spec.

(** ** Sample worlds *)

Module Samples.

(** A project whose two endpoints answer at the first attempt. *)
Definition online (d : Details) (versions : list Version) : RemoteProject :=
  mkRemoteProject (fun _ => Success d) (fun _ => Success versions).

Definition jar (name : string) : File :=
  mkFile name ("https://cdn.modrinth.com/" +:+ name) true.

Definition needs (mod_id : string) : Dependency := mkDependency mod_id "required".

(** The arguments that the script sets: 1.21.8, fabric, floor 1.21.4. *)
Definition args0 : Args :=
  mkArgs [1; 21; 8]%N (Some "fabric") (Some [1; 21; 4]%N) "J7JO9I99".

Definition empty_state : State := mkState ∅ ∅ ∅ ∅ 0 [].

Definition a_mod (title_ : string) (versions : list Version) : RemoteProject :=
  online (mkDetails (Some title_) (Some "mod")) versions.

Definition world_of (projects : gmap string RemoteProject) (reply : string) : World :=
  mkWorld "/home" projects (fun _ _ => Success ()) (fun _ => reply).

(** An endpoint that times out at every attempt, one that is not found. *)
Definition timing_out {A} : nat → Attempt A := fun _ => URLError true "timed out".

(** Two mods that require each other. *)
Definition cyclic_world : World :=
  world_of
    (<["A" := a_mod "Mod A" [mkVersion ["1.21.8"] ["fabric"] [jar "a.jar"] [needs "B"]]]>
       (<["B" := a_mod "Mod B" [mkVersion ["1.21.8"] ["fabric"] [jar "b.jar"] [needs "A"]]]>
          ∅))
    "n".

(** A requires B and C; B has no version at all; the version list of D
    cannot be fetched. *)
Definition no_version_world : World :=
  world_of
    (<["A" := a_mod "Mod A"
                [mkVersion ["1.21.8"] ["fabric"] [jar "a.jar"] [needs "B"; needs "C"]]]>
       (<["B" := a_mod "Mod B" []]>
          (<["C" := a_mod "Mod C" [mkVersion ["1.21.8"] ["fabric"] [jar "c.jar"] []]]>
             (<["D" := mkRemoteProject
                         (fun _ => Success (mkDetails (Some "Mod D") (Some "mod")))
                         timing_out]> ∅))))
    "n".

(** A project of a type that has no index. *)
Definition modpack_world : World :=
  world_of
    (<["M" := online (mkDetails (Some "Pack M") (Some "modpack"))
                [mkVersion ["1.21.8"] ["fabric"] [jar "m.mrpack"] []]]> ∅)
    "n".


(** A mod whose only version is for 1.21.7, and an operator who declines. *)
Definition fallback_world (reply : string) : World :=
  world_of
    (<["F" := a_mod "Mod F" [mkVersion ["1.21.7"] ["fabric"] [jar "f.jar"] []]]> ∅)
    reply.

(** A mod X whose file is a.jar, and a mods index that records X under the
    empty filename. *)
Definition update_world : World :=
  world_of
    (<["X" := a_mod "Mod X" [mkVersion ["1.21.8"] ["fabric"] [jar "a.jar"] []]]> ∅)
    "n".

Definition mods_index_path : string := index_path "mods_index.json".

Definition empty_name_state : State :=
  mkState ∅ {[mods_index_path := [("", "X")]]} ∅ ∅ 0 [].

Definition old_name_state : State :=
  mkState ∅ {[mods_index_path := [("old.jar", "X")]]} {["/home/mods/old.jar"]} ∅ 0 [].

(** A mod whose only version is for another loader. *)
Definition forge_version : Version :=
  mkVersion ["1.21.7"; "1.21.9-rc1"] ["forge"] [jar "g.jar"] [].

Definition forge_world : World :=
  world_of (<["G" := a_mod "Mod G" [forge_version]]> ∅) "n".



(** A version without a primary file. *)
Definition secondary_version : Version :=
  mkVersion ["1.21.8"] ["fabric"] [mkFile "n.jar" "https://n" false] [needs "A"].

Definition secondary_world : World :=
  world_of (<["N" := a_mod "Mod N" [secondary_version]]> ∅) "n".

(** A mod whose only dependency is optional. *)
Definition optional_world : World :=
  world_of
    (<["O" := a_mod "Mod O"
                [mkVersion ["1.21.8"] ["fabric"] [jar "o.jar"]
                   [mkDependency "A" "optional"]]]> ∅)
    "n".

End Samples.
Import Samples.

(* ===================================================================== *)
(** * Properties *)
(* ===================================================================== *)

(** ** The order on version tuples *)

Section TupleOrder.

Lemma tuple_le_nil (t : tuple) : tuple_le [] t = true.
Proof. by destruct t. Qed.

Lemma tuple_le_nil_r (t : tuple) : tuple_le t [] = true → t = [].
Proof. by destruct t. Qed.

Lemma tuple_le_refl (t : tuple) : tuple_le t t = true.
Proof.
  induction t as [|x t IH]; [done|]. cbn.
  rewrite N.ltb_irrefl, N.eqb_refl. exact IH.
Qed.

Lemma tuple_lt_not_le (a b : tuple) : tuple_lt a b = negb (tuple_le b a).
Proof.
  revert b. induction a as [|x a IH]; intros [|y b]; cbn; try done.
  destruct (N.ltb_spec x y), (N.ltb_spec y x), (N.eqb_spec x y), (N.eqb_spec y x);
    first [lia | done | apply IH].
Qed.

Lemma tuple_le_trans (a b c : tuple) :
  tuple_le a b = true → tuple_le b c = true → tuple_le a c = true.
Proof.
  revert b c. induction a as [|x a IH]; intros [|y b] [|z c]; cbn; try done.
  destruct (N.ltb_spec x y), (N.ltb_spec y z), (N.ltb_spec x z),
    (N.eqb_spec x y), (N.eqb_spec y z), (N.eqb_spec x z);
    first [lia | done | apply IH].
Qed.

Lemma tuple_le_total (a b : tuple) : tuple_le a b = true ∨ tuple_le b a = true.
Proof.
  revert b. induction a as [|x a IH]; intros [|y b]; cbn; auto.
  destruct (N.ltb_spec x y), (N.ltb_spec y x), (N.eqb_spec x y), (N.eqb_spec y x);
    first [lia | by auto].
Qed.

Lemma tuple_le_antisym (a b : tuple) :
  tuple_le a b = true → tuple_le b a = true → a = b.
Proof.
  revert b. induction a as [|x a IH]; intros [|y b]; cbn; try done.
  destruct (N.ltb_spec x y), (N.ltb_spec y x), (N.eqb_spec x y), (N.eqb_spec y x);
    first [lia | done | idtac].
  intros ? ?. f_equal; [done|]. by apply IH.
Qed.

(** [max(xs)] picks an element, and no element lies above it. *)
Lemma max_from_elem (best : tuple) (l : list tuple) :
  max_from best l ∈ best :: l.
Proof.
  revert best. induction l as [|x l IH]; intros best; cbn; [by left|].
  destruct (tuple_lt best x).
  - right. apply IH.
  - pose proof (IH best) as H. apply elem_of_cons in H as [->|H]; [by left|].
    by do 2 right.
Qed.

Lemma max_from_ge_best (best : tuple) (l : list tuple) :
  tuple_le best (max_from best l) = true.
Proof.
  revert best. induction l as [|x l IH]; intros best; cbn; [apply tuple_le_refl|].
  destruct (tuple_lt best x) eqn:E; [|apply IH].
  rewrite tuple_lt_not_le in E. apply negb_true_iff in E.
  destruct (tuple_le_total best x) as [H|H]; [|congruence].
  eapply tuple_le_trans; [exact H|apply IH].
Qed.

Lemma max_from_upper (best : tuple) (l : list tuple) (x : tuple) :
  x ∈ best :: l → tuple_le x (max_from best l) = true.
Proof.
  revert best. induction l as [|y l IH]; intros best Hx; cbn.
  - apply list_elem_of_singleton in Hx as ->. apply tuple_le_refl.
  - apply elem_of_cons in Hx as [->|Hx]; [apply (max_from_ge_best _ (y :: l))|].
    destruct (tuple_lt best y) eqn:E.
    + by apply IH.
    + apply elem_of_cons in Hx as [->|Hx].
      * rewrite tuple_lt_not_le in E. apply negb_false_iff in E.
        eapply tuple_le_trans; [exact E|apply max_from_ge_best].
      * apply IH. set_solver.
Qed.

End TupleOrder.

(** ** Parsing of version strings *)

Section ParseVersion.

Lemma split_dot_nonempty (s : string) : split_dot s ≠ [].
Proof.
  destruct s as [|c s]; cbn; [done|].
  destruct (Ascii.eqb c "."); [done|]. by destruct (split_dot s).
Qed.

Lemma split_dot_app (a b : string) :
  split_dot (a +:+ String "." b) = split_dot a ++ split_dot b.
Proof.
  induction a as [|c a IH]; [done|].
  change (String c a +:+ String "." b) with (String c (a +:+ String "." b)).
  cbn. rewrite IH. destruct (Ascii.eqb c "."); [done|].
  pose proof (split_dot_nonempty a). by destruct (split_dot a).
Qed.

Lemma split_dot_dot_free (seg : string) :
  dot_free seg = true → split_dot seg = [seg].
Proof.
  induction seg as [|c seg IH]; cbn; [done|].
  intros [Hc Hfree]%andb_true_iff. apply negb_true_iff in Hc.
  by rewrite Hc, (IH Hfree).
Qed.

Lemma all_digits_dot_free (seg : string) :
  all_digits seg = true → dot_free seg = true.
Proof.
  induction seg as [|c seg IH]; cbn; [done|].
  intros [Hc Hseg]%andb_true_iff. rewrite (IH Hseg), andb_true_r.
  destruct (Ascii.eqb_spec c ".") as [->|]; [done|done].
Qed.

Lemma isdigit_all_digits (seg : string) : isdigit seg = true → all_digits seg = true.
Proof. by destruct seg. Qed.

Lemma parse_version_app (a b : string) :
  parse_version (a +:+ "." +:+ b) = parse_version a ++ parse_version b.
Proof.
  unfold parse_version. change ("." +:+ b) with (String "." b).
  by rewrite split_dot_app, filter_app, map_app.
Qed.

Lemma parse_version_not_numeric (seg : string) :
  dot_free seg = true → isdigit seg = false → parse_version seg = [].
Proof.
  intros Hfree Hnum. unfold parse_version. rewrite (split_dot_dot_free _ Hfree).
  rewrite filter_cons_False; [done|]. by apply Is_true_false.
Qed.

Lemma parse_version_numeric (seg : string) :
  isdigit seg = true → parse_version seg = [int seg].
Proof.
  intros Hnum. unfold parse_version.
  rewrite (split_dot_dot_free seg), filter_cons_True; [done|by apply Is_true_true|].
  by apply all_digits_dot_free, isdigit_all_digits.
Qed.

Lemma parse_version_no_numeric (v : string) :
  Forall (fun seg => isdigit seg = false) (split_dot v) → parse_version v = [].
Proof.
  unfold parse_version. induction 1 as [|seg segs Hseg _ IH]; [done|].
  rewrite filter_cons_False; [done|]. by apply Is_true_false.
Qed.

Lemma in_window_nil (fallback target : tuple) :
  fallback ≠ [] → in_window fallback target [] = false.
Proof. by destruct fallback. Qed.

Lemma existsb_in_window (fb target : tuple) (gvs : list string) :
  existsb (in_window fb target) (map parse_version gvs) = true →
  ∃ g, g ∈ gvs ∧ in_window fb target (parse_version g) = true.
Proof.
  induction gvs as [|g gvs IH]; cbn; [done|].
  intros [H|H]%orb_true_iff.
  - exists g. split; [by left|done].
  - destruct (IH H) as (g' & ? & ?). exists g'. split; [by right|done].
Qed.

Lemma version_ok_existsb (fb target : tuple) (gvs : list tuple) (ok : bool) :
  version_ok (Some fb) target gvs = Ok ok → existsb (in_window fb target) gvs = ok.
Proof. destruct gvs; cbn; congruence. Qed.

Lemma is_compatible_window (v : Version) (loader : option string)
    (fb target : tuple) (pt : option string) :
  is_compatible v loader (Some fb) target pt = Ok true →
  ∃ g, g ∈ game_versions v ∧ in_window fb target (parse_version g) = true.
Proof.
  unfold is_compatible.
  destruct (version_ok _ _ _) as [ok|] eqn:E; cbn; [|done].
  intros [= [-> _]%andb_true_iff]. apply existsb_in_window.
  apply version_ok_existsb in E. exact E.
Qed.

End ParseVersion.

(** C10. [parse_version] keeps exactly the purely numeric segments of a
    dot-separated string: it is additive over the separator, a segment that
    is empty or has a non-digit character contributes nothing, and a segment
    of digits contributes its value; so '1.21.8-rc1' parses to (1, 21) and
    a string without numeric segment to the empty tuple.  The empty tuple is
    below every target but lies in no window whose floor is non-empty, hence
    a game-version entry that parses to it never makes [is_compatible]'s
    version check succeed. *)
Theorem parse_version_numeric_segments :
  parse_version "1.21.8-rc1" = [1; 21]%N
  ∧ (∀ a b, parse_version (a +:+ "." +:+ b) = parse_version a ++ parse_version b)
  ∧ (∀ seg, dot_free seg = true → isdigit seg = false → parse_version seg = [])
  ∧ (∀ seg, isdigit seg = true → parse_version seg = [int seg])
  ∧ (∀ v, Forall (fun seg => isdigit seg = false) (split_dot v) → parse_version v = [])
  ∧ (∀ target, tuple_le [] target = true)
  ∧ (∀ fallback target, fallback ≠ [] → in_window fallback target [] = false)
  ∧ (∀ v loader fallback target project_type,
       fallback ≠ [] →
       is_compatible v loader (Some fallback) target project_type = Ok true →
       ∃ g, g ∈ game_versions v ∧ parse_version g ≠ []
            ∧ in_window fallback target (parse_version g) = true)
  ∧ (∀ v loader fallback target project_type,
       fallback ≠ [] →
       Forall (fun g => parse_version g = []) (game_versions v) →
       is_compatible v loader (Some fallback) target project_type = Ok false).
Proof.
  split_and!.
  - reflexivity.
  - apply parse_version_app.
  - apply parse_version_not_numeric.
  - apply parse_version_numeric.
  - apply parse_version_no_numeric.
  - apply tuple_le_nil.
  - apply in_window_nil.
  - intros v loader fb target pt Hfb Hok.
    destruct (is_compatible_window _ _ _ _ _ Hok) as (g & Hg & Hwin).
    exists g. split_and!; [done| |done].
    intros Hnil. rewrite Hnil, in_window_nil in Hwin; done.
  - intros v loader fb target pt Hfb Hall.
    destruct (is_compatible v loader (Some fb) target pt) as [[|]|e] eqn:E; [|done|].
    + destruct (is_compatible_window _ _ _ _ _ E) as (g & Hg & Hwin).
      rewrite Forall_forall in Hall. rewrite (Hall g Hg) in Hwin.
      by rewrite in_window_nil in Hwin.
    + unfold is_compatible, version_ok in E.
      by destruct (parsed_game_versions v).
Qed.

(** ** Version resolution *)

Section ResolverFacts.

Lemma max_default_spec (l : list tuple) (g : tuple) :
  max_default l = Some g → g ∈ l ∧ ∀ x, x ∈ l → tuple_le x g = true.
Proof.
  destruct l as [|t l]; cbn; [done|]. intros [= <-].
  split; [apply max_from_elem|apply max_from_upper].
Qed.

(** [gv] is the greatest listed game version that does not exceed the target. *)
Lemma gv_spec (v : Version) (target g : tuple) :
  gv v target = Some g →
  g ∈ parsed_game_versions v ∧ tuple_le g target = true
  ∧ ∀ g', g' ∈ parsed_game_versions v → tuple_le g' target = true →
          tuple_le g' g = true.
Proof.
  unfold gv. intros [Hin Hmax]%max_default_spec.
  apply list_elem_of_filter in Hin as [Hle Hin]. apply Is_true_true in Hle.
  split_and!; [done..|]. intros g' Hg' Hle'. apply Hmax.
  apply list_elem_of_filter. split; [by apply Is_true_true|done].
Qed.

Lemma gv_is_Some (v : Version) (target : tuple) (g : string) :
  g ∈ game_versions v → tuple_le (parse_version g) target = true →
  is_Some (gv v target).
Proof.
  intros Hg Hle. unfold gv.
  assert (parse_version g ∈ filter (fun t => Is_true (tuple_le t target))
                                   (parsed_game_versions v)) as Hin.
  { apply list_elem_of_filter. split; [by apply Is_true_true|].
    apply list_elem_of_In, in_map, list_elem_of_In, Hg. }
  destruct (filter _ _); [by apply elem_of_nil in Hin|]. by eexists.
Qed.

Lemma filter_res_Ok {A} (p : A → res bool) (l r : list A) :
  filter_res p l = Ok r → ∀ x, x ∈ r ↔ x ∈ l ∧ p x = Ok true.
Proof.
  revert r. induction l as [|y l IH]; cbn; intros r.
  - intros [= <-] x. split; [by intros ?%elem_of_nil|by intros [?%elem_of_nil _]].
  - destruct (p y) as [b|] eqn:Hy; cbn; [|done].
    destruct (filter_res p l) as [r'|] eqn:Hr; cbn; [|done].
    intros [= <-] x. specialize (IH _ eq_refl x).
    destruct b.
    + rewrite elem_of_cons, IH, elem_of_cons. split.
      * intros [->|[? ?]]; (split; [|done]); [by left|by right].
      * intros [[->|?] ?]; [by left|by right].
    + rewrite IH, elem_of_cons. split.
      * intros [? ?]. split; [by right|done].
      * intros [[->|?] Hp]; [congruence|done].
Qed.

Lemma filter_res_all_false {A} (p : A → res bool) (l : list A) :
  (∀ x, x ∈ l → p x = Ok false) → filter_res p l = Ok [].
Proof.
  induction l as [|y l IH]; intros Hall; cbn; [done|].
  rewrite (Hall y), IH; [done| |by left]. intros x Hx. apply Hall. by right.
Qed.

Lemma max_key_from_spec {A} (key : A → option tuple) (best : A) (kb : tuple)
    (l : list A) :
  key best = Some kb → (∀ x, x ∈ l → is_Some (key x)) →
  ∃ m km, max_key_from key best (Some kb) l = Ok m ∧ m ∈ best :: l
          ∧ key m = Some km
          ∧ ∀ x kx, x ∈ best :: l → key x = Some kx → tuple_le kx km = true.
Proof.
  revert best kb. induction l as [|y l IH]; intros best kb Hbest Hall; cbn.
  - exists best, kb. split_and!; [done|by left|done|].
    intros x kx ->%list_elem_of_singleton Hx. rewrite Hbest in Hx.
    injection Hx as <-. apply tuple_le_refl.
  - destruct (Hall y) as [ky Hy]; [by left|]. rewrite Hy.
    assert (∀ x, x ∈ l → is_Some (key x)) as Hall' by (intros; apply Hall; by right).
    destruct (tuple_lt kb ky) eqn:Hlt; rewrite tuple_lt_not_le in Hlt.
    + apply negb_true_iff in Hlt.
      destruct (IH y ky Hy Hall') as (m & km & -> & Hm & Hkm & Hup).
      exists m, km. split_and!; [done|by right|done|].
      intros x kx [->|Hx]%elem_of_cons Hkx; [|by eapply Hup].
      rewrite Hbest in Hkx. injection Hkx as <-.
      destruct (tuple_le_total kb ky) as [H|H]; [|congruence].
      eapply tuple_le_trans; [exact H|]. eapply Hup; [by left|done].
    + apply negb_false_iff in Hlt.
      destruct (IH best kb Hbest Hall') as (m & km & -> & Hm & Hkm & Hup).
      exists m, km. split_and!; [done| |done|].
      { apply elem_of_cons in Hm as [->|Hm]; [by left|by do 2 right]. }
      intros x kx [->|[->|Hx]%elem_of_cons]%elem_of_cons Hkx.
      * eapply Hup; [by left|done].
      * rewrite Hy in Hkx. injection Hkx as <-.
        eapply tuple_le_trans; [exact Hlt|]. eapply Hup; [by left|done].
      * eapply Hup; [by right|done].
Qed.

Lemma max_key_spec {A} (key : A → option tuple) (l : list A) :
  l ≠ [] → (∀ x, x ∈ l → is_Some (key x)) →
  ∃ m km, max_key key l = Ok m ∧ m ∈ l ∧ key m = Some km
          ∧ ∀ x kx, x ∈ l → key x = Some kx → tuple_le kx km = true.
Proof.
  destruct l as [|y l]; [done|]. intros _ Hall. cbn.
  destruct (Hall y) as [ky Hy]; [by left|]. rewrite Hy.
  apply max_key_from_spec; [done|]. intros x Hx. apply Hall. by right.
Qed.

(** When no version is compatible, the first version with the greatest
    [gv] is returned as a non-match. *)
Lemma select_version_none_compatible (versions : list Version) (target : tuple)
    (loader : option string) (fallback : option tuple) (pt : option string) :
  (∀ v, v ∈ versions → is_compatible v loader fallback target pt = Ok false) →
  (∃ v, v ∈ versions ∧ is_Some (gv v target)) →
  ∃ best g, select_version versions target loader fallback pt = Ok (Some best, false)
            ∧ best ∈ versions ∧ gv best target = Some g
            ∧ ∀ v' g', v' ∈ versions → gv v' target = Some g' →
                       tuple_le g' g = true.
Proof.
  intros Hnone (v0 & Hv0 & Hg0). unfold select_version.
  rewrite (filter_res_all_false _ _ Hnone). cbn.
  set (valid := filter (fun v => is_Some (gv v target)) versions).
  assert (v0 ∈ valid) as Hin by (by apply list_elem_of_filter).
  destruct (max_key_spec (fun v => gv v target) valid) as (m & km & Hmax & Hm & Hkm & Hup).
  { intros E. rewrite E in Hin. by apply elem_of_nil in Hin. }
  { by intros x [? _]%list_elem_of_filter. }
  destruct valid as [|y valid'] eqn:E; [by apply elem_of_nil in Hin|].
  rewrite Hmax. cbn. exists m, km. split_and!; [done| |done|].
  - rewrite <- E in Hm. by apply list_elem_of_filter in Hm as [_ ?].
  - intros v' g' Hv' Hg'. eapply Hup; [|exact Hg'].
    rewrite <- E. apply list_elem_of_filter. split; [by rewrite Hg'|done].
Qed.

(** A version list with an entry at or below the target never resolves to
    no version at all. *)
Lemma select_version_not_null (versions : list Version) (target : tuple)
    (loader : option string) (fallback : option tuple) (pt : option string)
    (b : bool) :
  (∃ v, v ∈ versions ∧ is_Some (gv v target)) →
  select_version versions target loader fallback pt ≠ Ok (None, b).
Proof.
  intros (v0 & Hv0 & Hg0). unfold select_version.
  destruct (filter_res _ versions) as [compatible|] eqn:Hc; cbn; [|done].
  destruct compatible as [|c compatible].
  - assert (v0 ∈ filter (fun v => is_Some (gv v target)) versions) as Hin
      by (by apply list_elem_of_filter).
    destruct (filter _ versions) as [|y valid]; [by apply elem_of_nil in Hin|].
    by destruct (max_key _ _).
  - destruct (List.find _ _); [done|]. by destruct (max_key _ _).
Qed.

End ResolverFacts.

Lemma get_latest_version_fetched (w : World) (mod_id mod_name : string)
    (target : tuple) (loader : option string) (fallback : option tuple)
    (pt : option string) (s : State) (v : Version) (versions : list Version) :
  (get (versions_of w mod_id) ("/v2/project/" +:+ mod_id +:+ "/version")).2
    = Ok (Some (v :: versions)) →
  (get_latest_version w mod_id mod_name target loader fallback pt s).2
    = select_version (v :: versions) target loader fallback pt.
Proof.
  intros Hget. unfold get_latest_version, bind, get_mod_version, run_client.
  destruct (get _ _) as [evs r]. cbn in Hget. subst r. done.
Qed.

(** C2. When the fetched version list has a version with a game-version
    entry at or below the target, [get_latest_version] never returns a null
    version; and when moreover no version is compatible it returns, as a
    non-match (second component false), a version whose highest entry not
    above the target is at least every such entry of every version. *)
Theorem get_latest_version_never_null (w : World) (mod_id mod_name : string)
    (target : tuple) (loader : option string) (fallback : option tuple)
    (pt : option string) (s : State) (versions : list Version) :
  (get (versions_of w mod_id) ("/v2/project/" +:+ mod_id +:+ "/version")).2
    = Ok (Some versions) →
  (∃ v g, v ∈ versions ∧ g ∈ game_versions v
          ∧ tuple_le (parse_version g) target = true) →
  let r := (get_latest_version w mod_id mod_name target loader fallback pt s).2 in
  (∀ b, r ≠ Ok (None, b))
  ∧ ((∀ v, v ∈ versions → is_compatible v loader fallback target pt = Ok false) →
     ∃ best g,
       r = Ok (Some best, false) ∧ best ∈ versions ∧ gv best target = Some g
       ∧ g ∈ parsed_game_versions best ∧ tuple_le g target = true
       ∧ ∀ v' g', v' ∈ versions → g' ∈ parsed_game_versions v' →
                  tuple_le g' target = true → tuple_le g' g = true).
Proof.
  intros Hget (v0 & g0 & Hv0 & Hg0 & Hle0) r.
  assert (∃ v, v ∈ versions ∧ is_Some (gv v target)) as Hvalid.
  { exists v0. split; [done|]. by eapply gv_is_Some. }
  destruct versions as [|v1 versions]; [by apply elem_of_nil in Hv0|].
  subst r. rewrite (get_latest_version_fetched _ _ _ _ _ _ _ _ _ _ Hget).
  split; [intros b; by apply select_version_not_null|].
  intros Hnone.
  destruct (select_version_none_compatible _ _ _ _ _ Hnone Hvalid)
    as (best & g & Hsel & Hbest & Hg & Hup).
  destruct (gv_spec _ _ _ Hg) as (Hgin & Hgle & _).
  exists best, g. split_and!; [done..|].
  intros v' g' Hv' Hg' Hle'.
  destruct (gv v' target) as [k|] eqn:Hk.
  - destruct (gv_spec _ _ _ Hk) as (_ & _ & Hmax).
    eapply tuple_le_trans; [by apply Hmax|by eapply Hup].
  - unfold parsed_game_versions in Hg'.
    apply list_elem_of_In, in_map_iff in Hg' as (gs & <- & Hgs).
    apply list_elem_of_In in Hgs.
    destruct (gv_is_Some v' target gs Hgs Hle') as [k' Hk']. congruence.
Qed.

(** ** The retrying client *)

Section ClientFacts.

Context {A : Type}.
Implicit Types (net : nat → Attempt A) (url : string) (action : Action)
  (dest : option string).

Lemma attempts_made_app (evs1 evs2 : list Event) :
  attempts_made (evs1 ++ evs2) = attempts_made evs1 + attempts_made evs2.
Proof. unfold attempts_made. by rewrite List.filter_app, length_app. Qed.

Lemma iteration_attempts url action dest k (o : Attempt A) :
  attempts_made (iteration url action dest k o).1 = 1.
Proof.
  destruct o as [p|code ra|t reason|e]; cbn.
  - by destruct action.
  - destruct (code =? 429)%Z.
    + destruct ra as [|n|]; [done| |done]. by destruct (n <? 0)%Z.
    + by destruct (code =? 408)%Z.
  - done.
  - done.
Qed.

Lemma iteration_retryable url action dest k (o : Attempt A) :
  retryable o → (iteration url action dest k o).2 = IterContinue.
Proof.
  destruct o as [p|code ra|t reason|e]; cbn; [done| |done|done].
  intros [[-> Hra]| ->]; cbn; [|done].
  destruct Hra as [->|(n & -> & Hn)]; [done|].
  by destruct (Z.ltb_spec n 0); [lia|].
Qed.




End ClientFacts.

Section ClientBounds.

Context {A : Type}.
Implicit Types (net : nat → Attempt A) (url : string) (action : Action)
  (dest : option string).


End ClientBounds.



(** ** The return value of [download_file] *)

Section DownloadFile.

Implicit Types (net : nat → Attempt ()) (url filename : string).

Lemma retrieved_app (evs1 evs2 : list Event) :
  retrieved (evs1 ++ evs2) = retrieved evs1 ∪ retrieved evs2.
Proof.
  induction evs1 as [|e evs1 IH]; cbn; [by rewrite (left_id_L ∅ (∪))|].
  destruct e; try done. destruct dest; [|done]. by rewrite IH, (assoc_L (∪)).
Qed.




End DownloadFile.



(** ** Frames: what the steps of the orchestrator leave alone *)

Section Frames.

Variable P : Event → Prop.
Hypothesis P_basic : ∀ e, basic_event e = true → P e.

Lemma Frame_refl (s : State) : Frame P s s.
Proof. split; [done|]. exists []. by rewrite app_nil_r. Qed.

Lemma Frame_trans (s1 s2 s3 : State) :
  Frame P s1 s2 → Frame P s2 s3 → Frame P s1 s3.
Proof.
  intros (Hs & evs & Ht & Hp & Hi) (Hs' & evs' & Ht' & Hp' & Hi').
  split; [congruence|]. exists (evs ++ evs').
  split_and!; [by rewrite Ht', Ht, app_assoc|by apply Forall_app|].
  intros [H1 H2]%Forall_app. rewrite Hi', Hi; done.
Qed.

(** A step that only adds the events [evs]. *)
Lemma Frame_events (s s' : State) (evs : list Event) :
  seen_mods s' = seen_mods s → index_files s' = index_files s →
  trace s' = trace s ++ evs → Forall P evs → Frame P s s'.
Proof. intros Hs Hi Ht Hp. split; [done|]. by exists evs. Qed.

Lemma framed_ret {A} (a : A) : framed P (ret a).
Proof. intros s. apply Frame_refl. Qed.

Lemma framed_raise {A} (e : Exn) : framed P (raise (A:=A) e).
Proof. intros s. apply Frame_refl. Qed.

Lemma framed_lift_res {A} (r : res A) : framed P (lift_res r).
Proof. intros s. apply Frame_refl. Qed.

Lemma framed_bind {A B} (m : M A) (k : A → M B) :
  framed P m → (∀ a, framed P (k a)) → framed P (bind m k).
Proof.
  intros Hm Hk s. unfold bind. specialize (Hm s).
  destruct (m s) as [s1 [a|e]]; cbn in *; [|done].
  eapply Frame_trans; [exact Hm|apply Hk].
Qed.

Lemma framed_emit (e : Event) : P e → framed P (emit e).
Proof. intros He s. apply (Frame_events _ _ [e]); by repeat constructor. Qed.

Lemma framed_safe_print (msg : string) : framed P (safe_print msg).
Proof. by apply framed_emit, P_basic. Qed.

Lemma framed_log_event (log_type msg : string) : framed P (log_event log_type msg).
Proof. by apply framed_emit, P_basic. Qed.

Lemma framed_safe_input (w : World) (prompt : string) : framed P (safe_input w prompt).
Proof.
  intros s. eapply (Frame_events _ _ [_]); [done..|].
  constructor; [by apply P_basic|done].
Qed.

Lemma framed_makedirs (dir : string) : framed P (makedirs dir).
Proof.
  intros s. eapply (Frame_events _ _ [_]); [done..|].
  constructor; [by apply P_basic|done].
Qed.

Lemma framed_path_exists (path : string) : framed P (path_exists path).
Proof. intros s. apply Frame_refl. Qed.

Lemma framed_load_index (index_type : option string) : framed P (load_index index_type).
Proof.
  intros s. unfold load_index. destruct (INDEX_FILES index_type); [|apply Frame_refl].
  destruct (index_files s !! _); [|apply Frame_refl].
  eapply (Frame_events _ _ [_]); [done..|].
  constructor; [by apply P_basic|done].
Qed.

Lemma framed_run_client {A} (c : list Event * res (option A)) :
  Forall P c.1 → framed P (run_client c).
Proof. intros Hc s. by apply (Frame_events _ _ c.1). Qed.

End Frames.

(** ** The events of the client *)

Section ClientEvents.

Context {A : Type}.
Implicit Types (net : nat → Attempt A) (url : string) (dest : option string).

Lemma iteration_get_silent url dest k (o : Attempt A) :
  Forall (fun e => silent_event e = true) (iteration url GET dest k o).1.
Proof.
  destruct o as [p|code ra|t reason|e]; cbn.
  - by repeat constructor.
  - destruct (code =? 429)%Z.
    + destruct ra as [|n|]; [by repeat constructor| |by repeat constructor].
      destruct (n <? 0)%Z; by repeat constructor.
    + destruct (code =? 408)%Z; by repeat constructor.
  - by repeat constructor.
  - by repeat constructor.
Qed.

Lemma iteration_download_events url dest k (o : Attempt A) :
  Forall (fun e => basic_event e || transfer_event e = true)
         (iteration url DOWNLOAD dest k o).1.
Proof.
  destruct o as [p|code ra|t reason|e]; cbn.
  - by repeat constructor.
  - destruct (code =? 429)%Z.
    + destruct ra as [|n|]; [by repeat constructor| |by repeat constructor].
      destruct (n <? 0)%Z; by repeat constructor.
    + destruct (code =? 408)%Z; by repeat constructor.
  - by repeat constructor.
  - by repeat constructor.
Qed.

Lemma retry_loop_events (Q : Event → Prop) net url action dest (n k : nat) :
  (∀ k (o : Attempt A), Forall Q (iteration url action dest k o).1) →
  Q (EvPrint (failed_msg url action)) →
  Forall Q (retry_loop net url action dest n k).1.
Proof.
  intros Hit Hfail. revert k. induction n as [|n IH]; intros k; cbn.
  - by repeat constructor.
  - specialize (Hit k (net k)). specialize (IH (S k)).
    destruct (iteration url action dest k (net k)) as [evs it].
    destruct it, (retry_loop net url action dest n (S k)) as [evs' r'];
      cbn [fst] in *; try done; apply Forall_app; split; try done.
    by repeat constructor.
Qed.

Lemma get_events_silent net (endpoint : string) :
  Forall (fun e => silent_event e = true) (get net endpoint).1.
Proof.
  apply retry_loop_events; [intros; apply iteration_get_silent|done].
Qed.

Lemma get_events_basic net (endpoint : string) :
  Forall (fun e => basic_event e = true) (get net endpoint).1.
Proof.
  eapply Forall_impl; [apply get_events_silent|]. intros e. by destruct e as [[]| | | | | | | | | | |].
Qed.

Lemma get_retrieved net (endpoint : string) : retrieved (get net endpoint).1 = ∅.
Proof.
  pose proof (get_events_basic net endpoint) as H.
  induction H as [|e evs He _ IH]; [done|]. by destruct e as [[]| | | | | | | | | | |].
Qed.

End ClientEvents.

Lemma download_file_events (net : nat → Attempt ()) (url filename : string) :
  Forall (fun e => basic_event e || transfer_event e = true)
         (download_file net url filename).1.
Proof.
  unfold download_file, _request_with_retries.
  pose proof (retry_loop_events (fun e => basic_event e || transfer_event e = true)
                net url DOWNLOAD (Some filename) MAX_RETRIES 0) as H.
  destruct (retry_loop _ _ _ _ _ _) as [evs r]. apply H; [|done].
  intros; apply iteration_download_events.
Qed.

(** ** Frames of the orchestrator's steps *)

Section OrchestratorFrames.

Variable P : Event → Prop.
Hypothesis P_basic : ∀ e, basic_event e = true → P e.

Lemma framed_get_mod_details (w : World) (mod_id : string) :
  framed P (get_mod_details w mod_id).
Proof.
  apply framed_run_client. eapply Forall_impl; [apply get_events_basic|done].
Qed.

Lemma framed_get_mod_version (w : World) (mod_id : string) :
  framed P (get_mod_version w mod_id).
Proof.
  apply framed_run_client. eapply Forall_impl; [apply get_events_basic|done].
Qed.

Lemma framed_get_latest_version (w : World) (mod_id mod_name : string)
    (target : tuple) (loader : option string) (fallback : option tuple)
    (pt : option string) :
  framed P (get_latest_version w mod_id mod_name target loader fallback pt).
Proof.
  apply framed_bind; [by apply framed_get_mod_version|].
  intros [[|v vs]|].
  - apply framed_bind; [by apply framed_safe_print|intros; apply framed_ret].
  - apply framed_lift_res.
  - apply framed_bind; [by apply framed_safe_print|intros; apply framed_ret].
Qed.

Lemma framed_report_no_version (mod_id mod_name : string) (pt : option string)
    (version : option Version) :
  framed P (report_no_version mod_id mod_name pt version).
Proof.
  destruct version as [v|]; [|apply framed_raise]. cbn.
  apply framed_bind.
  - destruct (game_versions v); [apply framed_ret|].
    apply framed_bind; [apply framed_lift_res|intros; apply framed_ret].
  - intros c. apply framed_bind; [by apply framed_safe_print|].
    intros _. by apply framed_log_event.
Qed.

Lemma framed_should_use_fallback (w : World) (version : Version) (target : tuple)
    (mod_name filename : string) :
  framed P (should_use_fallback w version target mod_name filename).
Proof.
  unfold should_use_fallback. destruct (gv version target); [|apply framed_raise].
  apply framed_bind; [by apply framed_safe_input|intros; apply framed_ret].
Qed.

Lemma framed_fallback_gate (w : World) (args : Args) (mod_id mod_name : string)
    (pt : option string) (version : Version) (filename : string)
    (existing_id : option string) :
  framed P (fallback_gate w args mod_id mod_name pt version filename existing_id).
Proof.
  unfold fallback_gate. destruct (_ && _); [|apply framed_ret].
  apply framed_bind; [by apply framed_should_use_fallback|].
  intros [|]; [apply framed_ret|].
  apply framed_bind; [apply framed_lift_res|]. intros c.
  apply framed_bind; [by apply framed_safe_print|]. intros _.
  apply framed_bind; [by apply framed_log_event|]. intros _. apply framed_ret.
Qed.

Hypothesis P_transfer : ∀ e, transfer_event e = true → P e.

Lemma framed_download_file (w : World) (url filename : string) :
  framed P (modrinth_download_file w url filename).
Proof.
  apply framed_run_client. eapply Forall_impl; [apply download_file_events|].
  intros e [H|H]%orb_true_iff; [by apply P_basic|by apply P_transfer].
Qed.

Lemma framed_os_remove (path : string) : framed P (os_remove path).
Proof.
  intros s. unfold os_remove. destruct (bool_decide _); [|apply Frame_refl].
  eapply (Frame_events _ _ _ [_]); [done..|].
  constructor; [by apply P_transfer|done].
Qed.

Lemma framed_remove_old_file (target_dir : string) (old : option string)
    (pt : option string) :
  framed P (remove_old_file target_dir old pt).
Proof.
  unfold remove_old_file. destruct (truthy old); [|apply framed_ret].
  apply framed_bind; [apply framed_path_exists|]. intros [|]; [|apply framed_ret].
  apply framed_bind; [by apply framed_safe_print|]. intros _. apply framed_os_remove.
Qed.

Hypothesis P_save : ∀ e, is_save e = true → P e.

Lemma framed_save_index (index_type : option string) (index : Index) :
  framed P (save_index index_type index).
Proof.
  intros s. unfold save_index. destruct (INDEX_FILES index_type); [|apply Frame_refl].
  split; [done|]. eexists [_]. split_and!; [done| |].
  - constructor; [by apply P_save|done].
  - by intros [[=] _]%Forall_cons.
Qed.

Lemma framed_record_index (mod_id mod_name : string) (pt : option string)
    (filename : string) (old : option string) :
  framed P (record_index mod_id mod_name pt filename old).
Proof.
  apply framed_bind; [by apply framed_load_index|]. intros index.
  apply framed_bind.
  - destruct (truthy old);
      (apply framed_bind; [by apply framed_log_event|intros; apply framed_ret]).
  - intros index'. apply framed_save_index.
Qed.

End OrchestratorFrames.

(** ** Dependency dedup *)

Section Dedup.

Variables (w : World) (args : Args).

Lemma quiet_basic (e : Event) : basic_event e = true → quiet e.
Proof. by destruct e. Qed.

Lemma quiet_transfer (e : Event) : transfer_event e = true → quiet e.
Proof. by destruct e. Qed.

Lemma quiet_save (e : Event) : is_save e = true → quiet e.
Proof. by destruct e. Qed.

Lemma downloads_app (evs1 evs2 : list Event) :
  downloads (evs1 ++ evs2) = downloads evs1 ++ downloads evs2.
Proof.
  induction evs1 as [|e evs1 IH]; [done|]. destruct e; cbn; by rewrite ?IH.
Qed.

Lemma downloads_quiet (evs : list Event) : Forall quiet evs → downloads evs = [].
Proof. induction 1 as [|e evs He _ IH]; [done|]. by destruct e. Qed.

Lemma Frame_AtMostOne (mod_id : string) (s s' : State) :
  Frame quiet s s' → AtMostOne mod_id s s'.
Proof.
  intros (Hs & evs & Ht & Hq & _). split; [done|]. exists evs.
  split; [done|]. left. by apply downloads_quiet.
Qed.

Lemma Frame_then_AtMostOne (mod_id : string) (s1 s2 s3 : State) :
  Frame quiet s1 s2 → AtMostOne mod_id s2 s3 → AtMostOne mod_id s1 s3.
Proof.
  intros (Hs & evs & Ht & Hq & _) (Hs' & evs' & Ht' & Hd).
  split; [congruence|]. exists (evs ++ evs').
  split; [by rewrite Ht', Ht, app_assoc|].
  by rewrite downloads_app, (downloads_quiet evs Hq).
Qed.

Lemma AtMostOne_then_Frame (mod_id : string) (s1 s2 s3 : State) :
  AtMostOne mod_id s1 s2 → Frame quiet s2 s3 → AtMostOne mod_id s1 s3.
Proof.
  intros (Hs & evs & Ht & Hd) (Hs' & evs' & Ht' & Hq & _).
  split; [congruence|]. exists (evs ++ evs').
  split; [by rewrite Ht', Ht, app_assoc|].
  by rewrite downloads_app, (downloads_quiet evs' Hq), app_nil_r.
Qed.

(** A framed step followed by one that starts at most one download. *)
Lemma bind_frame_AtMostOne {A B} (mod_id : string) (m : M A) (k : A → M B) :
  framed quiet m → (∀ a s, AtMostOne mod_id s (k a s).1) →
  ∀ s, AtMostOne mod_id s (bind m k s).1.
Proof.
  intros Hm Hk s. unfold bind. specialize (Hm s).
  destruct (m s) as [s1 [a|e]]; cbn in *; [|by apply Frame_AtMostOne].
  eapply Frame_then_AtMostOne; [exact Hm|apply Hk].
Qed.

Lemma transfer_and_record_once (mod_id mod_name : string) (pt : option string)
    (file : File) (filename target_dir : string) (old : option string) (s : State) :
  AtMostOne mod_id s
    (transfer_and_record w mod_id mod_name pt file filename target_dir old s).1.
Proof.
  unfold transfer_and_record.
  apply bind_frame_AtMostOne; [apply framed_safe_print, quiet_basic|].
  clear s. intros _ s. unfold bind at 1. cbn [emit].
  set (s1 := mkState _ _ _ _ _ _).
  assert (AtMostOne mod_id s s1) as Hstart.
  { split; [done|]. eexists [_]. split; [done|]. by right. }
  eapply AtMostOne_then_Frame; [exact Hstart|].
  apply framed_bind; [apply framed_download_file; [apply quiet_basic|apply quiet_transfer]|].
  intros _. apply framed_bind.
  - apply framed_remove_old_file; [apply quiet_basic|apply quiet_transfer].
  - intros _. apply framed_record_index; [apply quiet_basic|apply quiet_save].
Qed.

Lemma install_once (mod_id mod_name : string) (pt : option string)
    (version : Version) (file : File) (s : State) :
  AtMostOne mod_id s (install w args mod_id mod_name pt version file s).1.
Proof.
  unfold install. revert s.
  apply bind_frame_AtMostOne; [apply framed_lift_res|]. intros target_dir.
  destruct (bool_decide (target_dir = "")).
  { intros s. apply Frame_AtMostOne. revert s.
    apply framed_bind; [apply framed_safe_print, quiet_basic|].
    intros; apply framed_ret. }
  apply bind_frame_AtMostOne; [apply framed_makedirs, quiet_basic|]. intros _.
  apply bind_frame_AtMostOne; [apply framed_load_index, quiet_basic|]. intros index.
  apply bind_frame_AtMostOne; [apply framed_fallback_gate, quiet_basic|].
  intros [|]; [intros s; apply Frame_AtMostOne, Frame_refl|].
  destruct (bool_decide (_ = Some mod_id)).
  { intros s. apply Frame_AtMostOne. revert s.
    apply framed_bind; [apply framed_safe_print, quiet_basic|]. intros _.
    apply framed_bind; [apply framed_log_event, quiet_basic|].
    intros; apply framed_ret. }
  intros s. unfold bind.
  pose proof (transfer_and_record_once mod_id mod_name pt file
                (normalize_filename (file_filename file)) target_dir
                (find_old_filename index mod_id
                   (normalize_filename (file_filename file))) s) as H.
  by destruct (transfer_and_record _ _ _ _ _ _ _ _ s) as [s1 [[]|e]].
Qed.

(** The part of [visit] after the project has entered the seen-set. *)
Lemma visit_AtMostOne (mod_id : string) (s : State) :
  AtMostOne mod_id (with_seen mod_id s) (visit w args mod_id s).1.
Proof.
  unfold visit. change (bind (add_seen mod_id) ?k s) with (k () (with_seen mod_id s)).
  generalize (with_seen mod_id s). clear s.
  apply bind_frame_AtMostOne; [apply framed_get_mod_details, quiet_basic|].
  intros mod_details.
  apply bind_frame_AtMostOne.
  { destruct mod_details; [apply framed_ret|apply framed_raise]. }
  intros pt.
  apply bind_frame_AtMostOne; [apply framed_get_latest_version, quiet_basic|].
  intros [version success]. cbn [fst snd].
  destruct (negb success).
  { intros s. apply Frame_AtMostOne. revert s.
    apply framed_bind; [apply framed_report_no_version, quiet_basic|].
    intros; apply framed_ret. }
  destruct version as [v|]; [|intros s; apply Frame_AtMostOne, Frame_refl].
  destruct (primary_file v) as [file|].
  - intros s. unfold bind.
    pose proof (install_once mod_id
                  match mod_details with Some d => default mod_id (title d)
                                    | None => mod_id end
                  (corrected_type (Some v) pt) v file s) as H.
    by destruct (install _ _ _ _ _ _ _ s) as [s1 [[]|e]].
  - intros s. apply Frame_AtMostOne. revert s.
    apply framed_bind; [apply framed_safe_print, quiet_basic|].
    intros; apply framed_ret.
Qed.

Lemma visit_seen (mod_id : string) (s : State) :
  seen_mods (visit w args mod_id s).1 = seen_mods s ∪ {[mod_id]}.
Proof. by destruct (visit_AtMostOne mod_id s) as [-> _]. Qed.

Lemma Once_refl (s : State) : Once s s.
Proof.
  split; [done|]. exists []. rewrite app_nil_r. split_and!; [done|constructor|].
  by intros x ?%elem_of_nil.
Qed.

Lemma Once_trans (s1 s2 s3 : State) : Once s1 s2 → Once s2 s3 → Once s1 s3.
Proof.
  intros (Hs & evs & Ht & Hnd & Hin) (Hs' & evs' & Ht' & Hnd' & Hin').
  split; [by etrans|]. exists (evs ++ evs').
  split_and!; [by rewrite Ht', Ht, app_assoc| |].
  - rewrite downloads_app. apply NoDup_app. split_and!; [done| |done].
    intros x Hx Hx'. destruct (Hin x Hx) as [H2 _], (Hin' x Hx') as [_ H2']. done.
  - intros x. rewrite downloads_app. intros [Hx|Hx]%elem_of_app.
    + destruct (Hin x Hx). split; [by apply Hs'|done].
    + destruct (Hin' x Hx) as [? Hn]. split; [done|]. intros ?. by apply Hn, Hs.
Qed.

Lemma visit_once (mod_id : string) (s : State) :
  mod_id ∉ seen_mods s → Once s (visit w args mod_id s).1.
Proof.
  intros Hnew. destruct (visit_AtMostOne mod_id s) as (Hs & evs & Ht & Hd).
  split; [rewrite Hs; cbn; set_solver|]. exists evs. split; [done|].
  destruct Hd as [-> | ->].
  - split; [constructor|]. by intros x ?%elem_of_nil.
  - split; [apply NoDup_singleton|]. intros x ->%list_elem_of_singleton.
    split; [rewrite Hs; cbn; set_solver|done].
Qed.

Lemma each_dependency_once (call : string → State → State * outcome)
    (deps : list Dependency) (s : State) :
  (∀ mod_id s, Once s (call mod_id s).1) → Once s (each_dependency call deps s).1.
Proof.
  intros Hcall. revert s. induction deps as [|dep deps IH]; intros s; cbn.
  - apply Once_refl.
  - destruct (String.eqb _ _); [|apply IH].
    specialize (Hcall (dep_project_id dep) s).
    destruct (call _ s) as [s1 [| |]]; cbn in *; [|done..].
    eapply Once_trans; [exact Hcall|apply IH].
Qed.

Lemma download_project_once (depth : nat) (mod_id : string) (s : State) :
  Once s (download_project depth w args mod_id s).1.
Proof.
  revert mod_id s. induction depth as [|depth IH]; intros mod_id s; cbn.
  - apply Once_refl.
  - case_bool_decide as Hseen; [apply Once_refl|].
    pose proof (visit_once mod_id s Hseen) as Hv.
    destruct (visit w args mod_id s) as [s1 [deps|e]]; cbn in *; [|done].
    eapply Once_trans; [exact Hv|]. by apply each_dependency_once.
Qed.


(** *** Termination *)









End Dedup.


(** ** Projects without versions *)

Section NoVersion.

Variables (w : World) (args : Args).

(** A project whose version list is missing or empty: the notice is printed,
    then [version.get] on None raises; nothing is logged. *)
Lemma visit_no_versions (mod_id : string) (s : State) (d : Details) :
  (get (details_of w mod_id) ("/v2/project/" +:+ mod_id)).2 = Ok (Some d) →
  (get (versions_of w mod_id) ("/v2/project/" +:+ mod_id +:+ "/version")).2 = Ok None
  ∨ (get (versions_of w mod_id) ("/v2/project/" +:+ mod_id +:+ "/version")).2
    = Ok (Some []) →
  let r := visit w args mod_id s in
  r.2 = Raise AttributeError
  ∧ trace r.1 =
      trace s ++ (get (details_of w mod_id) ("/v2/project/" +:+ mod_id)).1
        ++ (get (versions_of w mod_id) ("/v2/project/" +:+ mod_id +:+ "/version")).1
        ++ [EvPrint (msg_notice (default mod_id (title d)) mod_id)].
Proof.
  intros Hd Hv. unfold visit.
  change (bind (add_seen mod_id) ?k s) with (k () (with_seen mod_id s)).
  unfold bind at 1. unfold get_mod_details, run_client.
  destruct (get (details_of w mod_id) _) as [evs1 r1]. cbn [fst snd] in *. subst r1.
  unfold bind at 1. cbn [ret].
  unfold bind at 1. unfold get_latest_version.
  unfold bind at 1. unfold get_mod_version, run_client.
  destruct (get (versions_of w mod_id) _) as [evs2 r2]. cbn [fst snd] in *.
  destruct Hv as [-> | ->]; cbn; by rewrite <- !app_assoc.
Qed.

End NoVersion.

(** C3 fails on the code.  Project B has an empty version list and is a
    required dependency of A, listed before C; the version list of D cannot
    be fetched.  [download_project] on B and on D raises AttributeError;
    called on A it downloads A, raises in B's branch and so never reaches C;
    no "no_version" event is logged. *)
Theorem download_project_no_versions_raises :
  let rB := download_project 5 no_version_world args0 "B" empty_state in
  let rD := download_project 5 no_version_world args0 "D" empty_state in
  let rA := download_project 5 no_version_world args0 "A" empty_state in
  rB.2 = Raised AttributeError
  ∧ logs "no_version" (trace rB.1) = []
  ∧ printed (trace rB.1) = ["[⚠️ NOTICE] No versions found for 'Mod B' (ID: B)."]
  ∧ rD.2 = Raised AttributeError
  ∧ logs "no_version" (trace rD.1) = []
  ∧ attempts_made (trace rD.1) = 6
  ∧ rA.2 = Raised AttributeError
  ∧ logs "no_version" (trace rA.1) = []
  ∧ downloads (trace rA.1) = ["A"]
  ∧ bool_decide ("C" ∈ seen_mods rA.1) = false.
Proof. vm_compute. by split_and!. Qed.

(** ** Project types without a category *)

Section UnknownType.

Variables (w : World) (args : Args).

Lemma app_s_nonempty (t : string) : t +:+ "s" ≠ "".
Proof. by destruct t. Qed.

Lemma path_join_nonempty (a b : string) : b ≠ "" → path_join a b ≠ "".
Proof.
  intros Hb. unfold path_join. destruct (starts_with_slash b); [done|].
  destruct (_ || _).
  - destruct a; [done|]. done.
  - by destruct a.
Qed.

(** [resolve_target_directory] never returns an empty path, so the guard
    [if not target_dir] of [download_project] never fires. *)
Lemma resolve_target_directory_nonempty (pt : option string) (dir : string) :
  resolve_target_directory w pt = Ok dir → dir ≠ "".
Proof.
  destruct pt as [t|]; cbn; [|done]. intros [= <-].
  apply path_join_nonempty, app_s_nonempty.
Qed.

(** A project type without an index: the directory is created, then
    [load_index] raises ValueError; the skip message is not printed. *)
Lemma install_unknown_type (mod_id mod_name t : string) (version : Version)
    (file : File) (s : State) :
  INDEX_FILES (Some t) = None →
  ∃ dir, resolve_target_directory w (Some t) = Ok dir
         ∧ install w args mod_id mod_name (Some t) version file s
           = ((makedirs dir s).1, Raise ValueError).
Proof.
  intros Hidx.
  destruct (resolve_target_directory w (Some t)) as [dir|] eqn:Hdir; [|done].
  exists dir. split; [done|]. unfold install. rewrite Hdir.
  unfold bind at 1. cbn [lift_res].
  rewrite bool_decide_false by (by eapply resolve_target_directory_nonempty).
  unfold bind at 1. cbn [makedirs]. unfold bind at 1, load_index. by rewrite Hidx.
Qed.

End UnknownType.

(** C8 fails on the code.  Project M has the type "modpack", which is not
    a content category.  [download_project] creates the directory
    /home/modpacks and then raises the ValueError of [load_index]; the skip
    is neither printed nor logged. *)
Theorem download_project_unknown_type_raises :
  let r := download_project 5 modpack_world args0 "M" empty_state in
  r.2 = Raised ValueError
  ∧ made_dirs (trace r.1) = ["/home/modpacks"]
  ∧ bool_decide ("/home/modpacks" ∈ fs_dirs r.1) = true
  ∧ printed (trace r.1) = []
  ∧ logs "skipped" (trace r.1) = [].
Proof. vm_compute. by split_and!. Qed.

(** ** A project that resolves *)

Section Resolved.

Variables (w : World) (args : Args).

Lemma max_key_from_elem {A} (key : A → option tuple) (best : A)
    (kbest : option tuple) (l : list A) (m : A) :
  max_key_from key best kbest l = Ok m → m ∈ best :: l.
Proof.
  revert best kbest. induction l as [|x l IH]; intros best kbest; cbn.
  - intros [= ->]. by left.
  - destruct (key x), kbest; [|done..]. destruct (tuple_lt _ _); intros Hm.
    + right. by eapply IH.
    + apply IH in Hm. apply elem_of_cons in Hm as [->|Hm]; [by left|by do 2 right].
Qed.

Lemma max_key_elem {A} (key : A → option tuple) (l : list A) (m : A) :
  max_key key l = Ok m → m ∈ l.
Proof. destruct l as [|x l]; [done|]. apply max_key_from_elem. Qed.

(** A version selected as a match is compatible. *)
Lemma select_version_match (versions : list Version) (target : tuple)
    (loader : option string) (fallback : option tuple) (pt : option string)
    (v : Version) :
  select_version versions target loader fallback pt = Ok (Some v, true) →
  v ∈ versions ∧ is_compatible v loader fallback target pt = Ok true.
Proof.
  unfold select_version.
  destruct (filter_res _ versions) as [compatible|] eqn:Hc; cbn; [|done].
  pose proof (filter_res_Ok _ _ _ Hc) as Hin.
  destruct compatible as [|c compatible].
  { destruct (filter _ versions); [done|]. by destruct (max_key _ _). }
  destruct (List.find _ _) as [exact|] eqn:Hfind.
  - intros [= <-]. apply find_some in Hfind as [Hfind _].
    by apply list_elem_of_In, Hin in Hfind.
  - destruct (max_key _ _) as [m|] eqn:Hm; cbn; [|done]. intros [= <-].
    by apply max_key_elem, Hin in Hm.
Qed.

Lemma is_compatible_gv (v : Version) (loader : option string)
    (fallback : option tuple) (target : tuple) (pt : option string) :
  is_compatible v loader fallback target pt = Ok true →
  is_Some (gv v target) ∧ parsed_game_versions v ≠ [].
Proof.
  intros Hc. destruct fallback as [fb|].
  - destruct (is_compatible_window _ _ _ _ _ Hc) as (g & Hg & Hwin).
    apply andb_true_iff in Hwin as [_ Hle]. split; [by eapply gv_is_Some|].
    unfold parsed_game_versions. intros Hnil. apply fmap_nil_inv in Hnil.
    rewrite Hnil in Hg. by apply elem_of_nil in Hg.
  - unfold is_compatible, version_ok in Hc. by destruct (parsed_game_versions v).
Qed.

Lemma py_max_nonempty (l : list tuple) : l ≠ [] → ∃ t, py_max l = Ok t.
Proof. destruct l; [done|]. by eexists. Qed.

(** Up to [install], a project that resolves only enters the seen-set and
    has its two endpoints read. *)
Lemma visit_resolved (mod_id : string) (d : Details) (v : Version) (file : File)
    (s : State) :
  resolves w args mod_id d v file →
  visit w args mod_id s =
    let r := install w args mod_id (default mod_id (title d))
               (corrected_type (Some v) (project_type d)) v file
               (fetched w mod_id s) in
    (r.1, match r.2 with
          | Ok recurse => Ok (if recurse : bool then dependencies v else [])
          | Raise e => Raise e
          end).
Proof.
  intros (Hd & (versions & Hv & Hne & Hsel) & Hfile). unfold visit, fetched.
  change (bind (add_seen mod_id) ?k s) with (k () (with_seen mod_id s)).
  pose proof (get_retrieved (details_of w mod_id) ("/v2/project/" +:+ mod_id)) as Hr1.
  pose proof (get_retrieved (versions_of w mod_id)
                ("/v2/project/" +:+ mod_id +:+ "/version")) as Hr2.
  unfold bind at 1. unfold get_mod_details, run_client.
  destruct (get (details_of w mod_id) _) as [evs1 r1]. cbn [fst snd] in *. subst r1.
  unfold bind at 1. cbn [ret].
  unfold bind at 1. unfold get_latest_version.
  unfold bind at 1. unfold get_mod_version, run_client.
  destruct (get (versions_of w mod_id) _) as [evs2 r2]. cbn [fst snd] in *. subst r2.
  destruct versions as [|v0 versions]; [done|].
  unfold lift_res. rewrite Hsel. cbn [fst snd negb with_seen seen_mods index_files
    fs_files fs_dirs prompts trace].
  rewrite Hfile, Hr1, Hr2, !(right_id_L ∅ (∪)), <- app_assoc.
  unfold bind. by destruct (install _ _ _ _ _ _ _ _) as [s3 [b|e]].
Qed.

End Resolved.

(** ** The fallback gate and the already-present check *)

Section Gate.

Variables (w : World) (args : Args).

Lemma load_index_eq (pt : option string) (index_file : string) (s : State) :
  INDEX_FILES pt = Some index_file →
  load_index pt s = (add_events (load_events s index_file) s, Ok (stored s index_file)).
Proof.
  intros Hidx. unfold load_index, load_events, stored, add_events. rewrite Hidx.
  destruct (index_files s !! index_path index_file); [done|].
  destruct s. cbn. by rewrite app_nil_r.
Qed.

Lemma INDEX_FILES_Some (pt : option string) (index_file : string) :
  INDEX_FILES pt = Some index_file → ∃ dir, resolve_target_directory w pt = Ok dir ∧ dir ≠ "".
Proof.
  destruct pt as [t|]; [|done]. intros _. eexists. split; [done|].
  apply path_join_nonempty, app_s_nonempty.
Qed.


Lemma transfer_and_record_extends (mod_id mod_name : string) (pt : option string)
    (file : File) (filename target_dir : string) (old : option string) (s : State) :
  ∃ evs, trace (transfer_and_record w mod_id mod_name pt file filename target_dir
                  old s).1 = trace s ++ evs.
Proof.
  destruct (transfer_and_record_once w mod_id mod_name pt file filename target_dir
              old s) as (_ & evs & Ht & _). by exists evs.
Qed.

(** The version does not list the target and the index does not map the
    candidate filename to the project: the operator is asked, and until
    then nothing has happened but console output, GET requests, directory
    creation and index reads.  An answer other than yes ends the branch
    with the failure printed and logged; no file and no index has changed. *)
Lemma install_gate (mod_id mod_name : string) (pt : option string)
    (v : Version) (file : File) (index_file : string) (s : State) :
  INDEX_FILES pt = Some index_file →
  is_Some (gv v (arg_version args)) → parsed_game_versions v ≠ [] →
  tuple_in (arg_version args) (parsed_game_versions v) = false →
  dict_get (normalize_filename (file_filename file)) (stored s index_file)
    ≠ Some mod_id →
  let r := install w args mod_id mod_name pt v file s in
  let reply := operator w (prompts s) in
  (∃ pre prompt post,
     trace r.1 = trace s ++ pre ++ EvPrompt prompt reply :: post
     ∧ Forall (fun e => basic_event e = true) pre
     ∧ (says_yes reply = false →
        ∃ msg, post = [EvPrint msg; EvLog "no_version" msg]))
  ∧ (says_yes reply = false →
     r.2 = Ok false ∧ seen_mods r.1 = seen_mods s
     ∧ index_files r.1 = index_files s ∧ fs_files r.1 = fs_files s).
Proof.
  intros Hidx [g Hg] Hgvs Htarget Hget r reply.
  destruct (INDEX_FILES_Some _ _ Hidx) as (dir & Hdir & Hne).
  destruct (py_max_nonempty _ Hgvs) as [closest Hmax].
  assert (Forall (fun e => basic_event e = true)
            (EvMakedirs dir :: load_events s index_file)) as Hpre.
  { constructor; [done|]. unfold load_events. destruct (_ !! _); by repeat constructor. }
  subst r. destruct (install _ _ _ _ _ _ _ _) as [s' res] eqn:E.
  unfold install in E. rewrite Hdir in E. unfold bind at 1 in E. cbn [lift_res] in E.
  rewrite bool_decide_false in E by done.
  unfold bind at 1 in E. cbn [makedirs] in E. unfold bind at 1 in E.
  rewrite (load_index_eq _ _ _ Hidx) in E. unfold stored, load_events in E.
  cbn [index_files] in E.
  fold (stored s index_file) in E. fold (load_events s index_file) in E.
  unfold bind at 1 in E. unfold fallback_gate at 1 in E. rewrite Htarget in E.
  rewrite (bool_decide_false (_ = Some mod_id)) in E by done. cbn [negb andb] in E.
  unfold bind at 1 in E. unfold should_use_fallback at 1 in E. rewrite Hg in E.
  unfold bind at 1 in E.
  cbn [safe_input add_events prompts trace seen_mods index_files fs_files fs_dirs ret]
    in E.
  fold reply in E. destruct (says_yes reply) eqn:Hyes.
  - cbn [ret] in E. unfold bind at 1 in E.
    match type of E with context [transfer_and_record ?a ?b ?c ?d ?e ?f ?g ?h ?st] =>
      destruct (transfer_and_record_extends b c d e f g h st) as [evs Hevs];
      destruct (transfer_and_record a b c d e f g h st) as [s3 [[]|err]]
    end; cbn in E; injection E as <- <-; cbn [fst snd] in *.
    all: split; [|done].
    all: exists (EvMakedirs dir :: load_events s index_file); eexists; exists evs.
    all: split_and!; [|done|done].
    all: rewrite Hevs; cbn [trace]; by rewrite <- !app_assoc.
  - unfold bind at 1 in E. rewrite Hmax in E. cbn in E. injection E as <- <-.
    cbn [fst snd seen_mods index_files fs_files trace].
    split; [|done].
    exists (EvMakedirs dir :: load_events s index_file). do 2 eexists.
    split_and!; [|done|intros _; by eexists].
    by rewrite <- !app_assoc.
Qed.

End Gate.

Section Branches.

Variables (w : World) (args : Args).

Lemma each_dependency_extends (call : string → State → State * outcome)
    (deps : list Dependency) (s : State) :
  (∀ mod_id s, Once s (call mod_id s).1) →
  ∃ evs, trace (each_dependency call deps s).1 = trace s ++ evs.
Proof.
  intros Hcall.
  destruct (each_dependency_once call deps s Hcall) as (_ & evs & Ht & _).
  by exists evs.
Qed.

Lemma resolves_gv (mod_id : string) (d : Details) (v : Version) (file : File) :
  resolves w args mod_id d v file →
  is_Some (gv v (arg_version args)) ∧ parsed_game_versions v ≠ [].
Proof.
  intros (_ & (versions & _ & _ & Hsel) & _).
  apply select_version_match in Hsel as [_ Hc]. by eapply is_compatible_gv.
Qed.



Lemma logs_app (log_type : string) (evs1 evs2 : list Event) :
  logs log_type (evs1 ++ evs2) = logs log_type evs1 ++ logs log_type evs2.
Proof.
  induction evs1 as [|e evs1 IH]; [done|]. destruct e; cbn; rewrite ?IH; try done.
  by destruct (String.eqb _ _).
Qed.



End Branches.

(** C4.  A project resolves to a version that does not list the target,
    its type has an index, and the index does not map the candidate filename
    to the project.  Then [download_project] asks the operator, and before
    that it has done nothing but console output, GET requests, directory
    creation and index reads.  When the answer is not yes the call returns
    after printing and logging the failure under "no_version", and the index
    files and the files on disk are what they were. *)
Theorem fallback_declined_no_mutation (w : World) (args : Args) (depth : nat)
    (mod_id : string) (s : State) (d : Details) (v : Version) (file : File)
    (index_file : string) :
  mod_id ∉ seen_mods s →
  resolves w args mod_id d v file →
  INDEX_FILES (corrected_type (Some v) (project_type d)) = Some index_file →
  tuple_in (arg_version args) (parsed_game_versions v) = false →
  dict_get (normalize_filename (file_filename file)) (stored s index_file)
    ≠ Some mod_id →
  let r := download_project (S depth) w args mod_id s in
  let reply := operator w (prompts s) in
  (∃ pre prompt post,
     trace r.1 = trace s ++ pre ++ EvPrompt prompt reply :: post
     ∧ Forall (fun e => basic_event e = true) pre
     ∧ (says_yes reply = false →
        ∃ msg, post = [EvPrint msg; EvLog "no_version" msg]))
  ∧ (says_yes reply = false →
     r.2 = Returned ∧ index_files r.1 = index_files s ∧ fs_files r.1 = fs_files s).
Proof.
  intros Hnew Hres Hidx Htarget Hget r reply. subst r.
  destruct (resolves_gv w args mod_id d v file Hres) as [Hgv Hgvs].
  cbn [download_project]. rewrite bool_decide_false by done.
  rewrite (visit_resolved w args mod_id d v file s Hres). cbn zeta.
  pose proof (install_gate w args mod_id (default mod_id (title d))
                (corrected_type (Some v) (project_type d)) v file index_file
                (fetched w mod_id s) Hidx Hgv Hgvs Htarget Hget) as Hinst.
  cbn zeta in Hinst. cbn [fetched prompts] in Hinst. fold reply in Hinst.
  destruct (install _ _ _ _ _ _ _ _) as [s' res]. cbn [fst snd] in *.
  destruct Hinst as [(pre & prompt & post & Ht & Hpre & Hpost) Hdeclined].
  assert (Forall (fun e => basic_event e = true)
            ((get (details_of w mod_id) ("/v2/project/" +:+ mod_id)).1
               ++ (get (versions_of w mod_id)
                       ("/v2/project/" +:+ mod_id +:+ "/version")).1 ++ pre)) as Hbasic.
  { apply Forall_app. split; [apply get_events_basic|].
    apply Forall_app. split; [apply get_events_basic|done]. }
  set (fetch := (get (details_of w mod_id) ("/v2/project/" +:+ mod_id)).1
                  ++ (get (versions_of w mod_id)
                          ("/v2/project/" +:+ mod_id +:+ "/version")).1 ++ pre) in *.
  assert (trace s' = trace s ++ fetch ++ EvPrompt prompt reply :: post) as Ht'.
  { rewrite Ht. unfold fetch, fetched. cbn [trace]. by rewrite <- !app_assoc. }
  destruct (says_yes reply) eqn:Hyes.
  - split; [|done]. destruct res as [recurse|e]; cbn [fst snd].
    + destruct (each_dependency_extends (download_project depth w args)
                  (if recurse then dependencies v else []) s'
                  (download_project_once w args depth)) as [evs Hevs].
      destruct (each_dependency _ _ s') as [s'' o]. cbn [fst] in *.
      exists fetch, prompt, (post ++ evs). split_and!; [|exact Hbasic|done].
      rewrite Hevs, Ht'. by rewrite <- !app_assoc, <- app_comm_cons.
    + exists fetch, prompt, post. by split_and!.
  - destruct (Hdeclined eq_refl) as (-> & _ & Hi & Hf). cbn [each_dependency fst snd].
    split; [|done]. exists fetch, prompt, post. by split_and!.
Qed.



(** ** The index as a dict *)

Section Dict.

Implicit Types (index : Index) (key value : string).

Lemma dict_get_elem key value index :
  dict_get key index = Some value → (key, value) ∈ index.
Proof.
  induction index as [|[k v] index IH]; cbn; [done|].
  destruct (String.eqb_spec k key) as [->|Hne].
  - intros [= ->]. by left.
  - intros H. right. by apply IH.
Qed.

Lemma dict_pop_elem key index k v :
  dict_wf index → (k, v) ∈ dict_pop key index ↔ (k, v) ∈ index ∧ k ≠ key.
Proof.
  unfold dict_wf. induction index as [|[k0 v0] index IH]; cbn; intros Hwf.
  - split; [by intros ?%elem_of_nil|by intros [?%elem_of_nil _]].
  - apply NoDup_cons in Hwf as [Hk0 Hwf].
    destruct (String.eqb_spec k0 key) as [->|Hne].
    + rewrite elem_of_cons. split.
      * intros Hin. split; [by right|]. intros ->. apply Hk0.
        apply list_elem_of_fmap. by exists (key, v).
      * intros [[[= -> ->]|Hin] Hk]; done.
    + rewrite !elem_of_cons, (IH Hwf). split.
      * intros [[= -> ->]|[Hin Hk]]; (split; [|done]); [by left|by right].
      * intros [[[= -> ->]|Hin] Hk]; [by left|by right].
Qed.

Lemma dict_pop_keys key index k : k ∈ (dict_pop key index).*1 → k ∈ index.*1.
Proof.
  induction index as [|[k0 v0] index IH]; cbn; [done|].
  destruct (String.eqb k0 key); cbn; rewrite !elem_of_cons; [by right|].
  intros [->|H]; [by left|right; by apply IH].
Qed.

Lemma dict_pop_wf key index : dict_wf index → dict_wf (dict_pop key index).
Proof.
  unfold dict_wf. induction index as [|[k0 v0] index IH]; cbn; [done|].
  intros [Hk0 Hwf]%NoDup_cons. destruct (String.eqb k0 key); [done|].
  cbn. apply NoDup_cons. split; [|by apply IH].
  intros Hin. by apply Hk0, (dict_pop_keys key).
Qed.

Lemma dict_set_keys key value index k :
  k ∈ (dict_set key value index).*1 ↔ k = key ∨ k ∈ index.*1.
Proof.
  induction index as [|[k0 v0] index IH]; cbn.
  - rewrite list_elem_of_singleton. split; [by left|]. intros [?|?%elem_of_nil]; done.
  - destruct (String.eqb_spec k0 key) as [->|Hne]; cbn; rewrite !elem_of_cons.
    + split; [intros [?|?]; [by left|by do 2 right]|intros [?|[?|?]]; auto].
    + rewrite IH. split; [intros [?|[?|?]]; auto|intros [?|[?|?]]; auto].
Qed.

Lemma dict_set_wf key value index : dict_wf index → dict_wf (dict_set key value index).
Proof.
  unfold dict_wf. induction index as [|[k0 v0] index IH]; cbn.
  - intros _. apply NoDup_singleton.
  - intros [Hk0 Hwf]%NoDup_cons. destruct (String.eqb_spec k0 key) as [->|Hne]; cbn.
    + by apply NoDup_cons.
    + apply NoDup_cons. split; [|by apply IH].
      rewrite dict_set_keys. by intros [?|?].
Qed.

Lemma dict_set_elem key value index k v :
  dict_wf index →
  (k, v) ∈ dict_set key value index ↔
    (k = key ∧ v = value) ∨ ((k, v) ∈ index ∧ k ≠ key).
Proof.
  unfold dict_wf. induction index as [|[k0 v0] index IH]; cbn; intros Hwf.
  - rewrite list_elem_of_singleton. split.
    + intros [= -> ->]. by left.
    + intros [[-> ->]|[?%elem_of_nil _]]; done.
  - apply NoDup_cons in Hwf as [Hk0 Hwf].
    destruct (String.eqb_spec k0 key) as [->|Hne]; rewrite !elem_of_cons.
    + split.
      * intros [[= -> ->]|Hin]; [by left|]. right. split; [by right|].
        intros ->. apply Hk0. apply list_elem_of_fmap. by exists (key, v).
      * intros [[-> ->]|[[[= -> ->]|Hin] Hk]]; [by left|done|by right].
    + rewrite (IH Hwf). split.
      * intros [[= -> ->]|[[-> ->]|[Hin Hk]]]; [right|by left|right].
        -- split; [by left|done].
        -- split; [by right|done].
      * intros [[-> ->]|[[[= -> ->]|Hin] Hk]]; [right; by left|by left|].
        right. right. done.
Qed.




End Dict.

(** ** The index invariant *)

Section Invariant.

Variables (w : World) (args : Args).






















End Invariant.



(* ===================================================================== *)
(** * Instances of the theorems on the sample worlds *)
(* ===================================================================== *)

(** C10 at 'rc1.beta', at the window [1.21.4, 1.21.8] and at a version whose
    only game-version entry is 'snapshot'. *)
Lemma parse_version_numeric_segments_witness :
  parse_version "rc1.beta" = []
  ∧ parse_version "21" = [21%N]
  ∧ in_window [1; 21; 4]%N [1; 21; 8]%N [] = false
  ∧ is_compatible (mkVersion ["snapshot"] ["fabric"] [] []) (Some "fabric")
      (Some [1; 21; 4]%N) [1; 21; 8]%N (Some "mod") = Ok false.
Proof.
  destruct parse_version_numeric_segments
    as (_ & _ & _ & Hnum & Hnone & _ & Hwin & _ & Hcompat).
  split_and!.
  - apply Hnone. vm_compute. by repeat constructor.
  - apply (Hnum "21"). reflexivity.
  - apply Hwin. discriminate.
  - apply Hcompat; [discriminate|]. vm_compute. by repeat constructor.
Defined.

(** C2 at a mod whose only version is for forge while fabric is asked for:
    no version is compatible, and the version is returned as a non-match. *)
Lemma get_latest_version_never_null_witness :
  (get (versions_of forge_world "G") ("/v2/project/" +:+ "G" +:+ "/version")).2
    = Ok (Some [forge_version])
  ∧ (∃ v g, v ∈ [forge_version] ∧ g ∈ game_versions v
            ∧ tuple_le (parse_version g) [1; 21; 8]%N = true)
  ∧ (∀ v, v ∈ [forge_version] →
       is_compatible v (Some "fabric") (Some [1; 21; 4]%N) [1; 21; 8]%N (Some "mod")
       = Ok false)
  ∧ (get_latest_version forge_world "G" "Mod G" [1; 21; 8]%N (Some "fabric")
       (Some [1; 21; 4]%N) (Some "mod") empty_state).2
    = Ok (Some forge_version, false).
Proof.
  assert ((get (versions_of forge_world "G") ("/v2/project/" +:+ "G" +:+ "/version")).2
          = Ok (Some [forge_version])) as Hget by (vm_compute; reflexivity).
  assert (∃ v g, v ∈ [forge_version] ∧ g ∈ game_versions v
                 ∧ tuple_le (parse_version g) [1; 21; 8]%N = true) as Hsome.
  { exists forge_version, "1.21.7". split_and!; [by left|by left|reflexivity]. }
  assert (∀ v, v ∈ [forge_version] →
            is_compatible v (Some "fabric") (Some [1; 21; 4]%N) [1; 21; 8]%N
              (Some "mod") = Ok false) as Hnone.
  { intros v Hv. apply list_elem_of_singleton in Hv. subst v. reflexivity. }
  split_and!; [exact Hget|exact Hsome|exact Hnone|].
  destruct (get_latest_version_never_null forge_world "G" "Mod G" [1; 21; 8]%N
              (Some "fabric") (Some [1; 21; 4]%N) (Some "mod") empty_state
              [forge_version] Hget Hsome) as [_ Hbest].
  destruct (Hbest Hnone) as (best & g & Hr & Hin & _).
  apply list_elem_of_singleton in Hin. subst best. exact Hr.
Defined.




(** C4 at a mod whose only version is for 1.21.7 and an operator who
    answers ' N '. *)
Lemma fallback_declined_no_mutation_witness :
  let v := mkVersion ["1.21.7"] ["fabric"] [jar "f.jar"] [] in
  let r := download_project 2 (fallback_world " N ") args0 "F" empty_state in
  ("F" ∉ seen_mods empty_state)
  ∧ resolves (fallback_world " N ") args0 "F"
      (mkDetails (Some "Mod F") (Some "mod")) v (jar "f.jar")
  ∧ tuple_in (arg_version args0) (parsed_game_versions v) = false
  ∧ dict_get (normalize_filename "f.jar") (stored empty_state "mods_index.json")
    ≠ Some "F"
  ∧ says_yes " N " = false
  ∧ r.2 = Returned
  ∧ index_files r.1 = index_files empty_state
  ∧ fs_files r.1 = fs_files empty_state.
Proof.
  intros v r.
  assert ("F" ∉ seen_mods empty_state) as Hnew by apply not_elem_of_empty.
  assert (resolves (fallback_world " N ") args0 "F"
            (mkDetails (Some "Mod F") (Some "mod")) v (jar "f.jar")) as Hres.
  { split_and!; [vm_compute; reflexivity| |reflexivity].
    exists [v]. split_and!; [vm_compute; reflexivity|discriminate|reflexivity]. }
  assert (tuple_in (arg_version args0) (parsed_game_versions v) = false) as Htarget
    by reflexivity.
  assert (dict_get (normalize_filename "f.jar") (stored empty_state "mods_index.json")
          ≠ Some "F") as Hget by (vm_compute; discriminate).
  assert (says_yes " N " = false) as Hno by reflexivity.
  destruct (fallback_declined_no_mutation (fallback_world " N ") args0 1 "F"
              empty_state (mkDetails (Some "Mod F") (Some "mod")) v (jar "f.jar")
              "mods_index.json" Hnew Hres eq_refl Htarget Hget) as [_ Hdeclined].
  destruct (Hdeclined Hno) as (Hr & Hi & Hf).
  by split_and!.
Defined.



(* ===================================================================== *)
(** * Further properties of the client *)
(* ===================================================================== *)

(** X1.  [_retry_backoff] stays between 1 and 30 seconds, and for the
    attempts that the loop over [range(MAX_RETRIES)] makes it is the plain
    power of two: the cap of 30 seconds is first reached at attempt 5,
    which the loop never makes. *)
Theorem retry_backoff_in_loop (attempt : nat) :
  (1 ≤ _retry_backoff attempt ≤ 30)%Z
  ∧ _retry_backoff attempt
    = (if bool_decide (attempt < MAX_RETRIES)%nat then 2 ^ Z.of_nat attempt else 30)%Z.
Proof.
  unfold _retry_backoff, MAX_RETRIES.
  assert (0 < 2 ^ Z.of_nat attempt)%Z by (apply Z.pow_pos_nonneg; lia).
  split; [lia|].
  case_bool_decide as Hlt.
  - assert (attempt = 0 ∨ attempt = 1 ∨ attempt = 2 ∨ attempt = 3 ∨ attempt = 4)
      as [->|[->|[->|[->| ->]]]] by lia; reflexivity.
  - assert (2 ^ 5 ≤ 2 ^ Z.of_nat attempt)%Z by (apply Z.pow_le_mono_r; lia).
    change (2 ^ 5)%Z with 32%Z in *. lia.
Qed.

Section ClientRuns.

Context {A : Type}.
Implicit Types (net : nat → Attempt A) (url : string) (action : Action)
  (dest : option string).

Lemma printed_app (evs1 evs2 : list Event) :
  printed (evs1 ++ evs2) = printed evs1 ++ printed evs2.
Proof.
  induction evs1 as [|e evs1 IH]; [done|]. destruct e; cbn; by rewrite ?IH.
Qed.

Lemma sleeps_app (evs1 evs2 : list Event) :
  sleeps (evs1 ++ evs2) = sleeps evs1 ++ sleeps evs2.
Proof.
  induction evs1 as [|e evs1 IH]; [done|]. destruct e; cbn; by rewrite ?IH.
Qed.

(** A retryable attempt prints one message and stores nothing. *)
Lemma iteration_retryable_prints url action dest k (o : Attempt A) :
  retryable o → length (printed (iteration url action dest k o).1) = 1.
Proof.
  destruct o as [p|code ra|t reason|e]; cbn; [done| |done|done].
  intros [[-> Hra]| ->]; cbn; [|done].
  destruct Hra as [->|(n & -> & Hn)]; [done|].
  by destruct (Z.ltb_spec n 0); [lia|].
Qed.

Lemma iteration_success url action dest k (payload : A) :
  let r := iteration url action dest k (Success payload) in
  r.2 = IterReturn (payload_of action payload)
  ∧ attempts_made r.1 = 1 ∧ printed r.1 = [] ∧ last r.1 = Some EvSleepDelay.
Proof. by destruct action. Qed.

(** After [j] retryable attempts a success ends the loop. *)
Lemma retry_loop_recovers net url action dest (n k j : nat) (payload : A) :
  j < n → (∀ i, k ≤ i < k + j → retryable (net i)) →
  net (k + j) = Success payload →
  let r := retry_loop net url action dest n k in
  r.2 = Ok (payload_of action payload) ∧ attempts_made r.1 = S j
  ∧ length (printed r.1) = j ∧ last r.1 = Some EvSleepDelay.
Proof.
  revert n k. induction j as [|j IH]; intros n k Hj Hall Hnet.
  - destruct n as [|n]; [lia|]. cbn. rewrite Nat.add_0_r in Hnet. rewrite Hnet.
    destruct (iteration_success url action dest k payload) as (Hit & Hone & Hpr & Hlast).
    destruct (iteration url action dest k (Success payload)) as [evs it].
    cbn [fst snd] in *. subst it. cbn [fst snd]. by rewrite Hpr.
  - destruct n as [|n]; [lia|]. cbn.
    pose proof (iteration_attempts url action dest k (net k)) as Hone.
    pose proof (iteration_retryable url action dest k (net k)) as Hcont.
    pose proof (iteration_retryable_prints url action dest k (net k)) as Hpr.
    destruct (iteration url action dest k (net k)) as [evs it]. cbn [fst snd] in *.
    rewrite Hcont by (apply Hall; lia).
    destruct (IH n (S k)) as (Hr & Hn & Hp & Hlast);
      [lia|intros i Hi; apply Hall; lia|by rewrite <-Hnet; f_equal; lia|].
    destruct (retry_loop net url action dest n (S k)) as [evs' r].
    cbn [fst snd] in *. split_and!; [done| | |].
    + rewrite attempts_made_app. lia.
    + rewrite printed_app, length_app, Hpr by (apply Hall; lia). lia.
    + rewrite last_app, Hlast. done.
Qed.

Lemma iteration_escapes url action dest k (o : Attempt A) (e : Exn) :
  escapes o e →
  (iteration url action dest k o).2 = IterRaise e
  ∧ sleeps (iteration url action dest k o).1 = [].
Proof.
  destruct o as [p|code ra|t reason|e']; cbn; [done| |done|by intros ->].
  destruct ra as [|n|]; [done| |by intros [-> ->]].
  intros (-> & Hn & ->). cbn. by destruct (Z.ltb_spec n 0); [|lia].
Qed.

(** After [j] retryable attempts an exception that is not caught leaves
    the loop. *)
Lemma retry_loop_escapes net url action dest (n k j : nat) (e : Exn) :
  j < n → (∀ i, k ≤ i < k + j → retryable (net i)) →
  escapes (net (k + j)) e →
  let r := retry_loop net url action dest n k in
  r.2 = Raise e ∧ attempts_made r.1 = S j
  ∧ last r.1 ≠ Some (EvPrint (failed_msg url action)).
Proof.
  revert n k. induction j as [|j IH]; intros n k Hj Hall Hnet.
  - destruct n as [|n]; [lia|]. cbn. rewrite Nat.add_0_r in Hnet.
    pose proof (iteration_attempts url action dest k (net k)) as Hone.
    destruct (iteration_escapes url action dest k (net k) e Hnet) as [Hit Hsl].
    assert (last (iteration url action dest k (net k)).1
            ≠ Some (EvPrint (failed_msg url action))) as Hlast.
    { clear Hit Hsl Hone. destruct (net k) as [p|code ra|t reason|e']; cbn in *;
        [done| |done|done].
      destruct ra as [|n'|]; [done| |by destruct Hnet as [-> _]].
      destruct Hnet as (-> & Hn & _). cbn.
      destruct (Z.ltb_spec n' 0); [|lia]. cbn. by intros [=]. }
    destruct (iteration url action dest k (net k)) as [evs it].
    cbn [fst snd] in *. subst it. done.
  - destruct n as [|n]; [lia|]. cbn.
    pose proof (iteration_attempts url action dest k (net k)) as Hone.
    pose proof (iteration_retryable url action dest k (net k)) as Hcont.
    destruct (iteration url action dest k (net k)) as [evs it]. cbn [fst snd] in *.
    rewrite Hcont by (apply Hall; lia).
    destruct (IH n (S k)) as (Hr & Hn & Hlast);
      [lia|intros i Hi; apply Hall; lia|by replace (S k + j) with (k + S j) by lia|].
    destruct (retry_loop net url action dest n (S k)) as [evs' r].
    cbn [fst snd] in *. split_and!; [done| |].
    + rewrite attempts_made_app. lia.
    + rewrite last_app. destruct (last evs') as [e'|] eqn:Hl; [done|].
      apply last_None in Hl. subst evs'. cbn in Hn. done.
Qed.

Lemma iteration_backs_off url action dest k (o : Attempt A) :
  backs_off o →
  (iteration url action dest k o).2 = IterContinue
  ∧ sleeps (iteration url action dest k o).1 = [_retry_backoff k].
Proof.
  destruct o as [p|code ra|t reason|e]; cbn; [done| |done|done].
  by intros ->.
Qed.

(** While every attempt is answered by a URLError or HTTP 408, the pauses
    of the loop are the backoff delays of its attempts. *)
Lemma retry_loop_backoff net url action dest (n k : nat) :
  (∀ i, k ≤ i < k + n → backs_off (net i)) →
  sleeps (retry_loop net url action dest n k).1 = map _retry_backoff (seq k n).
Proof.
  revert k. induction n as [|n IH]; intros k Hall; cbn; [done|].
  destruct (iteration_backs_off url action dest k (net k)) as [Hit Hsl];
    [apply Hall; lia|].
  destruct (iteration url action dest k (net k)) as [evs it]. cbn [fst snd] in *.
  subst it. specialize (IH (S k)).
  destruct (retry_loop net url action dest n (S k)) as [evs' r]. cbn [fst snd] in *.
  rewrite sleeps_app, Hsl, IH by (intros i Hi; apply Hall; lia). done.
Qed.

Lemma iteration_attempt_event url action dest k (o : Attempt A) :
  List.filter is_attempt (iteration url action dest k o).1 = [EvAttempt action url k].
Proof.
  destruct o as [p|code ra|t reason|e]; cbn.
  - by destruct action.
  - destruct (code =? 429)%Z.
    + destruct ra as [|n|]; [done| |done]. by destruct (n <? 0)%Z.
    + by destruct (code =? 408)%Z.
  - done.
  - done.
Qed.

(** The attempts of the loop carry the numbers [k], [k + 1], ... *)
Lemma retry_loop_attempts net url action dest (n k : nat) :
  let evs := (retry_loop net url action dest n k).1 in
  List.filter is_attempt evs = map (EvAttempt action url) (seq k (attempts_made evs)).
Proof.
  revert k. induction n as [|n IH]; intros k; cbn; [done|].
  pose proof (iteration_attempt_event url action dest k (net k)) as Hev.
  destruct (iteration url action dest k (net k)) as [evs it]. cbn [fst snd] in *.
  specialize (IH (S k)).
  destruct it, (retry_loop net url action dest n (S k)) as [evs' res'];
    cbn [fst snd] in *; unfold attempts_made in *;
    rewrite ?List.filter_app, ?length_app, ?Hev; cbn; try done.
  by rewrite IH at 1.
Qed.

(** A transfer stores nothing but its destination. *)
Lemma iteration_retrieved url action (filename : string) k (o : Attempt A) :
  retrieved (iteration url action (Some filename) k o).1 ⊆ {[filename]}.
Proof.
  destruct o as [p|code ra|t reason|e]; cbn.
  - destruct action; cbn; set_solver.
  - destruct (code =? 429)%Z.
    + destruct ra as [|n|]; cbn; [set_solver| |set_solver].
      destruct (n <? 0)%Z; cbn; set_solver.
    + destruct (code =? 408)%Z; cbn; set_solver.
  - set_solver.
  - set_solver.
Qed.

Lemma retry_loop_retrieved net url action (filename : string) (n k : nat) :
  retrieved (retry_loop net url action (Some filename) n k).1 ⊆ {[filename]}.
Proof.
  revert k. induction n as [|n IH]; intros k; cbn; [set_solver|].
  pose proof (iteration_retrieved url action filename k (net k)) as Hev.
  destruct (iteration url action (Some filename) k (net k)) as [evs it].
  cbn [fst snd] in *. specialize (IH (S k)).
  destruct it, (retry_loop net url action (Some filename) n (S k)) as [evs' res'];
    cbn [fst snd] in *; rewrite ?retrieved_app; cbn; set_solver.
Qed.

End ClientRuns.

(** X2.  A request recovers from retryable failures: when the attempts
    before attempt [k] fail with retryable errors and attempt [k] (one of
    the five) succeeds, the request returns the payload of that attempt
    (None for a download), after exactly [k + 1] attempts numbered from 0
    and one console message per failed attempt; no failure report is
    printed, the trace ends with the pacing pause. *)
Theorem request_recovers {A} (net : nat → Attempt A) (url : string)
    (action : Action) (dest : option string) (k : nat) (payload : A) :
  k < MAX_RETRIES → (∀ i, i < k → retryable (net i)) → net k = Success payload →
  let r := _request_with_retries net url action dest in
  r.2 = Ok (payload_of action payload)
  ∧ attempts_made r.1 = S k
  ∧ length (printed r.1) = k
  ∧ last r.1 = Some EvSleepDelay.
Proof.
  intros Hk Hall Hnet. unfold _request_with_retries.
  apply (retry_loop_recovers net url action dest MAX_RETRIES 0 k payload);
    [done|intros i Hi; apply Hall; lia|done].
Qed.

Lemma request_recovers_witness :
  let net : nat → Attempt string :=
    fun k => if bool_decide (k < 2) then URLError true "timed out" else Success "body" in
  let r := _request_with_retries net "u" GET None in
  r.2 = Ok (Some "body") ∧ attempts_made r.1 = 3 ∧ length (printed r.1) = 2.
Proof.
  cbv zeta.
  destruct (request_recovers
              (fun k => if bool_decide (k < 2) then URLError true "timed out"
                        else Success "body") "u" GET None 2 "body")
    as (H1 & H2 & H3 & _).
  - unfold MAX_RETRIES. lia.
  - intros i Hi. rewrite bool_decide_true by done. exact I.
  - reflexivity.
  - exact (conj H1 (conj H2 H3)).
Defined.

(** X3.  An exception that the client does not catch leaves the request at
    once: when the attempts before attempt [k] fail with retryable errors
    and attempt [k] ends in an exception of another class, or in a 429
    answer whose Retry-After header is not an integer or is negative, the
    request raises that exception after [k + 1] attempts, without the
    failure report. *)
Theorem request_exception_escapes {A} (net : nat → Attempt A) (url : string)
    (action : Action) (dest : option string) (k : nat) (e : Exn) :
  k < MAX_RETRIES → (∀ i, i < k → retryable (net i)) → escapes (net k) e →
  let r := _request_with_retries net url action dest in
  r.2 = Raise e ∧ attempts_made r.1 = S k
  ∧ last r.1 ≠ Some (EvPrint (failed_msg url action)).
Proof.
  intros Hk Hall Hnet. unfold _request_with_retries.
  apply (retry_loop_escapes net url action dest MAX_RETRIES 0 k e);
    [done|intros i Hi; apply Hall; lia|done].
Qed.

Lemma request_exception_escapes_witness :
  let net : nat → Attempt string :=
    fun k => if bool_decide (k < 1) then HTTPError 408 NoHeader
             else HTTPError 429 NotAnInteger in
  let r := _request_with_retries net "u" GET None in
  r.2 = Raise ValueError ∧ attempts_made r.1 = 2.
Proof.
  cbv zeta.
  destruct (request_exception_escapes
              (fun k => if bool_decide (k < 1) then HTTPError 408 NoHeader
                        else HTTPError (A:=string) 429 NotAnInteger)
              "u" GET None 1 ValueError)
    as (H1 & H2 & _).
  - unfold MAX_RETRIES. lia.
  - intros i Hi. rewrite bool_decide_true by done. right. reflexivity.
  - split; reflexivity.
  - exact (conj H1 H2).
Defined.

(** X4.  A request whose five attempts are all answered by a URLError or
    by HTTP 408 pauses 1, 2, 4, 8 and 16 seconds between them, 31 seconds
    in all, whatever the action. *)
Theorem request_backoff_schedule {A} (net : nat → Attempt A) (url : string)
    (action : Action) (dest : option string) :
  (∀ k, k < MAX_RETRIES → backs_off (net k)) →
  sleeps (_request_with_retries net url action dest).1 = [1; 2; 4; 8; 16]%Z.
Proof.
  intros Hall. unfold _request_with_retries.
  rewrite retry_loop_backoff by (intros i Hi; apply Hall; lia). reflexivity.
Qed.

Lemma request_backoff_schedule_witness :
  sleeps (_request_with_retries (A:=()) timing_out "u" DOWNLOAD (Some "f")).1
  = [1; 2; 4; 8; 16]%Z.
Proof.
  apply (request_backoff_schedule (A:=()) timing_out "u" DOWNLOAD (Some "f")).
  intros k _. exact I.
Defined.

(** X5.  Whatever the network answers, the attempts of a request are
    numbered 0, 1, 2, ... without a gap, and all go to the url and with
    the action of the request. *)
Theorem request_attempts_numbered {A} (net : nat → Attempt A) (url : string)
    (action : Action) (dest : option string) :
  let evs := (_request_with_retries net url action dest).1 in
  List.filter is_attempt evs = map (EvAttempt action url) (seq 0 (attempts_made evs)).
Proof. apply retry_loop_attempts. Qed.

(** X6.  [download_file] writes no file but its destination, and keeps the
    files that exist, the directories, the index files and the seen-set;
    a GET request writes no file at all. *)
Theorem download_file_writes_destination_only (w : World) (url filename : string)
    (s : State) :
  let s' := (modrinth_download_file w url filename s).1 in
  fs_files s ⊆ fs_files s' ∧ fs_files s' ⊆ fs_files s ∪ {[filename]}
  ∧ fs_dirs s' = fs_dirs s ∧ index_files s' = index_files s
  ∧ seen_mods s' = seen_mods s
  ∧ ∀ mod_id,
      fs_files (get_mod_details w mod_id s).1 = fs_files s
      ∧ fs_files (get_mod_version w mod_id s).1 = fs_files s.
Proof.
  cbn. unfold download_file, _request_with_retries.
  pose proof (retry_loop_retrieved (file_net w url) url DOWNLOAD filename MAX_RETRIES 0)
    as Hsub.
  destruct (retry_loop (file_net w url) url DOWNLOAD (Some filename) MAX_RETRIES 0)
    as [evs r]. cbn [fst snd] in *.
  split_and!; [set_solver|set_solver|done|done|done|].
  intros mod_id. rewrite !get_retrieved. set_solver.
Qed.

(* ===================================================================== *)
(** * Further properties of the resolver *)
(* ===================================================================== *)

Section ResolverChoice.

Implicit Types (v : Version) (versions : list Version) (target : tuple)
  (loader : option string) (fallback : option tuple) (pt : option string).

Lemma str_in_spec (x : string) (xs : list string) : str_in x xs = true ↔ x ∈ xs.
Proof.
  unfold str_in. rewrite existsb_exists. split.
  - intros (y & Hy & ->%String.eqb_eq). by apply list_elem_of_In.
  - intros Hx. exists x. split; [by apply list_elem_of_In|apply String.eqb_refl].
Qed.

Lemma tuple_in_spec (t : tuple) (ts : list tuple) : tuple_in t ts = true ↔ t ∈ ts.
Proof.
  unfold tuple_in, tuple_eqb. rewrite existsb_exists. split.
  - intros (y & Hy & Heq). apply bool_decide_eq_true in Heq as ->.
    by apply list_elem_of_In.
  - intros Hx. exists t. split; [by apply list_elem_of_In|by apply bool_decide_eq_true].
Qed.

Lemma max_key_upper {A} (key : A → option tuple) (l : list A) (m : A) :
  (∀ x, x ∈ l → is_Some (key x)) → max_key key l = Ok m →
  ∃ km, key m = Some km ∧ ∀ x kx, x ∈ l → key x = Some kx → tuple_le kx km = true.
Proof.
  intros Hall Hm.
  destruct (max_key_spec key l) as (m' & km & Hm' & _ & Hkm & Hup); [|done|].
  { intros ->. done. }
  rewrite Hm in Hm'. injection Hm' as <-. by exists km.
Qed.

Lemma filter_res_raises {A} (p : A → res bool) (l : list A) (e : Exn) :
  (∀ x, x ∈ l → p x = Ok false ∨ p x = Raise e) →
  (∃ x, x ∈ l ∧ p x = Raise e) →
  filter_res p l = Raise e.
Proof.
  induction l as [|y l IH]; intros Hall (x & Hx & Hp); [by apply elem_of_nil in Hx|].
  cbn. destruct (Hall y) as [Hy|Hy]; [by left| |by rewrite Hy].
  rewrite Hy. cbn. rewrite IH; [done| |].
  - intros z Hz. apply Hall. by right.
  - apply elem_of_cons in Hx as [->|Hx]; [congruence|by exists x].
Qed.

Lemma is_compatible_without_floor v loader target pt :
  is_compatible v loader None target pt
  = if bool_decide (game_versions v = []) then Ok false else Raise TypeError.
Proof.
  unfold is_compatible, version_ok, parsed_game_versions.
  by destruct (game_versions v).
Qed.

End ResolverChoice.

(** X7.  A version that [get_latest_version] selects as a match is one of
    the fetched versions and is compatible; it lists the target version
    whenever some compatible version does, and otherwise its highest
    supported game version is at least that of every compatible version. *)
Theorem select_version_prefers_exact (versions : list Version) (target : tuple)
    (loader : option string) (fallback : option tuple) (pt : option string)
    (v : Version) :
  select_version versions target loader fallback pt = Ok (Some v, true) →
  v ∈ versions
  ∧ is_compatible v loader fallback target pt = Ok true
  ∧ (lists_target target v = true
     ∨ (∀ v', v' ∈ versions →
              is_compatible v' loader fallback target pt = Ok true →
              lists_target target v' = false)
       ∧ ∃ g, gv v target = Some g
              ∧ ∀ v' g', v' ∈ versions →
                         is_compatible v' loader fallback target pt = Ok true →
                         gv v' target = Some g' → tuple_le g' g = true).
Proof.
  intros Hsel. destruct (select_version_match _ _ _ _ _ _ Hsel) as [Hv Hcv].
  split_and!; [done..|]. revert Hsel. unfold select_version.
  destruct (filter_res _ versions) as [compatible|] eqn:Hc; cbn; [|done].
  pose proof (filter_res_Ok _ _ _ Hc) as Hin.
  destruct compatible as [|c compatible].
  { destruct (filter _ versions); [done|]. by destruct (max_key _ _). }
  destruct (List.find _ _) as [exact|] eqn:Hfind.
  - intros [= <-]. left. by apply find_some in Hfind as [_ Hfind].
  - destruct (max_key _ _) as [m|] eqn:Hm; cbn; [|done]. intros [= <-]. right.
    split.
    + intros v' Hv' Hcv'.
      apply (find_none _ _ Hfind), list_elem_of_In, Hin. done.
    + destruct (max_key_upper _ _ _ (fun x Hx =>
                  proj1 (is_compatible_gv _ _ _ _ _ (proj2 (proj1 (Hin x) Hx)))) Hm)
        as (g & Hg & Hup).
      exists g. split; [done|]. intros v' g' Hv' Hcv' Hg'.
      eapply Hup; [|exact Hg']. by apply Hin.
Qed.

Lemma select_version_prefers_exact_witness :
  let old := mkVersion ["1.21.5"] ["fabric"] [] [] in
  let new := mkVersion ["1.21.8"] ["fabric"] [] [] in
  select_version [old; new] [1; 21; 8]%N (Some "fabric") (Some [1; 21; 4]%N)
    (Some "mod") = Ok (Some new, true)
  ∧ new ∈ [old; new].
Proof.
  cbv zeta. split; [reflexivity|].
  exact (proj1 (select_version_prefers_exact
                  [mkVersion ["1.21.5"] ["fabric"] [] [];
                   mkVersion ["1.21.8"] ["fabric"] [] []]
                  [1; 21; 8]%N (Some "fabric") (Some [1; 21; 4]%N) (Some "mod")
                  (mkVersion ["1.21.8"] ["fabric"] [] []) eq_refl)).
Defined.

(** X8.  The second component of the result of [get_latest_version] tells
    whether some fetched version is compatible, and the first component is
    None exactly when no fetched version has a game version at or below
    the target. *)
Theorem select_version_flags (versions : list Version) (target : tuple)
    (loader : option string) (fallback : option tuple) (pt : option string)
    (r : option Version) (b : bool) :
  select_version versions target loader fallback pt = Ok (r, b) →
  (b = true ↔ ∃ v, v ∈ versions ∧ is_compatible v loader fallback target pt = Ok true)
  ∧ (r = None ↔ ∀ v, v ∈ versions → gv v target = None).
Proof.
  unfold select_version.
  destruct (filter_res _ versions) as [compatible|] eqn:Hc; cbn; [|done].
  pose proof (filter_res_Ok _ _ _ Hc) as Hin.
  destruct compatible as [|c compatible].
  - assert (¬ ∃ v, v ∈ versions ∧ is_compatible v loader fallback target pt = Ok true)
      as Hnone.
    { intros (v & Hv). apply Hin in Hv. by apply elem_of_nil in Hv. }
    destruct (filter _ versions) as [|y valid] eqn:Hvalid.
    + intros [= <- <-]. split; [split; [done|by intros ?]|].
      split; [|done]. intros _ v Hv.
      destruct (gv v target) as [g|] eqn:Hg; [|done].
      assert (v ∈ filter (fun v => is_Some (gv v target)) versions) as Hf
        by (apply list_elem_of_filter; by rewrite Hg).
      rewrite Hvalid in Hf. by apply elem_of_nil in Hf.
    + destruct (max_key _ _) as [m|]; cbn; [|done]. intros [= <- <-].
      split; [split; [done|by intros ?]|].
      split; [done|]. intros Hall.
      assert (y ∈ filter (fun v => is_Some (gv v target)) versions) as Hf
        by (rewrite Hvalid; by left).
      apply list_elem_of_filter in Hf as [[g Hg] Hy]. rewrite (Hall y Hy) in Hg. done.
  - assert (c ∈ versions ∧ is_compatible c loader fallback target pt = Ok true)
      as [Hcin Hcc] by (apply Hin; by left).
    assert (∀ r0 : Version, (Some r0 = None ↔ ∀ v, v ∈ versions → gv v target = None))
      as Hsome.
    { intros r0. split; [done|]. intros Hall.
      destruct (is_compatible_gv _ _ _ _ _ Hcc) as [[g Hg] _].
      rewrite (Hall c Hcin) in Hg. done. }
    destruct (List.find _ _) as [exact|].
    + intros [= <- <-]. split; [|apply Hsome]. split; [by exists c|done].
    + destruct (max_key _ _) as [m|]; cbn; [|done]. intros [= <- <-].
      split; [|apply Hsome]. split; [by exists c|done].
Qed.

Lemma select_version_flags_witness :
  select_version [forge_version] [1; 21; 8]%N (Some "fabric") (Some [1; 21; 4]%N)
    (Some "mod") = Ok (Some forge_version, false)
  ∧ (Some forge_version = None ↔
     ∀ v, v ∈ [forge_version] → gv v [1; 21; 8]%N = None).
Proof.
  split; [reflexivity|].
  exact (proj2 (select_version_flags [forge_version] [1; 21; 8]%N (Some "fabric")
                  (Some [1; 21; 4]%N) (Some "mod") (Some forge_version) false
                  eq_refl)).
Defined.

(** X9.  Without the optional floor ([--fallback-bound] not given, so
    [args.fallback_bound] is None), [get_latest_version] raises TypeError as
    soon as a fetched version lists a game version: the comparison
    [fallback <= gv_] of [is_compatible] is made with None. *)
Theorem get_latest_version_without_floor (w : World) (mod_id mod_name : string)
    (target : tuple) (loader : option string) (pt : option string) (s : State)
    (versions : list Version) :
  (get (versions_of w mod_id) ("/v2/project/" +:+ mod_id +:+ "/version")).2
    = Ok (Some versions) →
  (∃ v, v ∈ versions ∧ game_versions v ≠ []) →
  (get_latest_version w mod_id mod_name target loader None pt s).2 = Raise TypeError.
Proof.
  intros Hget (v & Hv & Hgv).
  destruct versions as [|v0 versions]; [by apply elem_of_nil in Hv|].
  rewrite (get_latest_version_fetched _ _ _ _ _ _ _ _ _ _ Hget).
  unfold select_version. rewrite (filter_res_raises _ _ TypeError); [done| |].
  - intros x _. rewrite is_compatible_without_floor. case_bool_decide; auto.
  - exists v. split; [done|]. rewrite is_compatible_without_floor.
    by rewrite bool_decide_false.
Qed.

Lemma get_latest_version_without_floor_witness :
  (get_latest_version forge_world "G" "Mod G" [1; 21; 8]%N (Some "fabric") None
     (Some "mod") empty_state).2 = Raise TypeError.
Proof.
  apply (get_latest_version_without_floor forge_world "G" "Mod G" [1; 21; 8]%N
           (Some "fabric") (Some "mod") empty_state [forge_version]).
  - reflexivity.
  - exists forge_version. split; [by left|done].
Defined.

(** X10.  The loader restricts mods only.  For a project of another type
    [is_compatible] does not depend on the loaders of the version or on the
    requested loader; a version tagged "minecraft" or "datapack" passes
    under every requested loader; and a compatible version of a mod lists
    the requested loader or one of these two tags. *)
Theorem is_compatible_loader_rule (v : Version) (loader : option string)
    (fallback : option tuple) (target : tuple) (pt : option string) :
  (pt ≠ Some "mod" →
   ∀ ls loader',
     is_compatible v loader fallback target pt
     = is_compatible (mkVersion (game_versions v) ls (files v) (dependencies v))
         loader' fallback target pt)
  ∧ ("minecraft" ∈ loaders v ∨ "datapack" ∈ loaders v →
     ∀ loader',
       is_compatible v loader fallback target pt
       = is_compatible v loader' fallback target pt)
  ∧ (∀ l, pt = Some "mod" → loader = Some l →
          is_compatible v loader fallback target pt = Ok true →
          l ∈ loaders v ∨ "minecraft" ∈ loaders v ∨ "datapack" ∈ loaders v).
Proof.
  unfold is_compatible, loader_ok, parsed_game_versions. split_and!.
  - intros Hpt ls loader'. cbn [game_versions]. by rewrite !bool_decide_false.
  - intros Htag loader'.
    assert (existsb (fun l => str_in l (loaders v)) ["minecraft"; "datapack"] = true)
      as ->.
    { cbn. destruct Htag as [H|H]; apply str_in_spec in H; rewrite H;
        by rewrite ?orb_true_r. }
    by rewrite !orb_true_r.
  - intros l -> -> Hc.
    destruct (version_ok _ _ _) as [ok|]; cbn in Hc; [|done].
    injection Hc as Hc. apply andb_true_iff in Hc as [_ Hc].
    rewrite orb_false_r in Hc.
    apply orb_true_iff in Hc as [Hc|Hc]; [left; by apply str_in_spec|].
    apply orb_true_iff in Hc as [Hc|Hc]; apply str_in_spec in Hc; auto.
Qed.

Lemma is_compatible_loader_rule_witness :
  let pack := mkVersion ["1.21.8"] ["datapack"] [] [] in
  is_compatible pack (Some "fabric") (Some [1; 21; 4]%N) [1; 21; 8]%N (Some "mod")
  = is_compatible pack (Some "forge") (Some [1; 21; 4]%N) [1; 21; 8]%N (Some "mod").
Proof.
  cbv zeta.
  apply (proj1 (proj2 (is_compatible_loader_rule
                         (mkVersion ["1.21.8"] ["datapack"] [] []) (Some "fabric")
                         (Some [1; 21; 4]%N) [1; 21; 8]%N (Some "mod")))).
  right. by left.
Defined.

(** X11.  [gv] of a version that lists the target version is the target
    itself, and [gv] is None exactly when every listed game version is
    above the target. *)
Theorem gv_of_listed_target (v : Version) (target : tuple) :
  (lists_target target v = true → gv v target = Some target)
  ∧ (gv v target = None ↔
     ∀ g, g ∈ parsed_game_versions v → tuple_le g target = false).
Proof.
  split.
  - intros Hin%tuple_in_spec.
    assert (target ∈ filter (fun t => Is_true (tuple_le t target))
                            (parsed_game_versions v)) as Hf.
    { apply list_elem_of_filter. split; [|done].
      apply Is_true_true, tuple_le_refl. }
    destruct (gv v target) as [g|] eqn:Hg.
    + destruct (gv_spec _ _ _ Hg) as (_ & Hle & Hup).
      f_equal. apply tuple_le_antisym; [done|]. apply Hup; [done|apply tuple_le_refl].
    + unfold gv in Hg. destruct (filter _ _); [by apply elem_of_nil in Hf|done].
  - split.
    + intros Hnone g Hg. destruct (tuple_le g target) eqn:Hle; [|done].
      assert (g ∈ filter (fun t => Is_true (tuple_le t target))
                         (parsed_game_versions v)) as Hf.
      { apply list_elem_of_filter. split; [by apply Is_true_true|done]. }
      unfold gv in Hnone. destruct (filter _ _); [by apply elem_of_nil in Hf|done].
    + intros Hall. destruct (gv v target) as [g|] eqn:Hg; [|done].
      destruct (gv_spec _ _ _ Hg) as (Hin & Hle & _).
      rewrite (Hall g Hin) in Hle. done.
Qed.

Lemma gv_of_listed_target_witness :
  gv (mkVersion ["1.21.9"; "1.21.8"; "1.20"] [] [] []) [1; 21; 8]%N
  = Some [1; 21; 8]%N.
Proof.
  apply (proj1 (gv_of_listed_target
                  (mkVersion ["1.21.9"; "1.21.8"; "1.20"] [] [] []) [1; 21; 8]%N)).
  reflexivity.
Defined.

Section RoundTrip.

Lemma int_of_digits_acc (acc : N) (s : string) :
  int_of_digits acc s
  = (acc * 10 ^ N.of_nat (String.length s) + int_of_digits 0 s)%N.
Proof.
  revert acc. induction s as [|c s IH]; intros acc; cbn [int_of_digits String.length].
  - cbn. lia.
  - rewrite IH, (IH (0 * 10 + _)%N).
    rewrite Nat2N.inj_succ, N.pow_succ_r'. lia.
Qed.

Lemma pretty_N_char_digit (x : N) :
  (x < 10)%N →
  is_digit_char (pretty_N_char x) = true
  ∧ (Ascii.N_of_ascii (pretty_N_char x) - 48)%N = x.
Proof.
  intros Hx.
  assert (x = 0 ∨ x = 1 ∨ x = 2 ∨ x = 3 ∨ x = 4 ∨ x = 5 ∨ x = 6 ∨ x = 7
          ∨ x = 8 ∨ x = 9)%N as H by lia.
  repeat destruct H as [->|H]; try subst x; by vm_compute.
Qed.

Lemma pretty_N_go_digits (x : N) (s : string) :
  all_digits s = true →
  all_digits (pretty_N_go x s) = true
  ∧ int_of_digits 0 (pretty_N_go x s)
    = (x * 10 ^ N.of_nat (String.length s) + int_of_digits 0 s)%N
  ∧ (s ≠ "" → pretty_N_go x s ≠ "").
Proof.
  revert s. induction (N.lt_wf_0 x) as [x _ IH]. intros s Hs.
  assert (x = 0 ∨ 0 < x)%N as [->|Hpos] by lia.
  - rewrite pretty_N_go_0. split_and!; [done|lia|done].
  - rewrite pretty_N_go_step by done.
    destruct (pretty_N_char_digit (x `mod` 10)) as [Hd Hval];
      [by apply N.mod_lt|].
    destruct (IH (x `div` 10)%N (N.div_lt x 10 Hpos eq_refl)
                 (String (pretty_N_char (x `mod` 10)) s)) as (Hall & Hint & Hne).
    { cbn. by rewrite Hd, Hs. }
    split_and!; [done| |by intros _; apply Hne].
    rewrite Hint. cbn [String.length int_of_digits].
    rewrite (int_of_digits_acc (0 * 10 + _)%N), Hval.
    rewrite Nat2N.inj_succ, N.pow_succ_r'.
    pose proof (N.div_mod x 10). lia.
Qed.

Lemma pretty_N_isdigit (n : N) : isdigit (pretty n) = true ∧ int (pretty n) = n.
Proof.
  unfold pretty, pretty_N. case_decide as Hn; [by subst n|].
  rewrite pretty_N_go_step by lia.
  destruct (pretty_N_char_digit (n `mod` 10)) as [Hd Hval]; [by apply N.mod_lt|].
  destruct (pretty_N_go_digits (n `div` 10)%N (String (pretty_N_char (n `mod` 10)) ""))
    as (Hall & Hint & Hne); [by cbn; rewrite Hd|].
  unfold isdigit, int. split.
  - destruct (pretty_N_go _ _) eqn:E; [by destruct Hne|done].
  - rewrite Hint. cbn [String.length int_of_digits]. rewrite Hval.
    pose proof (N.div_mod n 10). cbn. lia.
Qed.

End RoundTrip.

(** X12.  Parsing undoes formatting: [parse_version(format_version(t))] is
    [t] for every tuple of natural numbers, so the version shown in a
    message denotes the version that was compared. *)
Theorem parse_format_version (t : tuple) : parse_version (format_version t) = t.
Proof.
  unfold format_version. induction t as [|n t IH]; [done|].
  destruct (pretty_N_isdigit n) as [Hd Hint].
  destruct t as [|m t].
  - cbn [map join_dot]. by rewrite parse_version_numeric, Hint.
  - change (join_dot (map (fun n : N => pretty n) (n :: m :: t)))
      with (pretty n +:+ "." +:+ join_dot (map (fun n : N => pretty n) (m :: t))).
    by rewrite parse_version_app, IH, parse_version_numeric, Hint.
Qed.

(* ===================================================================== *)
(** * Filenames, paths and answers *)
(* ===================================================================== *)

Section Filenames.

Lemma normalize_filename_cons (c : ascii) (name : string) :
  normalize_filename (String c name)
  = String (if keeps c then c else "_"%char) (normalize_filename name).
Proof. reflexivity. Qed.

Lemma normalize_filename_chars (name : string) :
  Forall (fun c => keeps c = true) (chars (normalize_filename name)).
Proof.
  induction name as [|c name IH]; [by constructor|].
  rewrite normalize_filename_cons. cbn. constructor; [|done].
  by destruct (keeps c) eqn:Hc.
Qed.

Lemma normalize_filename_kept (name : string) :
  Forall (fun c => keeps c = true) (chars name) → normalize_filename name = name.
Proof.
  induction name as [|c name IH]; [done|].
  rewrite normalize_filename_cons. cbn. intros [Hc Hname]%Forall_cons.
  by rewrite Hc, IH.
Qed.

Lemma starts_with_slash_chars (s : string) :
  starts_with_slash s = true → "/"%char ∈ chars s.
Proof.
  destruct s as [|c s]; cbn; [done|]. intros ->%Ascii.eqb_eq. by left.
Qed.

Lemma lower_char_y (c : ascii) :
  lower_char c = "y"%char ↔ c = "y"%char ∨ c = "Y"%char.
Proof.
  destruct c as [[] [] [] [] [] [] [] []]; vm_compute;
    (split; [intros H; first [discriminate H|auto]
            |intros [H|H]; first [discriminate H|reflexivity]]).
Qed.

(** The five project types that have an index file. *)
Lemma INDEX_FILES_cases (t index_file : string) :
  INDEX_FILES (Some t) = Some index_file →
  (t = "mod" ∧ index_file = "mods_index.json")
  ∨ (t = "datapack" ∧ index_file = "datapacks_index.json")
  ∨ (t = "resourcepack" ∧ index_file = "resourcepacks_index.json")
  ∨ (t = "shaderpack" ∧ index_file = "shaderpacks_index.json")
  ∨ (t = "shader" ∧ index_file = "shaderpacks_index.json").
Proof.
  unfold INDEX_FILES.
  destruct (String.eqb_spec t "mod") as [->|_]; [intros [= <-]; auto|].
  destruct (String.eqb_spec t "datapack") as [->|_]; [intros [= <-]; auto|].
  destruct (String.eqb_spec t "resourcepack") as [->|_]; [intros [= <-]; auto|].
  destruct (String.eqb_spec t "shaderpack") as [->|_]; [intros [= <-]; auto 6|].
  destruct (String.eqb_spec t "shader") as [->|_]; [intros [= <-]; auto 6|done].
Qed.

End Filenames.

(** X13.  [normalize_filename] keeps the length of a name, leaves only
    word characters, "-", "+" and "." in it, changes nothing in a name
    made of such characters, and so does nothing when it is applied a
    second time. *)
Theorem normalize_filename_idempotent (name : string) :
  String.length (normalize_filename name) = String.length name
  ∧ Forall (fun c => keeps c = true) (chars (normalize_filename name))
  ∧ (Forall (fun c => keeps c = true) (chars name) → normalize_filename name = name)
  ∧ normalize_filename (normalize_filename name) = normalize_filename name.
Proof.
  split_and!.
  - induction name as [|c name IH]; [done|].
    rewrite normalize_filename_cons. cbn. by rewrite IH.
  - apply normalize_filename_chars.
  - apply normalize_filename_kept.
  - apply normalize_filename_kept, normalize_filename_chars.
Qed.

Lemma normalize_filename_idempotent_witness :
  normalize_filename "sodium-fabric-0.6.13+mc1.21.6.jar"
  = "sodium-fabric-0.6.13+mc1.21.6.jar".
Proof.
  apply (proj1 (proj2 (proj2 (normalize_filename_idempotent
                                "sodium-fabric-0.6.13+mc1.21.6.jar")))).
  repeat constructor.
Defined.

(** X14.  The path that a file is downloaded to is the target directory
    followed by one further component: a normalized filename has no "/",
    so [os.path.join] neither takes it for an absolute path, dropping the
    directory, nor descends into another folder. *)
Theorem download_path_extends_target_dir (target_dir name : string) :
  let filename := normalize_filename name in
  ("/"%char ∉ chars filename)
  ∧ (path_join target_dir filename = target_dir +:+ filename
     ∨ path_join target_dir filename = target_dir +:+ "/" +:+ filename)
  ∧ (target_dir ≠ "" → ends_with_slash target_dir = false →
     path_join target_dir filename = target_dir +:+ "/" +:+ filename).
Proof.
  cbv zeta.
  assert ("/"%char ∉ chars (normalize_filename name)) as Hno.
  { intros Hin. pose proof (normalize_filename_chars name) as Hall.
    rewrite Forall_forall in Hall. by apply Hall in Hin. }
  assert (starts_with_slash (normalize_filename name) = false) as Hs.
  { destruct (starts_with_slash _) eqn:E; [|done].
    by apply starts_with_slash_chars in E. }
  unfold path_join. rewrite Hs. split_and!; [done| |].
  - destruct (_ || _); auto.
  - intros Hdir He. by rewrite He, bool_decide_false.
Qed.

Lemma download_path_extends_target_dir_witness :
  path_join "/home/mods" (normalize_filename "/etc/passwd")
  = "/home/mods" +:+ "/" +:+ normalize_filename "/etc/passwd".
Proof.
  by apply (proj2 (proj2 (download_path_extends_target_dir "/home/mods" "/etc/passwd"))).
Defined.

(** X15.  The fallback prompt is answered with yes exactly by "y" or "Y",
    with any white space around it; every other answer declines, the
    empty one and "yes" too. *)
Theorem says_yes_iff (reply : string) :
  says_yes reply = true ↔ strip reply = "y" ∨ strip reply = "Y".
Proof.
  unfold says_yes. rewrite bool_decide_eq_true.
  destruct (strip reply) as [|c [|c' s]]; cbn.
  - split; [done|by intros [|]].
  - split.
    + intros [= Hc]. apply lower_char_y in Hc as [->| ->]; auto.
    + intros [[= ->]|[= ->]]; reflexivity.
  - split; [done|by intros [|]].
Qed.

(** X16.  The index file of a project type determines its folder: two
    types that share an index file ("shader" and "shaderpack") are
    installed into the same directory, so an index never covers two
    folders. *)
Theorem index_file_determines_directory (w : World) (t1 t2 index_file : string) :
  INDEX_FILES (Some t1) = Some index_file →
  INDEX_FILES (Some t2) = Some index_file →
  resolve_target_directory w (Some t1) = resolve_target_directory w (Some t2).
Proof.
  intros H1%INDEX_FILES_cases H2%INDEX_FILES_cases.
  destruct H1 as [[-> ->]|[[-> ->]|[[-> ->]|[[-> ->]|[-> ->]]]]];
    destruct H2 as [[-> H]|[[-> H]|[[-> H]|[[-> H]|[-> H]]]]];
    first [discriminate H|reflexivity].
Qed.

Lemma index_file_determines_directory_witness :
  resolve_target_directory cyclic_world (Some "shader")
  = resolve_target_directory cyclic_world (Some "shaderpack").
Proof.
  apply (index_file_determines_directory cyclic_world "shader" "shaderpack"
           "shaderpacks_index.json"); reflexivity.
Defined.

(* ===================================================================== *)
(** * Further properties of the index store and of the orchestrator *)
(* ===================================================================== *)

Section IndexStoreFacts.

(** Distinct index files have distinct paths. *)
Lemma index_path_inj (pt pt' : option string) (index_file index_file' : string) :
  INDEX_FILES pt = Some index_file → INDEX_FILES pt' = Some index_file' →
  index_path index_file = index_path index_file' → index_file = index_file'.
Proof.
  destruct pt as [t|], pt' as [t'|]; [|done..].
  intros H1%INDEX_FILES_cases H2%INDEX_FILES_cases.
  destruct H1 as [[-> ->]|[[-> ->]|[[-> ->]|[[-> ->]|[-> ->]]]]];
    destruct H2 as [[-> ->]|[[-> ->]|[[-> ->]|[[-> ->]|[-> ->]]]]];
    intros H; first [reflexivity|by vm_compute in H].
Qed.


Lemma save_index_eq (pt : option string) (index_file : string) (index : Index)
    (s : State) :
  INDEX_FILES pt = Some index_file →
  save_index pt index s
  = (mkState (seen_mods s) (<[index_path index_file := index]> (index_files s))
             (fs_files s) (fs_dirs s) (prompts s)
             (trace s ++ [EvSaveIndex (index_path index_file) index]), Ok ()).
Proof. intros Hidx. unfold save_index. by rewrite Hidx. Qed.

End IndexStoreFacts.

(** X17.  What [save_index] writes, [load_index] reads back, under the
    same project type and under every type that shares its index file;
    the index files of the other types, the files and the seen-set are
    left as they were. *)
Theorem save_then_load_index (pt pt' : option string)
    (index_file index_file' : string) (index : Index) (s : State) :
  INDEX_FILES pt = Some index_file → INDEX_FILES pt' = Some index_file' →
  let r := save_index pt index s in
  r.2 = Ok ()
  ∧ (load_index pt r.1).2 = Ok index
  ∧ (index_file' = index_file → (load_index pt' r.1).2 = Ok index)
  ∧ (index_file' ≠ index_file → (load_index pt' r.1).2 = (load_index pt' s).2)
  ∧ fs_files r.1 = fs_files s ∧ seen_mods r.1 = seen_mods s.
Proof.
  intros Hidx Hidx' r. subst r. rewrite (save_index_eq _ _ _ _ Hidx). cbn [fst snd].
  rewrite !(load_index_eq _ _ _ Hidx), !(load_index_eq _ _ _ Hidx'). cbn [fst snd].
  unfold stored. cbn [index_files].
  split_and!; [done| | | |done|done].
  - by rewrite lookup_insert_eq.
  - intros ->. by rewrite lookup_insert_eq.
  - intros Hne. rewrite lookup_insert_ne; [done|].
    intros Heq. apply Hne. symmetry. by eapply index_path_inj.
Qed.

Lemma save_then_load_index_witness :
  let r := save_index (Some "shader") [("a.zip", "S")] empty_state in
  r.2 = Ok ()
  ∧ (load_index (Some "shaderpack") r.1).2 = Ok [("a.zip", "S")]
  ∧ (load_index (Some "mod") r.1).2 = (load_index (Some "mod") empty_state).2.
Proof.
  cbv zeta.
  destruct (save_then_load_index (Some "shader") (Some "shaderpack")
              "shaderpacks_index.json" "shaderpacks_index.json" [("a.zip", "S")]
              empty_state eq_refl eq_refl) as (H1 & _ & H2 & _).
  destruct (save_then_load_index (Some "shader") (Some "mod")
              "shaderpacks_index.json" "mods_index.json" [("a.zip", "S")]
              empty_state eq_refl eq_refl) as (_ & _ & _ & H3 & _).
  split_and!; [exact H1|exact (H2 eq_refl)|apply H3; discriminate].
Defined.

Section Visits.

Variables (w : World) (args : Args).

(** A project whose details are not available: the id enters the seen-set,
    the details are requested, and reading the project type raises. *)
Lemma visit_details_unavailable (mod_id : string) (s : State) :
  (get (details_of w mod_id) ("/v2/project/" +:+ mod_id)).2 = Ok None →
  visit w args mod_id s
  = (add_events (get (details_of w mod_id) ("/v2/project/" +:+ mod_id)).1
       (with_seen mod_id s), Raise AttributeError).
Proof.
  intros Hget.
  pose proof (get_retrieved (details_of w mod_id) ("/v2/project/" +:+ mod_id)) as Hr.
  unfold visit. change (bind (add_seen mod_id) ?k s) with (k () (with_seen mod_id s)).
  unfold bind at 1. unfold get_mod_details, run_client.
  destruct (get (details_of w mod_id) _) as [evs r]. cbn [fst snd] in *. subst r.
  unfold bind at 1. cbn [raise].
  unfold add_events. cbn [seen_mods index_files fs_files fs_dirs prompts trace with_seen].
  by rewrite Hr, (right_id_L ∅ (∪)).
Qed.

End Visits.

(** X18.  A project whose details cannot be fetched (the request returns
    None: unknown id, or failure on every attempt) ends [download_project]
    with AttributeError, raised by [mod_details.get("project_type")] on
    None.  The id has entered the seen-set by then; the version list is not
    requested, and nothing else happens. *)
Theorem download_project_details_unavailable (depth : nat) (w : World) (args : Args)
    (mod_id : string) (s : State) :
  mod_id ∉ seen_mods s →
  (get (details_of w mod_id) ("/v2/project/" +:+ mod_id)).2 = Ok None →
  download_project (S depth) w args mod_id s
  = (add_events (get (details_of w mod_id) ("/v2/project/" +:+ mod_id)).1
       (with_seen mod_id s), Raised AttributeError).
Proof.
  intros Hnew Hget. cbn [download_project]. rewrite bool_decide_false by done.
  by rewrite visit_details_unavailable.
Qed.

Lemma download_project_details_unavailable_witness :
  let r := download_project 1 cyclic_world args0 "Z" empty_state in
  r.2 = Raised AttributeError
  ∧ attempts_made (trace r.1) = 1
  ∧ seen_mods r.1 = seen_mods (with_seen "Z" empty_state).
Proof.
  cbv zeta.
  rewrite (download_project_details_unavailable 0 cyclic_world args0 "Z" empty_state).
  - split_and!; reflexivity.
  - cbn. apply not_elem_of_empty.
  - reflexivity.
Defined.

(** X19.  A matching version without a primary file ends the branch after
    one console message: nothing is downloaded, no index is read or
    written, nothing is logged, and the dependencies of the version are not
    visited. *)
Theorem download_project_no_primary_file (depth : nat) (w : World) (args : Args)
    (mod_id : string) (d : Details) (v : Version) (versions : list Version)
    (s : State) :
  mod_id ∉ seen_mods s →
  (get (details_of w mod_id) ("/v2/project/" +:+ mod_id)).2 = Ok (Some d) →
  (get (versions_of w mod_id) ("/v2/project/" +:+ mod_id +:+ "/version")).2
    = Ok (Some versions) →
  select_version versions (arg_version args) (arg_loader args)
    (arg_fallback_bound args) (project_type d) = Ok (Some v, true) →
  primary_file v = None →
  download_project (S depth) w args mod_id s
  = (add_events
       [EvPrint (msg_no_primary (default mod_id (title d))
                   (corrected_type (Some v) (project_type d)) mod_id)]
       (fetched w mod_id s), Returned).
Proof.
  intros Hnew Hd Hv Hsel Hfile. cbn [download_project].
  rewrite bool_decide_false by done.
  assert (visit w args mod_id s
          = (add_events
               [EvPrint (msg_no_primary (default mod_id (title d))
                           (corrected_type (Some v) (project_type d)) mod_id)]
               (fetched w mod_id s), Ok [])) as ->; [|done].
  unfold visit, fetched.
  change (bind (add_seen mod_id) ?k s) with (k () (with_seen mod_id s)).
  pose proof (get_retrieved (details_of w mod_id) ("/v2/project/" +:+ mod_id)) as Hr1.
  pose proof (get_retrieved (versions_of w mod_id)
                ("/v2/project/" +:+ mod_id +:+ "/version")) as Hr2.
  unfold bind at 1. unfold get_mod_details, run_client.
  destruct (get (details_of w mod_id) _) as [evs1 r1]. cbn [fst snd] in *. subst r1.
  unfold bind at 1. cbn [ret].
  unfold bind at 1. unfold get_latest_version.
  unfold bind at 1. unfold get_mod_version, run_client.
  destruct (get (versions_of w mod_id) _) as [evs2 r2]. cbn [fst snd] in *. subst r2.
  destruct versions as [|v0 versions].
  { unfold select_version in Hsel. cbn in Hsel. done. }
  unfold lift_res. rewrite Hsel. cbn [fst snd negb with_seen seen_mods index_files
    fs_files fs_dirs prompts trace].
  rewrite Hfile, Hr1, Hr2, !(right_id_L ∅ (∪)), <- app_assoc.
  unfold bind, safe_print, emit, ret, add_events. cbn. by rewrite <- !app_assoc.
Qed.

Lemma download_project_no_primary_file_witness :
  let r := download_project 2 secondary_world args0 "N" empty_state in
  r.2 = Returned
  ∧ printed (trace r.1)
    = ["[❌ ERROR  ] No primary file found | Project: Mod N | Type: mod | ID: N"]
  ∧ downloads (trace r.1) = []
  ∧ seen_mods r.1 = seen_mods (with_seen "N" empty_state).
Proof.
  cbv zeta.
  rewrite (download_project_no_primary_file 1 secondary_world args0 "N"
             (mkDetails (Some "Mod N") (Some "mod")) secondary_version
             [secondary_version] empty_state).
  - split_and!; reflexivity.
  - cbn. apply not_elem_of_empty.
  - reflexivity.
  - reflexivity.
  - reflexivity.
  - reflexivity.
Defined.

Section Transfers.

Variable w : World.

Lemma logs_load_events (log_type : string) (s : State) (index_file : string) :
  logs log_type (load_events s index_file) = [].
Proof. unfold load_events. by destruct (_ !! _). Qed.

Lemma logs_client {A} (log_type : string) (net : nat → Attempt A) (url : string)
    (action : Action) (dest : option string) :
  logs log_type (_request_with_retries net url action dest).1 = [].
Proof.
  unfold _request_with_retries. generalize 0 at 1. generalize MAX_RETRIES.
  intros n. induction n as [|n IH]; intros k; cbn; [done|].
  assert (logs log_type (iteration url action dest k (net k)).1 = []) as Hit.
  { destruct (net k) as [p|code ra|t reason|e]; cbn.
    - by destruct action.
    - destruct (code =? 429)%Z.
      + destruct ra as [|m|]; [done| |done]. by destruct (m <? 0)%Z.
      + by destruct (code =? 408)%Z.
    - done.
    - done. }
  destruct (iteration url action dest k (net k)) as [evs it]. cbn [fst] in Hit.
  specialize (IH (S k)).
  destruct it, (retry_loop net url action dest n (S k)) as [evs' res'];
    cbn [fst snd] in *; rewrite ?logs_app, ?Hit, ?IH; done.
Qed.

(** The steps of [transfer_and_record] when the transfer raises nothing. *)
Lemma transfer_and_record_eq (mod_id mod_name : string) (pt : option string)
    (file : File) (index_file filename target_dir : string) (old : option string)
    (s : State) :
  INDEX_FILES pt = Some index_file →
  let c := download_file (file_net w (file_url file)) (file_url file)
             (path_join target_dir filename) in
  c.2 = Ok None →
  let s1 := mkState (seen_mods s) (index_files s) (fs_files s ∪ retrieved c.1)
              (fs_dirs s) (prompts s)
              (trace s
                 ++ [EvPrint (msg_transfer (truthy old) filename target_dir pt);
                     EvDownload mod_id (file_url file) (path_join target_dir filename)]
                 ++ c.1) in
  transfer_and_record w mod_id mod_name pt file filename target_dir old s
  = match remove_old_file target_dir old pt s1 with
    | (s2, Ok _) => record_index mod_id mod_name pt filename old s2
    | (s2, Raise e) => (s2, Raise e)
    end.
Proof.
  intros Hidx c Hc s1. unfold transfer_and_record.
  unfold bind at 1. cbn [safe_print emit]. unfold bind at 1. cbn [emit].
  unfold bind at 1. unfold modrinth_download_file, run_client. fold c. rewrite Hc.
  cbn [seen_mods index_files fs_files fs_dirs prompts trace].
  unfold bind at 1. subst s1. rewrite <- !app_assoc. cbn [app].
  by destruct (remove_old_file _ _ _ _) as [s2 [[]|e]].
Qed.

Lemma record_index_eq (mod_id mod_name : string) (pt : option string)
    (index_file filename : string) (old : option string) (s : State) :
  INDEX_FILES pt = Some index_file →
  let index' :=
    dict_set filename mod_id
      (if truthy old then dict_pop (py_str old) (stored s index_file)
       else stored s index_file) in
  let entry :=
    if truthy old then EvLog "updated" (msg_updated mod_name pt mod_id filename)
    else EvLog "downloaded" (msg_downloaded mod_name pt mod_id filename) in
  record_index mod_id mod_name pt filename old s
  = (mkState (seen_mods s) (<[index_path index_file := index']> (index_files s))
             (fs_files s) (fs_dirs s) (prompts s)
             (trace s ++ load_events s index_file
                ++ [entry; EvSaveIndex (index_path index_file) index']), Ok ()).
Proof.
  intros Hidx. cbv zeta. unfold record_index. unfold bind at 1.
  rewrite (load_index_eq _ _ _ Hidx). unfold save_index. rewrite Hidx.
  destruct (truthy old); cbn; by rewrite <- !app_assoc.
Qed.

End Transfers.



Section Updates.

(** The removal of the old file of an updated project, when its path is not
    that of a directory. *)
Lemma remove_old_file_eq (target_dir old : string) (pt : option string) (s : State) :
  old ≠ "" → path_join target_dir old ∉ fs_dirs s →
  ∃ evs,
    remove_old_file target_dir (Some old) pt s
    = (mkState (seen_mods s) (index_files s)
               (fs_files s ∖ {[path_join target_dir old]}) (fs_dirs s) (prompts s)
               (trace s ++ evs), Ok ())
    ∧ (∀ log_type, logs log_type evs = [])
    ∧ (path_join target_dir old ∈ fs_files s →
       evs = [EvPrint (msg_removing old pt); EvRemove (path_join target_dir old)])
    ∧ (path_join target_dir old ∉ fs_files s → evs = []).
Proof.
  intros Hold Hdir. unfold remove_old_file. cbn [truthy py_str default].
  rewrite bool_decide_false by done. cbn [negb].
  unfold bind at 1. cbn [path_exists].
  destruct (decide (path_join target_dir old ∈ fs_files s)) as [Hin|Hout].
  - rewrite bool_decide_true by set_solver.
    unfold bind, safe_print, emit, os_remove. cbn.
    rewrite bool_decide_true by done.
    eexists [_; _]. split_and!; [by rewrite <- !app_assoc|done|done|done].
  - rewrite bool_decide_false by set_solver. cbn [ret].
    exists []. split_and!; [|done|done|done].
    assert (fs_files s ∖ {[path_join target_dir old]} = fs_files s) as ->
      by set_solver.
    rewrite app_nil_r. by destruct s.
Qed.

End Updates.

(** X21.  An update replaces the old file: when the index gives an old
    filename for the project, the transfer raises nothing and the old path
    is not a directory, then afterwards no file exists at the old path,
    the index written has lost the old entry and maps the new filename to
    the project, and the project is logged as updated, not as
    downloaded. *)
Theorem update_replaces_old_file (w : World) (mod_id mod_name : string)
    (pt : option string) (file : File) (index_file filename target_dir old : string)
    (s : State) :
  INDEX_FILES pt = Some index_file →
  old ≠ "" →
  path_join target_dir old ∉ fs_dirs s →
  (download_file (file_net w (file_url file)) (file_url file)
     (path_join target_dir filename)).2 = Ok None →
  let r := transfer_and_record w mod_id mod_name pt file filename target_dir
             (Some old) s in
  r.2 = Ok ()
  ∧ (path_join target_dir old ∉ fs_files r.1)
  ∧ index_files r.1
    = <[index_path index_file :=
          dict_set filename mod_id (dict_pop old (stored s index_file))]>
        (index_files s)
  ∧ ∃ evs, trace r.1 = trace s ++ evs
           ∧ logs "updated" evs = [msg_updated mod_name pt mod_id filename]
           ∧ logs "downloaded" evs = [].
Proof.
  intros Hidx Hold Hdir Hc r. subst r.
  rewrite (transfer_and_record_eq w _ _ _ _ index_file _ _ _ _ Hidx) by done.
  set (s1 := mkState _ _ _ _ _ _).
  destruct (remove_old_file_eq target_dir old pt s1 Hold Hdir) as (evs & -> & Hlogs & _).
  rewrite (record_index_eq _ _ _ index_file _ _ _ Hidx).
  cbn [truthy py_str default fst snd fs_files index_files trace seen_mods].
  rewrite bool_decide_false by done. cbn [negb].
  split_and!; [done|set_solver|done|].
  eexists. split; [subst s1; cbn [trace]; by rewrite <- !app_assoc|].
  rewrite !logs_app, !Hlogs, !logs_load_events.
  pose proof (logs_client "updated" (file_net w (file_url file)) (file_url file)
                DOWNLOAD (Some (path_join target_dir filename))) as Hl1.
  pose proof (logs_client "downloaded" (file_net w (file_url file)) (file_url file)
                DOWNLOAD (Some (path_join target_dir filename))) as Hl2.
  unfold download_file in *.
  destruct (_request_with_retries _ _ _ _) as [evs0 res0]. cbn [fst] in *.
  by rewrite Hl1, Hl2.
Qed.

Lemma update_replaces_old_file_witness :
  let r := transfer_and_record update_world "X" "Mod X" (Some "mod") (jar "a.jar")
             "a.jar" "/home/mods" (Some "old.jar") old_name_state in
  r.2 = Ok ()
  ∧ ("/home/mods/old.jar" ∉ fs_files r.1)
  ∧ index_files r.1 !! mods_index_path = Some [("a.jar", "X")].
Proof.
  cbv zeta.
  destruct (update_replaces_old_file update_world "X" "Mod X" (Some "mod")
              (jar "a.jar") "mods_index.json" "a.jar" "/home/mods" "old.jar"
              old_name_state) as (H1 & H2 & H3 & _).
  - reflexivity.
  - discriminate.
  - cbn. apply not_elem_of_empty.
  - reflexivity.
  - split_and!; [exact H1|exact H2|]. rewrite H3. reflexivity.
Defined.

(** X22.  Only the dependencies of type "required" are followed: the loop
    over the dependencies of a version does what it does on the required
    ones alone, and with none of them it returns at once, leaving the
    state as it is. *)
Theorem optional_dependencies_not_followed
    (call : string → State → State * outcome) (deps : list Dependency) (s : State) :
  each_dependency call deps s
  = each_dependency call
      (List.filter (fun dep => String.eqb (dependency_type dep) "required") deps) s
  ∧ (Forall (fun dep => dependency_type dep ≠ "required") deps →
     each_dependency call deps s = (s, Returned)).
Proof.
  split.
  - revert s. induction deps as [|dep deps IH]; intros s; [done|]. cbn.
    destruct (String.eqb (dependency_type dep) "required") eqn:E; cbn; [|apply IH].
    rewrite E. destruct (call _ s) as [s1 [| |]]; [apply IH|done..].
  - induction 1 as [|dep deps Hdep _ IH]; [done|]. cbn.
    by apply String.eqb_neq in Hdep as ->.
Qed.

Lemma optional_dependencies_not_followed_witness :
  each_dependency (download_project 1 optional_world args0)
    [mkDependency "A" "optional"] empty_state = (empty_state, Returned).
Proof.
  apply (proj2 (optional_dependencies_not_followed
                  (download_project 1 optional_world args0)
                  [mkDependency "A" "optional"] empty_state)).
  repeat constructor. discriminate.
Defined.

(** X23.  Whatever happens to it, a project that [download_project] is
    called on is in the seen-set afterwards (the call nesting permitting
    one call), and no id ever leaves the seen-set: a project whose branch
    ended in an exception is not tried again in the run. *)
Theorem download_project_marks_seen (depth : nat) (w : World) (args : Args)
    (mod_id : string) (s : State) :
  let s' := (download_project (S depth) w args mod_id s).1 in
  mod_id ∈ seen_mods s' ∧ seen_mods s ⊆ seen_mods s'.
Proof.
  cbv zeta. split; [|apply download_project_once].
  cbn [download_project]. case_bool_decide as Hseen; [done|].
  pose proof (visit_seen w args mod_id s) as Hv.
  destruct (visit w args mod_id s) as [s1 [deps|e]]; cbn [fst] in *.
  - destruct (each_dependency_once (download_project depth w args) deps s1)
      as [Hsub _]; [intros; apply download_project_once|].
    set_solver.
  - set_solver.
Qed.

(* ===================================================================== *)
(** * What the orchestrator emits *)
(* ===================================================================== *)

Section Emitting.

Variable P : Event → Prop.

Lemma Extends_refl (s : State) : Extends P s s.
Proof. exists []. by rewrite app_nil_r. Qed.

Lemma Extends_trans (s1 s2 s3 : State) :
  Extends P s1 s2 → Extends P s2 s3 → Extends P s1 s3.
Proof.
  intros (evs & Ht & Hp) (evs' & Ht' & Hp'). exists (evs ++ evs').
  split; [by rewrite Ht', Ht, app_assoc|by apply Forall_app].
Qed.

Lemma Emits_ret {A} (a : A) : Emits P (ret a).
Proof. intros s. apply Extends_refl. Qed.

Lemma Emits_raise {A} (e : Exn) : Emits P (raise (A:=A) e).
Proof. intros s. apply Extends_refl. Qed.

Lemma Emits_lift_res {A} (r : res A) : Emits P (lift_res r).
Proof. intros s. apply Extends_refl. Qed.

Lemma Emits_bind {A B} (m : M A) (k : A → M B) :
  Emits P m → (∀ a, Emits P (k a)) → Emits P (bind m k).
Proof.
  intros Hm Hk s. unfold bind. specialize (Hm s).
  destruct (m s) as [s1 [a|e]]; cbn [fst] in *; [|done].
  eapply Extends_trans; [exact Hm|apply Hk].
Qed.

Lemma Emits_emit (e : Event) : P e → Emits P (emit e).
Proof. intros He s. exists [e]. split; [done|by repeat constructor]. Qed.

Lemma Emits_safe_input (w : World) (prompt : string) :
  (∀ reply, P (EvPrompt prompt reply)) → Emits P (safe_input w prompt).
Proof. intros Hp s. eexists [_]. split; [done|by repeat constructor]. Qed.

Lemma Emits_add_seen (mod_id : string) : Emits P (add_seen mod_id).
Proof. intros s. exists []. cbn. by rewrite app_nil_r. Qed.

Lemma Emits_path_exists (path : string) : Emits P (path_exists path).
Proof. intros s. apply Extends_refl. Qed.

Hypothesis P_plain : ∀ e, plain_event e = true → P e.

Lemma Emits_safe_print (msg : string) : Emits P (safe_print msg).
Proof. by apply Emits_emit, P_plain. Qed.

Lemma Emits_makedirs (dir : string) : Emits P (makedirs dir).
Proof. intros s. eexists [_]. split; [done|]. repeat constructor. by apply P_plain. Qed.

Lemma Emits_os_remove (path : string) : Emits P (os_remove path).
Proof.
  intros s. unfold os_remove. case_bool_decide; [|apply Extends_refl].
  eexists [_]. split; [done|]. repeat constructor. by apply P_plain.
Qed.

Lemma Emits_load_index (index_type : option string) : Emits P (load_index index_type).
Proof.
  intros s. unfold load_index. destruct (INDEX_FILES index_type); [|apply Extends_refl].
  destruct (_ !! _); [|apply Extends_refl].
  eexists [_]. split; [done|]. repeat constructor. by apply P_plain.
Qed.

Lemma Emits_save_index (index_type : option string) (index : Index) :
  Emits P (save_index index_type index).
Proof.
  intros s. unfold save_index. destruct (INDEX_FILES index_type); [|apply Extends_refl].
  eexists [_]. split; [done|]. repeat constructor. by apply P_plain.
Qed.

Lemma request_events_plain {A} (net : nat → Attempt A) (url : string)
    (action : Action) (dest : option string) :
  Forall P (_request_with_retries net url action dest).1.
Proof.
  apply retry_loop_events; [|by apply P_plain].
  intros k o. destruct o as [p|code ra|t reason|e]; cbn.
  - destruct action; repeat constructor; by apply P_plain.
  - destruct (code =? 429)%Z.
    + destruct ra as [|n|]; [| |];
        try destruct (n <? 0)%Z; repeat constructor; by apply P_plain.
    + destruct (code =? 408)%Z; repeat constructor; by apply P_plain.
  - repeat constructor; by apply P_plain.
  - repeat constructor; by apply P_plain.
Qed.

Lemma Emits_run_client {A} (c : list Event * res (option A)) :
  Forall P c.1 → Emits P (run_client c).
Proof. intros Hc s. by exists c.1. Qed.

Lemma Emits_get_mod_details (w : World) (mod_id : string) :
  Emits P (get_mod_details w mod_id).
Proof. apply Emits_run_client, request_events_plain. Qed.

Lemma Emits_get_mod_version (w : World) (mod_id : string) :
  Emits P (get_mod_version w mod_id).
Proof. apply Emits_run_client, request_events_plain. Qed.

Lemma Emits_download_file (w : World) (url filename : string) :
  Emits P (modrinth_download_file w url filename).
Proof.
  apply Emits_run_client. unfold download_file.
  pose proof (request_events_plain (file_net w url) url DOWNLOAD (Some filename)) as H.
  by destruct (_request_with_retries _ _ _ _).
Qed.

Lemma Emits_get_latest_version (w : World) (mod_id mod_name : string)
    (target : tuple) (loader : option string) (fallback : option tuple)
    (pt : option string) :
  Emits P (get_latest_version w mod_id mod_name target loader fallback pt).
Proof.
  unfold get_latest_version. apply Emits_bind; [apply Emits_get_mod_version|].
  intros [[|v versions]|]; try apply Emits_lift_res;
    (apply Emits_bind; [apply Emits_safe_print|intros; apply Emits_ret]).
Qed.

Lemma Emits_remove_old_file (target_dir : string) (old : option string)
    (pt : option string) :
  Emits P (remove_old_file target_dir old pt).
Proof.
  unfold remove_old_file. destruct (truthy old); [|apply Emits_ret].
  apply Emits_bind; [apply Emits_path_exists|]. intros [|]; [|apply Emits_ret].
  apply Emits_bind; [apply Emits_safe_print|]. intros _. apply Emits_os_remove.
Qed.

Hypothesis P_log : ∀ log_type msg, is_Some (LOG_FILES log_type) → P (EvLog log_type msg).

Lemma Emits_report_no_version (mod_id mod_name : string) (pt : option string)
    (version : option Version) :
  Emits P (report_no_version mod_id mod_name pt version).
Proof.
  unfold report_no_version. destruct version as [v|]; [|apply Emits_raise].
  apply Emits_bind.
  - destruct (game_versions v); [apply Emits_ret|].
    apply Emits_bind; [apply Emits_lift_res|intros; apply Emits_ret].
  - intros closest. apply Emits_bind; [apply Emits_safe_print|]. intros _.
    by apply Emits_emit, P_log.
Qed.

Lemma Emits_record_index (mod_id mod_name : string) (pt : option string)
    (filename : string) (old : option string) :
  Emits P (record_index mod_id mod_name pt filename old).
Proof.
  unfold record_index. apply Emits_bind; [apply Emits_load_index|]. intros index.
  apply Emits_bind; [|intros; apply Emits_save_index].
  destruct (truthy old);
    (apply Emits_bind; [by apply Emits_emit, P_log|intros; apply Emits_ret]).
Qed.

(** The steps of [transfer_and_record] after the download has started. *)
Lemma Emits_after_download (w : World) (mod_id mod_name : string)
    (pt : option string) (file : File) (filename target_dir : string)
    (old : option string) :
  Emits P (modrinth_download_file w (file_url file) (path_join target_dir filename) ;;;
           remove_old_file target_dir old pt ;;;
           record_index mod_id mod_name pt filename old).
Proof.
  apply Emits_bind; [apply Emits_download_file|]. intros _.
  apply Emits_bind; [apply Emits_remove_old_file|]. intros _.
  apply Emits_record_index.
Qed.

Hypothesis P_download : ∀ mod_id url filepath, P (EvDownload mod_id url filepath).

Lemma Emits_transfer_and_record (w : World) (mod_id mod_name : string)
    (pt : option string) (file : File) (filename target_dir : string)
    (old : option string) :
  Emits P (transfer_and_record w mod_id mod_name pt file filename target_dir old).
Proof.
  unfold transfer_and_record. apply Emits_bind; [apply Emits_safe_print|]. intros _.
  apply Emits_bind; [by apply Emits_emit|]. intros _. apply Emits_after_download.
Qed.

(** The part of [install] after the fallback gate. *)
Lemma Emits_after_gate (w : World) (mod_id mod_name : string) (pt : option string)
    (file : File) (filename target_dir : string) (existing_id old : option string)
    (declined : bool) :
  Emits P (if declined then ret false
           else if bool_decide (existing_id = Some mod_id) then
             safe_print (msg_skipped mod_name pt mod_id filename) ;;;
             log_event "skipped" (msg_skipped mod_name pt mod_id filename) ;;;
             ret false
           else
             transfer_and_record w mod_id mod_name pt file filename target_dir old ;;;
             ret true).
Proof.
  destruct declined; [apply Emits_ret|]. case_bool_decide.
  - apply Emits_bind; [apply Emits_safe_print|]. intros _.
    apply Emits_bind; [by apply Emits_emit, P_log|intros; apply Emits_ret].
  - apply Emits_bind; [apply Emits_transfer_and_record|intros; apply Emits_ret].
Qed.

(** [install] of a version that lists the target: nobody is asked. *)
Lemma Emits_install_exact (w : World) (args : Args) (mod_id mod_name : string)
    (pt : option string) (v : Version) (file : File) :
  tuple_in (arg_version args) (parsed_game_versions v) = true →
  Emits P (install w args mod_id mod_name pt v file).
Proof.
  intros Hexact. unfold install. apply Emits_bind; [apply Emits_lift_res|].
  intros target_dir. case_bool_decide.
  { apply Emits_bind; [apply Emits_safe_print|intros; apply Emits_ret]. }
  apply Emits_bind; [apply Emits_makedirs|]. intros _.
  apply Emits_bind; [apply Emits_load_index|]. intros index.
  apply Emits_bind; [|intros; apply Emits_after_gate].
  unfold fallback_gate. rewrite Hexact. apply Emits_ret.
Qed.

Hypothesis P_prompt : ∀ prompt reply, P (EvPrompt prompt reply).

Lemma Emits_fallback_gate (w : World) (args : Args) (mod_id mod_name : string)
    (pt : option string) (version : Version) (filename : string)
    (existing_id : option string) :
  Emits P (fallback_gate w args mod_id mod_name pt version filename existing_id).
Proof.
  unfold fallback_gate. destruct (_ && _); [|apply Emits_ret].
  apply Emits_bind.
  - unfold should_use_fallback. destruct (gv _ _); [|apply Emits_raise].
    apply Emits_bind; [by apply Emits_safe_input|intros; apply Emits_ret].
  - intros [|]; [apply Emits_ret|].
    apply Emits_bind; [apply Emits_lift_res|]. intros closest.
    apply Emits_bind; [apply Emits_safe_print|]. intros _.
    apply Emits_bind; [by apply Emits_emit, P_log|intros; apply Emits_ret].
Qed.

Lemma Emits_install (w : World) (args : Args) (mod_id mod_name : string)
    (pt : option string) (v : Version) (file : File) :
  Emits P (install w args mod_id mod_name pt v file).
Proof.
  unfold install. apply Emits_bind; [apply Emits_lift_res|].
  intros target_dir. case_bool_decide.
  { apply Emits_bind; [apply Emits_safe_print|intros; apply Emits_ret]. }
  apply Emits_bind; [apply Emits_makedirs|]. intros _.
  apply Emits_bind; [apply Emits_load_index|]. intros index.
  apply Emits_bind; [apply Emits_fallback_gate|intros; apply Emits_after_gate].
Qed.

Lemma Emits_visit (w : World) (args : Args) (mod_id : string) :
  Emits P (visit w args mod_id).
Proof.
  unfold visit. apply Emits_bind; [apply Emits_add_seen|]. intros _.
  apply Emits_bind; [apply Emits_get_mod_details|]. intros mod_details.
  apply Emits_bind; [destruct mod_details; [apply Emits_ret|apply Emits_raise]|].
  intros pt. apply Emits_bind; [apply Emits_get_latest_version|].
  intros [version success]. cbn [fst snd]. destruct success; cbn [negb].
  - destruct version as [v|]; [|apply Emits_raise].
    destruct (primary_file v) as [file|].
    + apply Emits_bind; [apply Emits_install|intros; apply Emits_ret].
    + apply Emits_bind; [apply Emits_safe_print|intros; apply Emits_ret].
  - apply Emits_bind; [apply Emits_report_no_version|intros; apply Emits_ret].
Qed.

Lemma Extends_each_dependency (call : string → State → State * outcome)
    (deps : list Dependency) (s : State) :
  (∀ mod_id s, Extends P s (call mod_id s).1) →
  Extends P s (each_dependency call deps s).1.
Proof.
  intros Hcall. revert s. induction deps as [|dep deps IH]; intros s; cbn.
  - apply Extends_refl.
  - destruct (String.eqb _ _); [|apply IH].
    specialize (Hcall (dep_project_id dep) s).
    destruct (call _ s) as [s1 [| |]]; cbn [fst] in *;
      [eapply Extends_trans; [exact Hcall|apply IH]|done..].
Qed.

Lemma Extends_download_project (depth : nat) (w : World) (args : Args)
    (mod_id : string) (s : State) :
  Extends P s (download_project depth w args mod_id s).1.
Proof.
  revert mod_id s. induction depth as [|depth IH]; intros mod_id s; cbn.
  - apply Extends_refl.
  - case_bool_decide; [apply Extends_refl|].
    pose proof (Emits_visit w args mod_id s) as Hv.
    destruct (visit w args mod_id s) as [s1 [deps|e]]; cbn [fst] in *; [|done].
    eapply Extends_trans; [exact Hv|]. by apply Extends_each_dependency.
Qed.

Lemma Extends_orchestrate (depth : nat) (w : World) (args : Args)
    (mods : list string) (s : State) :
  Extends P s (orchestrate depth w args mods s).
Proof.
  unfold orchestrate.
  assert (Extends P s (fresh_seen s)) as Hs by (exists []; by rewrite app_nil_r).
  revert Hs. generalize (fresh_seen s). intros s0 Hs0.
  revert s0 Hs0. induction mods as [|m mods IH]; intros s0 Hs0; cbn [foldl]; [done|].
  apply IH. eapply Extends_trans; [exact Hs0|]. apply Extends_download_project.
Qed.

End Emitting.

(* ===================================================================== *)
(** * The log files *)
(* ===================================================================== *)

Section LogLines.

Lemma string_app_assoc (a b c : string) : (a +:+ b) +:+ c = a +:+ (b +:+ c).
Proof.
  induction a as [|x a IH]; [done|].
  change (String x (((a +:+ b) +:+ c)) = String x (a +:+ (b +:+ c))). by rewrite IH.
Qed.

Lemma string_app_nil_r (a : string) : a +:+ "" = a.
Proof.
  induction a as [|x a IH]; [done|]. change (String x (a +:+ "") = String x a).
  by rewrite IH.
Qed.

Lemma chars_app (a b : string) : chars (a +:+ b) = chars a ++ chars b.
Proof.
  induction a as [|x a IH]; [done|].
  change (x :: chars (a +:+ b) = x :: (chars a ++ chars b)). by rewrite IH.
Qed.

Lemma one_line_app (a b : string) : one_line a → one_line b → one_line (a +:+ b).
Proof. unfold one_line. rewrite chars_app. apply Forall_app_2. Qed.

Lemma all_digits_one_line (s : string) : all_digits s = true → one_line s.
Proof.
  unfold one_line. induction s as [|c s IH]; cbn; [by constructor|].
  intros [Hc Hs]%andb_true_iff. constructor; [|by apply IH].
  split; intros ->; by vm_compute in Hc.
Qed.

Lemma pretty_nat_one_line (n : nat) : one_line (pretty n).
Proof.
  apply all_digits_one_line, isdigit_all_digits.
  apply (pretty_N_isdigit (N.of_nat n)).
Qed.

(** A line without a line break, closed by a line feed, counts once. *)
Lemma count_lines_line (a rest : string) :
  one_line a → count_lines (a +:+ String LF rest) = S (count_lines rest).
Proof.
  unfold one_line. induction a as [|c a IH]; [done|].
  cbn [chars]. intros [[Hlf Hcr] Ha]%Forall_cons.
  change (String c a +:+ String LF rest) with (String c (a +:+ String LF rest)).
  cbn [count_lines].
  destruct (Ascii.eqb_spec c LF) as [|_]; [done|].
  destruct (Ascii.eqb_spec c CR) as [|_]; [done|].
  rewrite <- (IH Ha). by destruct a.
Qed.

Lemma log_line_eq (k : nat) (msg rest : string) :
  log_line k msg +:+ rest
  = (pretty (k + 1) +:+ ". " +:+ msg) +:+ String LF rest.
Proof. unfold log_line. by rewrite !string_app_assoc. Qed.

Lemma count_lines_numbered (k : nat) (msgs : list string) :
  Forall one_line msgs → count_lines (numbered k msgs) = length msgs.
Proof.
  intros Hall. revert k. induction Hall as [|msg msgs Hmsg _ IH]; intros k; [done|].
  cbn [numbered length]. rewrite log_line_eq, count_lines_line, IH; [done|].
  apply one_line_app; [apply pretty_nat_one_line|].
  apply one_line_app; [by repeat constructor|done].
Qed.

Lemma numbered_snoc (k : nat) (msgs : list string) (msg : string) :
  numbered k (msgs ++ [msg]) = numbered k msgs +:+ log_line (k + length msgs) msg.
Proof.
  revert k. induction msgs as [|m msgs IH]; intros k; cbn [numbered app length].
  - by rewrite Nat.add_0_r, string_app_nil_r.
  - rewrite IH, string_app_assoc. do 3 f_equal. lia.
Qed.

Lemma LOG_FILES_names (log_type name : string) :
  LOG_FILES log_type = Some name → name ∈ LOG_NAMES.
Proof.
  unfold LOG_FILES, LOG_NAMES.
  repeat (destruct (String.eqb log_type _); [intros [= <-]; set_solver|]). done.
Qed.

Lemma log_path_inj (name name' : string) :
  name ∈ LOG_NAMES → name' ∈ LOG_NAMES → log_path name = log_path name' →
  name = name'.
Proof.
  unfold LOG_NAMES. rewrite !elem_of_cons, !elem_of_nil.
  intros [->|[->|[->|[->|[]]]]] [->|[->|[->|[->|[]]]]] H;
    first [reflexivity|by vm_compute in H].
Qed.

Lemma filed_snoc (name : string) (items : list (string * string))
    (log_type msg : string) :
  filed name (items ++ [(log_type, msg)])
  = filed name items
      ++ (if bool_decide (LOG_FILES log_type = Some name) then [msg] else []).
Proof.
  unfold filed. rewrite List.filter_app, fmap_app. cbn. by case_bool_decide.
Qed.

Lemma initialize_logs_holds (d : LogDisk) :
  log_dir (initialize_logs d) = true ∧ holds (log_text (initialize_logs d)) [].
Proof.
  split; [done|]. intros name Hname. unfold initialize_logs, LOG_NAMES in *.
  cbn [log_text foldl filed numbered].
  rewrite !elem_of_cons, elem_of_nil in Hname.
  destruct Hname as [->|[->|[->|[->|[]]]]].
  - rewrite !lookup_insert_ne by (by vm_compute). by rewrite lookup_insert_eq.
  - rewrite !lookup_insert_ne by (by vm_compute). by rewrite lookup_insert_eq.
  - rewrite !lookup_insert_ne by (by vm_compute). by rewrite lookup_insert_eq.
  - by rewrite lookup_insert_eq.
Qed.

Lemma log_dispatcher_holds (entries past : list (string * string))
    (rest : list (option (string * string))) (d : LogDisk) :
  log_dir d = true → holds (log_text d) past →
  Forall (fun item => one_line item.2) past →
  Forall (fun item => is_Some (LOG_FILES item.1) ∧ one_line item.2) entries →
  let r := log_dispatcher (map Some entries ++ None :: rest) d in
  r.2 = LogStopped ∧ log_dir r.1 = true ∧ holds (log_text r.1) (past ++ entries).
Proof.
  intros Hdir Hholds Hdone Hall. revert past d Hdir Hholds Hdone.
  induction Hall as [|[log_type msg] entries [[name Hname] Hmsg] _ IH];
    intros past d Hdir Hholds Hdone; cbn [map app log_dispatcher].
  - by rewrite app_nil_r.
  - cbn [fst snd] in *. rewrite Hname, Hdir.
    replace (past ++ (log_type, msg) :: entries)
      with ((past ++ [(log_type, msg)]) ++ entries) by (by rewrite <- app_assoc).
    apply IH; [done| |].
    + intros name' Hname'. cbn [log_text]. rewrite filed_snoc.
      pose proof (LOG_FILES_names _ _ Hname) as Hin.
      destruct (decide (name' = name)) as [->|Hne].
      * rewrite lookup_insert_eq, (Hholds name Hin). cbv [default from_option id].
        rewrite bool_decide_true by done. rewrite numbered_snoc.
        rewrite count_lines_numbered; [done|].
        unfold filed. apply Forall_fmap, Forall_forall.
        intros item [Hitem _]%list_elem_of_In%filter_In.
        rewrite Forall_forall in Hdone. by apply Hdone, list_elem_of_In.
      * rewrite lookup_insert_ne by (intros H; by apply Hne, log_path_inj).
        rewrite bool_decide_false by congruence. rewrite app_nil_r. by apply Hholds.
    + apply Forall_app. split; [done|by repeat constructor].
Qed.

Lemma log_items_known (evs : list Event) :
  Forall known_log evs → Forall (fun item => is_Some (LOG_FILES item.1)) (log_items evs).
Proof.
  induction 1 as [|e evs He _ IH]; [by constructor|].
  destruct e; cbn; try done. by constructor.
Qed.

(** With the log folder in place, entries of known types are all filed. *)
Lemma log_dispatcher_known (entries : list (string * string))
    (rest : list (option (string * string))) (d : LogDisk) :
  log_dir d = true →
  Forall (fun item => is_Some (LOG_FILES item.1)) entries →
  (log_dispatcher (map Some entries ++ None :: rest) d).2 = LogStopped.
Proof.
  intros Hdir Hall. revert d Hdir.
  induction Hall as [|[log_type msg] entries [name Hname] _ IH]; intros d Hdir;
    cbn [map app log_dispatcher]; [done|].
  cbn [fst] in Hname. rewrite Hname, Hdir. by apply IH.
Qed.

End LogLines.

(** X24.  After [initialize_logs], the log thread numbers the entries of
    each log file 1, 2, 3, ... in the order of their arrival, as long as no
    message has a line break: when it stops at the None item, each of the
    four files holds exactly the numbered lines of the entries of its type.
    Items that follow the None item are never filed. *)
Theorem log_entries_numbered (entries : list (string * string))
    (rest : list (option (string * string))) (d : LogDisk) :
  Forall (fun item => is_Some (LOG_FILES item.1) ∧ one_line item.2) entries →
  let r := log_dispatcher (map Some entries ++ None :: rest) (initialize_logs d) in
  r.2 = LogStopped
  ∧ ∀ name, name ∈ LOG_NAMES →
      log_text r.1 !! log_path name = Some (numbered 0 (filed name entries)).
Proof.
  intros Hall. destruct (initialize_logs_holds d) as [Hdir Hholds].
  destruct (log_dispatcher_holds entries [] rest (initialize_logs d) Hdir Hholds)
    as (Hend & _ & Htexts); [by constructor|done|].
  split; [done|]. intros name Hname. by apply Htexts.
Qed.

Lemma log_entries_numbered_witness :
  let entries := [("skipped", "first"); ("downloaded", "other"); ("skipped", "second")] in
  let r := log_dispatcher (map Some entries ++ None :: [Some ("skipped", "late")])
             (initialize_logs (mkLogDisk false ∅)) in
  r.2 = LogStopped
  ∧ log_text r.1 !! log_path "already_existing_projects_logs.txt"
    = Some (numbered 0 ["first"; "second"]).
Proof.
  cbv zeta.
  destruct (log_entries_numbered
              [("skipped", "first"); ("downloaded", "other"); ("skipped", "second")]
              [Some ("skipped", "late")] (mkLogDisk false ∅)) as [H1 H2].
  - repeat (apply Forall_cons; split;
              [split; [by eexists|unfold one_line; by apply (bool_decide_unpack _)]|]).
    by apply Forall_nil.
  - split; [exact H1|].
    apply (H2 "already_existing_projects_logs.txt"). set_solver.
Defined.

(** X25.  Every entry that [download_project] puts on the log queue has
    one of the four log types of [LOG_FILES]: whatever the service answers
    and the operator types, the log thread, with the log folder in place,
    files all the entries of a run and stops at the None item without a
    KeyError. *)
Theorem run_logs_are_filed (depth : nat) (w : World) (args : Args)
    (mods : list string) (s : State) :
  ∃ evs, trace (orchestrate depth w args mods s) = trace s ++ evs
         ∧ Forall known_log evs
         ∧ ∀ d rest, log_dir d = true →
             (log_dispatcher (map Some (log_items evs) ++ None :: rest) d).2
             = LogStopped.
Proof.
  destruct (Extends_orchestrate known_log) with (depth := depth) (w := w)
    (args := args) (mods := mods) (s := s) as (evs & Ht & Hknown).
  - intros e He. by destruct e.
  - intros log_type msg H. exact H.
  - done.
  - done.
  - exists evs. split_and!; [done..|]. intros d rest Hdir.
    by apply log_dispatcher_known, log_items_known.
Qed.

Lemma run_logs_are_filed_witness :
  ∃ evs, trace (orchestrate 3 cyclic_world args0 ["A"] empty_state)
         = trace empty_state ++ evs
         ∧ (log_dispatcher (map Some (log_items evs) ++ [None])
              (initialize_logs (mkLogDisk false ∅))).2 = LogStopped.
Proof.
  destruct (run_logs_are_filed 3 cyclic_world args0 ["A"] empty_state)
    as (evs & Ht & _ & Hlog).
  exists evs. split; [exact Ht|]. apply Hlog. reflexivity.
Defined.

Section Prompts.

Variables (w : World) (args : Args).

Lemma prompted_app (evs1 evs2 : list Event) :
  prompted (evs1 ++ evs2) = prompted evs1 ++ prompted evs2.
Proof.
  induction evs1 as [|e evs1 IH]; [done|]. destruct e; cbn; by rewrite ?IH.
Qed.

Lemma prompted_unprompted (evs : list Event) :
  Forall unprompted evs → prompted evs = [].
Proof. induction 1 as [|e evs He _ IH]; [done|]. by destruct e. Qed.

Lemma unprompted_plain (e : Event) : plain_event e = true → unprompted e.
Proof. by destruct e. Qed.

Lemma calm_plain (e : Event) : plain_event e = true → quiet e ∧ unprompted e.
Proof. by destruct e. Qed.

(** After the start of the download, [transfer_and_record] neither asks
    nor starts another download. *)
Lemma after_download_quiet (mod_id mod_name : string) (pt : option string)
    (file : File) (filename target_dir : string) (old : option string) (s : State) :
  ∃ evs,
    trace (transfer_and_record w mod_id mod_name pt file filename target_dir old s).1
    = trace s
        ++ [EvPrint (msg_transfer (truthy old) filename target_dir pt);
            EvDownload mod_id (file_url file) (path_join target_dir filename)]
        ++ evs
    ∧ downloads evs = [] ∧ prompted evs = [].
Proof.
  unfold transfer_and_record. unfold bind at 1. cbn [safe_print emit].
  unfold bind at 1. cbn [emit].
  match goal with |- context [bind ?m ?k ?st] =>
    destruct (Emits_after_download (fun e => quiet e ∧ unprompted e) calm_plain
                (fun _ _ _ => conj eq_refl I)
                w mod_id mod_name pt file filename target_dir old st)
      as (evs & Ht & Hall)
  end.
  exists evs. rewrite Ht. cbn [trace]. rewrite <- !app_assoc. split; [done|].
  split.
  - apply downloads_quiet. eapply Forall_impl; [exact Hall|]. by intros e [? _].
  - apply prompted_unprompted. eapply Forall_impl; [exact Hall|]. by intros e [_ ?].
Qed.

End Prompts.

(** X26.  A project whose selected version lists the target version is
    handled without a question: from its entry into the seen-set to the
    end of its own branch, no prompt is shown. *)
Theorem exact_match_is_not_prompted (w : World) (args : Args) (mod_id : string)
    (d : Details) (v : Version) (file : File) (s : State) :
  resolves w args mod_id d v file →
  lists_target (arg_version args) v = true →
  ∃ evs, trace (visit w args mod_id s).1 = trace s ++ evs ∧ prompted evs = [].
Proof.
  intros Hres Hexact. rewrite (visit_resolved w args _ _ _ _ _ Hres). cbn [fst].
  destruct (Emits_install_exact unprompted unprompted_plain (fun _ _ _ => I)
              (fun _ _ _ => I) w args mod_id (default mod_id (title d))
              (corrected_type (Some v) (project_type d)) v file Hexact
              (fetched w mod_id s)) as (evs & Ht & Hall).
  eexists. rewrite Ht. cbn [fetched trace]. rewrite <- !app_assoc.
  split; [done|]. rewrite !prompted_app, (prompted_unprompted evs Hall).
  rewrite !prompted_unprompted; [done|..];
    (eapply Forall_impl; [apply get_events_silent|]; by intros []).
Qed.

Lemma exact_match_is_not_prompted_witness :
  ∃ evs, trace (visit cyclic_world args0 "A" empty_state).1
         = trace empty_state ++ evs ∧ prompted evs = [].
Proof.
  apply (exact_match_is_not_prompted cyclic_world args0 "A"
           (mkDetails (Some "Mod A") (Some "mod"))
           (mkVersion ["1.21.8"] ["fabric"] [jar "a.jar"] [needs "B"]) (jar "a.jar")
           empty_state).
  - split_and!; [reflexivity| |reflexivity].
    eexists. split_and!; [reflexivity|done|reflexivity].
  - reflexivity.
Defined.

(** X27.  A fallback that the operator accepts is installed like a match:
    when the selected version does not list the target and the index does
    not hold the file for the project yet, an answer "y" to the one
    question asked starts the download of the project, once, and the
    branch goes on to the dependencies unless the transfer or the index
    update raises. *)
Theorem fallback_accepted_downloads (w : World) (args : Args)
    (mod_id mod_name : string) (pt : option string) (v : Version) (file : File)
    (index_file : string) (s : State) :
  INDEX_FILES pt = Some index_file →
  is_Some (gv v (arg_version args)) →
  tuple_in (arg_version args) (parsed_game_versions v) = false →
  dict_get (normalize_filename (file_filename file)) (stored s index_file)
    ≠ Some mod_id →
  says_yes (operator w (prompts s)) = true →
  let r := install w args mod_id mod_name pt v file s in
  (r.2 = Ok true ∨ ∃ e, r.2 = Raise e)
  ∧ ∃ evs, trace r.1 = trace s ++ evs
           ∧ downloads evs = [mod_id]
           ∧ length (prompted evs) = 1.
Proof.
  intros Hidx [g Hg] Htarget Hget Hyes r.
  destruct (INDEX_FILES_Some w _ _ Hidx) as (dir & Hdir & Hne).
  subst r. destruct (install _ _ _ _ _ _ _ _) as [s' res] eqn:E.
  unfold install in E. rewrite Hdir in E. unfold bind at 1 in E. cbn [lift_res] in E.
  rewrite bool_decide_false in E by done.
  unfold bind at 1 in E. cbn [makedirs] in E. unfold bind at 1 in E.
  rewrite (load_index_eq _ _ _ Hidx) in E. unfold stored, load_events in E.
  cbn [index_files] in E.
  fold (stored s index_file) in E. fold (load_events s index_file) in E.
  unfold bind at 1 in E. unfold fallback_gate at 1 in E. rewrite Htarget in E.
  rewrite (bool_decide_false (_ = Some mod_id)) in E by done. cbn [negb andb] in E.
  unfold bind at 1 in E. unfold should_use_fallback at 1 in E. rewrite Hg in E.
  unfold bind at 1 in E.
  cbn [safe_input add_events prompts trace seen_mods index_files fs_files fs_dirs ret]
    in E.
  rewrite Hyes in E. cbn [ret] in E. unfold bind at 1 in E.
  match type of E with context [transfer_and_record ?a ?b ?c ?d ?e ?f ?g ?h ?st] =>
    destruct (after_download_quiet a b c d e f g h st) as (evs & Hevs & Hd & Hp);
    destruct (transfer_and_record a b c d e f g h st) as [s3 [[]|err]]
  end; cbn in E; injection E as <- <-; cbn [fst snd] in *.
  all: split; [by eauto|].
  all: eexists; rewrite Hevs; cbn [trace]; rewrite <- !app_assoc.
  all: split; [done|].
  all: rewrite !downloads_app, !prompted_app, Hd, Hp; cbn.
  all: unfold load_events; by destruct (_ !! _).
Qed.

Lemma fallback_accepted_downloads_witness :
  let r := install (fallback_world " Y ") args0 "F" "Mod F" (Some "mod")
             (mkVersion ["1.21.7"] ["fabric"] [jar "f.jar"] []) (jar "f.jar")
             empty_state in
  says_yes " Y " = true
  ∧ (r.2 = Ok true ∨ ∃ e, r.2 = Raise e)
  ∧ ∃ evs, trace r.1 = trace empty_state ++ evs ∧ downloads evs = ["F"].
Proof.
  cbv zeta. split; [reflexivity|].
  destruct (fallback_accepted_downloads (fallback_world " Y ") args0 "F" "Mod F"
              (Some "mod") (mkVersion ["1.21.7"] ["fabric"] [jar "f.jar"] [])
              (jar "f.jar") "mods_index.json" empty_state)
    as (H1 & evs & H2 & H3 & _).
  - reflexivity.
  - by eexists.
  - reflexivity.
  - discriminate.
  - reflexivity.
  - split; [exact H1|]. exists evs. split; [exact H2|exact H3].
Defined.

(* ===================================================================== *)
(** * The scan for manual additions *)
(* ===================================================================== *)

Section Scan.

Variable w : World.

Implicit Types (index : Index) (s : State).

Lemma dict_has_spec (key : string) index : dict_has key index = true ↔ key ∈ index.*1.
Proof. apply str_in_spec. Qed.

Lemma dict_has_set (key value k : string) index :
  k ≠ key → dict_has k (dict_set key value index) = dict_has k index.
Proof.
  intros Hne. apply eq_true_iff_eq. rewrite !dict_has_spec, dict_set_keys. naive_solver.
Qed.

Lemma elem_of_keys (k : string) index : k ∈ index.*1 ↔ ∃ v, (k, v) ∈ index.
Proof.
  rewrite list_elem_of_fmap. split.
  - intros ([k' v] & -> & Hin). by exists v.
  - intros (v & Hin). by exists (k, v).
Qed.

(** [del index[key]] of a key that the dict has is [index.pop(key)]. *)
Lemma dict_del_pop (key : string) index :
  key ∈ index.*1 → dict_del key index = Ok (dict_pop key index).
Proof.
  induction index as [|[k v] index IH]; cbn; [by intros ?%elem_of_nil|].
  destruct (String.eqb_spec k key) as [->|Hne]; [done|].
  intros [?|Hin]%elem_of_cons; [congruence|]. by rewrite IH.
Qed.

Lemma endswith_nonempty (s suffix : string) :
  suffix ≠ "" → endswith s suffix = true → s ≠ "".
Proof. intros Hne H ->. cbn in H. by destruct suffix. Qed.

Lemma is_archive_nonempty (fname : string) : is_archive fname = true → fname ≠ "".
Proof.
  unfold is_archive.
  intros [H|H]%orb_true_iff; (eapply endswith_nonempty; [|exact H]); done.
Qed.

Lemma actual_files_spec (listing : list string) (fname : string) :
  fname ∈ actual_files listing ↔ fname ∈ listing ∧ is_archive fname = true.
Proof.
  unfold actual_files. rewrite elem_of_remove_dups, !list_elem_of_In, filter_In. done.
Qed.

Lemma sorted_spec (xs : list string) :
  (∀ x, x ∈ sorted xs ↔ x ∈ xs) ∧ (NoDup xs → NoDup (sorted xs))
  ∧ Sorted String.le (sorted xs).
Proof.
  unfold sorted. split_and!.
  - intros x. by rewrite merge_sort_Permutation.
  - intros H. by rewrite merge_sort_Permutation.
  - apply (Sorted_merge_sort String.le).
Qed.

Lemma told_0 s : told 0 [] s = s.
Proof. unfold told. rewrite Nat.add_0_r, app_nil_r. by destruct s. Qed.

(** The removal of the stale entries never raises on a dict, and leaves
    the entries of the other keys. *)
Lemma remove_stale_spec (stale : list string) index s :
  dict_wf index → NoDup stale → (∀ f, f ∈ stale → f ∈ index.*1) →
  ∃ index1,
    remove_stale stale index s
    = (told 0 (map (fun f => EvPrint (msg_stale f)) stale) s, Ok index1)
    ∧ dict_wf index1
    ∧ ∀ k v, (k, v) ∈ index1 ↔ (k, v) ∈ index ∧ k ∉ stale.
Proof.
  revert index s. induction stale as [|f stale IH]; intros index s Hwf Hnd Hsub;
    cbn [remove_stale map].
  - exists index. rewrite told_0. split_and!; [done..|].
    intros k v. split; [intros ?; split; [done|apply not_elem_of_nil]|by intros [? _]].
  - apply NoDup_cons in Hnd as [Hf Hnd].
    unfold bind at 1. cbn [safe_print emit]. unfold bind at 1. cbn [lift_res].
    rewrite dict_del_pop by (apply Hsub; by left).
    destruct (IH (dict_pop f index)
                 (mkState (seen_mods s) (index_files s) (fs_files s) (fs_dirs s)
                    (prompts s) (trace s ++ [EvPrint (msg_stale f)])))
      as (index1 & -> & Hwf1 & Hin1); [by apply dict_pop_wf|done| |].
    { intros f' Hf'. apply elem_of_keys.
      destruct (proj1 (elem_of_keys f' index)) as [v Hv]; [apply Hsub; by right|].
      exists v. apply dict_pop_elem; [done|]. split; [done|]. by intros ->. }
    exists index1. split_and!; [|done|].
    + unfold told. cbn. by rewrite <- !app_assoc.
    + intros k v. rewrite Hin1, dict_pop_elem by done.
      rewrite not_elem_of_cons. naive_solver.
Qed.

Lemma stale_files_spec index (actual : list string) :
  NoDup index.*1 →
  NoDup (stale_files index actual)
  ∧ ∀ f, f ∈ stale_files index actual ↔ f ∈ index.*1 ∧ f ∉ actual.
Proof.
  intros Hwf. unfold stale_files.
  split; [by apply NoDup_ListNoDup, List.NoDup_filter, NoDup_ListNoDup|].
  intros f. rewrite list_elem_of_In, filter_In, <- list_elem_of_In, negb_true_iff.
  rewrite <- not_true_iff_false, str_in_spec. done.
Qed.

(** The loop over the files of the folder: each file that the index lacks
    is asked about once, and entered with the answer unless it is blank. *)
Lemma add_new_spec (files : list string) index s :
  dict_wf index → NoDup files →
  ∃ index2 evs,
    add_new w files index s
    = (told (length (List.filter (fun f => negb (dict_has f index)) files)) evs s,
       Ok index2)
    ∧ dict_wf index2
    ∧ (∀ k v, (k, v) ∈ index → (k, v) ∈ index2)
    ∧ (∀ k v, (k, v) ∈ index2 →
         (k, v) ∈ index ∨ (k ∈ files ∧ (k ∉ index.*1) ∧ v ≠ ""))
    ∧ prompted evs
      = map msg_enter_id (List.filter (fun f => negb (dict_has f index)) files)
    ∧ Forall (fun e => local_event e = true) evs.
Proof.
  revert index s. induction files as [|f files IH]; intros index s Hwf Hnd.
  - exists index, []. cbn. rewrite told_0. split_and!; auto.
  - apply NoDup_cons in Hnd as [Hf Hnd]. cbn [add_new List.filter].
    destruct (dict_has f index) eqn:Hhas; cbn [negb].
    + destruct (IH index s Hwf Hnd) as (index2 & evs & -> & Hwf2 & Hkeep & Hnew & Hp & Hl).
      exists index2, evs. split_and!; [done..| |done|done].
      intros k v Hin. apply Hnew in Hin as [?|(? & ? & ?)]; [by left|right].
      split_and!; [by right|done..].
    + assert (f ∉ index.*1) as Hout.
      { intros Hin%dict_has_spec. congruence. }
      unfold bind at 1. cbn [safe_print emit]. unfold bind at 1. cbn [safe_input].
      cbn [seen_mods index_files fs_files fs_dirs prompts trace].
      set (mod_id := strip (operator w (prompts s))).
      case_bool_decide as Hblank.
      * unfold bind at 1. cbn [safe_print emit].
        cbn [seen_mods index_files fs_files fs_dirs prompts trace].
        set (s2 := mkState _ _ _ _ _ _).
        destruct (IH index s2 Hwf Hnd)
          as (index2 & evs & -> & Hwf2 & Hkeep & Hnew & Hp & Hl).
        exists index2. eexists ([_; _; _] ++ evs). split_and!; [|done|done| | |].
        -- f_equal. unfold told, s2. cbn. f_equal; [lia|by rewrite <- !app_assoc].
        -- intros k v Hin. apply Hnew in Hin as [?|(? & ? & ?)]; [by left|right].
           split_and!; [by right|done..].
        -- cbn. by rewrite Hp.
        -- by repeat constructor.
      * unfold bind at 1. cbn [safe_print emit].
        cbn [seen_mods index_files fs_files fs_dirs prompts trace].
        set (s2 := mkState _ _ _ _ _ _).
        assert (List.filter (fun f0 => negb (dict_has f0 (dict_set f mod_id index))) files
                = List.filter (fun f0 => negb (dict_has f0 index)) files) as Hsame.
        { apply List.filter_ext_in. intros f0 Hf0%list_elem_of_In.
          rewrite dict_has_set; [done|]. by intros ->. }
        destruct (IH (dict_set f mod_id index) s2 (dict_set_wf _ _ _ Hwf) Hnd)
          as (index2 & evs & -> & Hwf2 & Hkeep & Hnew & Hp & Hl).
        rewrite Hsame in *.
        exists index2. eexists ([_; _; _] ++ evs). split_and!; [|done| | | |].
        -- f_equal. unfold told, s2. cbn. f_equal; [lia|by rewrite <- !app_assoc].
        -- intros k v Hin. apply Hkeep, dict_set_elem; [done|]. right.
           split; [done|]. intros ->. apply Hout, elem_of_keys. by exists v.
        -- intros k v Hin. apply Hnew in Hin as [Hin|(Hk & Hk' & Hv)].
           ++ apply dict_set_elem in Hin as [[-> ->]|[Hin _]]; [|by left|done].
              right. split_and!; [by left|done..].
           ++ right. split_and!; [by right| |done].
              intros Hin. apply Hk', dict_set_keys. by right.
        -- cbn. by rewrite Hp.
        -- by repeat constructor.
Qed.

(** [scan_manual_additions] on a category whose index is a dict. *)
Lemma scan_manual_additions_spec (listdir : string → list string)
    (pt : option string) (index_file : string) s :
  INDEX_FILES pt = Some index_file → dict_wf (stored s index_file) →
  ∃ dir index' evs,
    resolve_target_directory w pt = Ok dir
    ∧ scan_manual_additions w listdir pt s
      = (mkState (seen_mods s) (<[index_path index_file := index']> (index_files s))
                 (fs_files s) (fs_dirs s ∪ {[dir]})
                 (prompts s + length (unindexed (stored s index_file) (listdir dir)))
                 (trace s ++ evs), Ok ())
    ∧ dict_wf index'
    ∧ (∀ k v, (k, v) ∈ index' → k ∈ actual_files (listdir dir))
    ∧ (∀ k v, (k, v) ∈ stored s index_file → k ∈ actual_files (listdir dir) →
              (k, v) ∈ index')
    ∧ (∀ k v, (k, v) ∈ index' →
         (k, v) ∈ stored s index_file ∨ ((k ∉ (stored s index_file).*1) ∧ v ≠ ""))
    ∧ prompted evs = map msg_enter_id (unindexed (stored s index_file) (listdir dir))
    ∧ Forall (fun e => local_event e = true) evs.
Proof.
  intros Hidx Hwf. destruct (INDEX_FILES_Some w _ _ Hidx) as (dir & Hdir & _).
  set (index := stored s index_file) in *.
  set (actual := actual_files (listdir dir)).
  destruct (stale_files_spec index actual Hwf) as [Hnd Hstale].
  destruct (sorted_spec actual) as (Hsorted & Hsnd & _).
  assert (NoDup actual) as Hactual by apply NoDup_remove_dups.
  unfold scan_manual_additions. unfold bind at 1. rewrite (load_index_eq _ _ _ Hidx).
  unfold bind at 1. rewrite Hdir. cbn [lift_res]. unfold bind at 1. cbn [makedirs].
  fold index. fold actual.
  set (s1 := mkState _ _ _ _ _ _).
  destruct (remove_stale_spec (stale_files index actual) index s1 Hwf Hnd)
    as (index1 & Hrm & Hwf1 & Hin1); [intros f Hf; by apply Hstale|].
  unfold bind at 1. rewrite Hrm.
  assert (∀ f, f ∈ actual → dict_has f index1 = dict_has f index) as Hhas.
  { intros f Hf. apply eq_true_iff_eq. rewrite !dict_has_spec, !elem_of_keys.
    split; intros [v Hv]; exists v.
    - by apply Hin1.
    - apply Hin1. split; [done|]. rewrite Hstale. naive_solver. }
  assert (List.filter (fun f => negb (dict_has f index1)) (sorted actual)
          = unindexed index (listdir dir)) as Hun.
  { unfold unindexed. fold actual. apply List.filter_ext_in.
    intros f Hf%list_elem_of_In%Hsorted. by rewrite Hhas. }
  destruct (add_new_spec (sorted actual) index1
              (told 0 (map (fun f => EvPrint (msg_stale f)) (stale_files index actual)) s1)
              Hwf1 (Hsnd Hactual))
    as (index2 & evs & Hadd & Hwf2 & Hkeep & Hnew & Hp & Hl).
  unfold bind at 1. rewrite Hadd, Hun. rewrite (save_index_eq _ _ _ _ Hidx).
  exists dir, index2. eexists. split_and!; [done| |done| | | | |].
  - unfold told, s1, add_events. cbn. rewrite Nat.add_0_r. by rewrite <- !app_assoc.
  - intros k v Hin. apply Hnew in Hin as [Hin|(Hk & _)]; [|by apply Hsorted].
    apply Hin1 in Hin as [Hin Hns]. destruct (decide (k ∈ actual)); [done|].
    exfalso. apply Hns, Hstale. split; [|done]. apply elem_of_keys. by exists v.
  - intros k v Hin Hk. apply Hkeep, Hin1. split; [done|]. rewrite Hstale. naive_solver.
  - intros k v Hin. apply Hnew in Hin as [Hin|(Hk & Hk1 & Hv)].
    + left. by apply Hin1.
    + destruct (decide (k ∈ index.*1)) as [Hold|Hold]; [|by right].
      exfalso. apply Hk1. apply dict_has_spec. rewrite Hhas by (by apply Hsorted).
      by apply dict_has_spec.
  - rewrite !prompted_app, Hp, Hun. cbn.
    assert (∀ l, prompted (map (fun f => EvPrint (msg_stale f)) l) = []) as ->
      by (intros l; induction l; done).
    rewrite app_nil_r. unfold load_events. by destruct (_ !! _).
  - assert (Forall (fun e => local_event e = true) (load_events s index_file)) as Hload.
    { unfold load_events. destruct (_ !! _); by repeat constructor. }
    assert (Forall (fun e => local_event e = true)
              (map (fun f => EvPrint (msg_stale f)) (stale_files index actual)))
      as Hprints by (by apply Forall_fmap, Forall_true).
    rewrite !Forall_app. split_and!; first [done|by repeat constructor].
Qed.

Lemma stored_dict (index_file : string) s : all_dicts s → dict_wf (stored s index_file).
Proof.
  intros Hall. unfold stored. destruct (_ !! _) as [index|] eqn:E; cbn.
  - by eapply Hall.
  - apply NoDup_nil_2.
Qed.

(** The scans of several categories, one after the other. *)
Lemma scan_each_spec (listdir : string → list string) (types : list string) s :
  (∀ t, t ∈ types → is_Some (INDEX_FILES (Some t))) → all_dicts s →
  let r := scan_each w listdir types s in
  r.2 = Ok () ∧ all_dicts r.1
  ∧ fs_files r.1 = fs_files s ∧ seen_mods r.1 = seen_mods s
  ∧ (∀ t index_file, t ∈ types → INDEX_FILES (Some t) = Some index_file →
       ∃ index, index_files r.1 !! index_path index_file = Some index
                ∧ ∀ k v, (k, v) ∈ index → k ≠ "")
  ∧ (∀ path,
       (∀ t index_file, t ∈ types → INDEX_FILES (Some t) = Some index_file →
                        path ≠ index_path index_file) →
       index_files r.1 !! path = index_files s !! path).
Proof.
  revert s. induction types as [|t types IH]; intros s Htypes Hall; cbn [scan_each].
  - cbn. split_and!; [done..| |done]. by intros t f ?%elem_of_nil.
  - destruct (Htypes t) as [f Hf]; [by left|].
    destruct (scan_manual_additions_spec listdir (Some t) f s Hf (stored_dict f s Hall))
      as (dir & index' & evs & Hdir & Hscan & Hwf' & Hkeys & _).
    set (s1 := mkState _ _ _ _ _ _) in Hscan.
    assert (bind (scan_manual_additions w listdir (Some t))
              (fun _ => scan_each w listdir types) s
            = scan_each w listdir types s1) as Hstep
      by (unfold bind; by rewrite Hscan).
    cbv zeta. rewrite Hstep.
    assert (all_dicts s1) as Hall1.
    { intros path index. unfold s1. cbn [index_files].
      destruct (decide (path = index_path f)) as [->|Hne].
      - rewrite lookup_insert_eq. by intros [= <-].
      - rewrite lookup_insert_ne by done. apply Hall. }
    destruct (IH s1) as (Hres & Hall' & Hfs & Hseen & Hdone & Hrest);
      [intros t' Ht'; apply Htypes; by right|done|].
    split_and!; [done..| |].
    + intros t0 f0 Ht0 Hf0.
      apply elem_of_cons in Ht0 as [->|Ht0]; [|by eapply Hdone].
      rewrite Hf in Hf0. injection Hf0 as <-.
      destruct (decide (Exists (fun t' => index_path <$> INDEX_FILES (Some t')
                                          = Some (index_path f)) types))
        as [Hex|Hnex].
      * apply Exists_exists in Hex as (t' & Ht' & Heq).
        destruct (INDEX_FILES (Some t')) as [f'|] eqn:Hf'; [|done].
        injection Heq as Heq. rewrite <- Heq. by eapply Hdone.
      * rewrite Hrest.
        -- unfold s1. cbn [index_files]. rewrite lookup_insert_eq.
           exists index'. split; [done|]. intros k v Hin.
           apply Hkeys, actual_files_spec in Hin as [_ Hin].
           by apply is_archive_nonempty.
        -- intros t' f' Ht' Hf' Heq. apply Hnex, Exists_exists.
           exists t'. split; [done|]. by rewrite Hf', Heq.
    + intros path Hpath. rewrite Hrest.
      * unfold s1. cbn [index_files]. rewrite lookup_insert_ne; [done|].
        intros Heq. apply (Hpath t f); [by left|done|done].
      * intros t' f' Ht' Hf'. apply (Hpath t' f'); [by right|done].
Qed.

End Scan.

(** X28.  The scan of a category never raises on an index that is a dict,
    touches no file but the index of the category, and writes an index
    that is a dict again and whose keys are all archives (.jar or .zip)
    found in the folder, so never the empty name.  The entries of the
    files that are still there are kept as they were; every other entry of
    the new index is a new file with a project id that is not blank. *)
Theorem scan_indexes_present_archives (w : World) (listdir : string → list string)
    (pt : option string) (index_file : string) (s : State) :
  INDEX_FILES pt = Some index_file → dict_wf (stored s index_file) →
  let r := scan_manual_additions w listdir pt s in
  ∃ dir index',
    resolve_target_directory w pt = Ok dir
    ∧ r.2 = Ok ()
    ∧ index_files r.1 = <[index_path index_file := index']> (index_files s)
    ∧ fs_files r.1 = fs_files s
    ∧ dict_wf index'
    ∧ (∀ k v, (k, v) ∈ index' → k ∈ listdir dir ∧ is_archive k = true ∧ k ≠ "")
    ∧ (∀ k v, (k, v) ∈ stored s index_file → k ∈ listdir dir →
              is_archive k = true → (k, v) ∈ index')
    ∧ (∀ k v, (k, v) ∈ index' →
         (k, v) ∈ stored s index_file
         ∨ ((k ∉ (stored s index_file).*1) ∧ v ≠ "")).
Proof.
  intros Hidx Hwf r. subst r.
  destruct (scan_manual_additions_spec w listdir pt index_file s Hidx Hwf)
    as (dir & index' & evs & Hdir & -> & Hwf' & Hkeys & Hkept & Hnew & _).
  exists dir, index'. cbn [fst snd index_files fs_files].
  split_and!; [done..| | |done].
  - intros k v Hin. apply Hkeys, actual_files_spec in Hin as [Hin Harch].
    split_and!; [done..|]. by apply is_archive_nonempty.
  - intros k v Hin Hk Harch. apply Hkept; [done|]. by apply actual_files_spec.
Qed.

Lemma scan_indexes_present_archives_witness :
  let s := mkState ∅ {[mods_index_path := [("gone.jar", "G"); ("b.jar", "B")]]}
             ∅ ∅ 0 [] in
  let r := scan_manual_additions (world_of ∅ " X ")
             (fun _ => ["b.jar"; "notes.txt"; "a.jar"]) (Some "mod") s in
  r.2 = Ok ()
  ∧ index_files r.1 !! mods_index_path = Some [("b.jar", "B"); ("a.jar", "X")].
Proof.
  cbv zeta.
  destruct (scan_indexes_present_archives (world_of ∅ " X ")
              (fun _ => ["b.jar"; "notes.txt"; "a.jar"]) (Some "mod")
              "mods_index.json"
              (mkState ∅ {[mods_index_path := [("gone.jar", "G"); ("b.jar", "B")]]}
                 ∅ ∅ 0 []))
    as (dir & index' & _ & H1 & _).
  - reflexivity.
  - unfold dict_wf. by apply (bool_decide_unpack _).
  - split; [exact H1|]. reflexivity.
Defined.

(** X29.  The scan asks about exactly the archives of the folder that the
    index does not hold, each once and in ascending order of their names,
    and does nothing besides console output, these prompts, the creation
    of the folder and the reading and writing of the index: no request,
    no download, no removal. *)
Theorem scan_asks_once_per_new_archive (w : World) (listdir : string → list string)
    (pt : option string) (index_file : string) (s : State) :
  INDEX_FILES pt = Some index_file → dict_wf (stored s index_file) →
  let r := scan_manual_additions w listdir pt s in
  ∃ dir evs,
    resolve_target_directory w pt = Ok dir
    ∧ trace r.1 = trace s ++ evs
    ∧ prompted evs = map msg_enter_id (unindexed (stored s index_file) (listdir dir))
    ∧ prompts r.1 = prompts s + length (unindexed (stored s index_file) (listdir dir))
    ∧ Sorted String.le (sorted (actual_files (listdir dir)))
    ∧ NoDup (sorted (actual_files (listdir dir)))
    ∧ Forall (fun e => local_event e = true) evs.
Proof.
  intros Hidx Hwf r. subst r.
  destruct (scan_manual_additions_spec w listdir pt index_file s Hidx Hwf)
    as (dir & index' & evs & Hdir & -> & _ & _ & _ & _ & Hp & Hl).
  destruct (sorted_spec (actual_files (listdir dir))) as (_ & Hnd & Hsorted).
  exists dir, evs. cbn [fst trace prompts].
  split_and!; [done..| |done]. apply Hnd, NoDup_remove_dups.
Qed.

Lemma scan_asks_once_per_new_archive_witness :
  let s := mkState ∅ {[mods_index_path := [("b.jar", "B")]]} ∅ ∅ 0 [] in
  let r := scan_manual_additions (world_of ∅ "")
             (fun _ => ["c.jar"; "b.jar"; "a.zip"; "c.jar"]) (Some "mod") s in
  ∃ evs, trace r.1 = trace s ++ evs
         ∧ prompted evs = [msg_enter_id "a.zip"; msg_enter_id "c.jar"]
         ∧ prompts r.1 = 2.
Proof.
  cbv zeta.
  destruct (scan_asks_once_per_new_archive (world_of ∅ "")
              (fun _ => ["c.jar"; "b.jar"; "a.zip"; "c.jar"]) (Some "mod")
              "mods_index.json"
              (mkState ∅ {[mods_index_path := [("b.jar", "B")]]} ∅ ∅ 0 []))
    as (dir & evs & _ & H1 & H2 & H3 & _).
  - reflexivity.
  - unfold dict_wf. by apply (bool_decide_unpack _).
  - exists evs. split_and!; [exact H1|exact H2|exact H3].
Defined.

(** X30.  After the scans that [main] makes of the four categories, no
    index file has an entry under the empty filename, provided that the
    index files are dicts and no other index file is on disk: the state
    in which the downloads start meets the proviso under which updates
    keep one filename per project.  The scans raise nothing and leave the
    files and the seen-set alone. *)
Theorem scans_leave_no_empty_filename (w : World) (listdir : string → list string)
    (s : State) :
  all_dicts s →
  (∀ path, is_Some (index_files s !! path) → path ∈ category_index_paths) →
  let r := scan_each w listdir CATEGORIES s in
  r.2 = Ok () ∧ all_dicts r.1 ∧ no_empty_filename r.1
  ∧ fs_files r.1 = fs_files s ∧ seen_mods r.1 = seen_mods s.
Proof.
  intros Hall Hdom r. subst r.
  destruct (scan_each_spec w listdir CATEGORIES s) as
    (Hres & Hall' & Hfs & Hseen & Hdone & Hrest); [|done|].
  { intros t Ht. unfold CATEGORIES in Ht.
    rewrite !elem_of_cons, elem_of_nil in Ht.
    destruct Ht as [->|[->|[->|[->|[]]]]]; by eexists. }
  split_and!; [done..| |done|done].
  intros path index mod_id Hlook Hin.
  destruct (decide (path ∈ category_index_paths)) as [Hcat|Hcat].
  - apply list_elem_of_omap in Hcat as (t & Ht & Hpath).
    destruct (INDEX_FILES (Some t)) as [f|] eqn:Hf; [|done].
    injection Hpath as <-.
    destruct (Hdone t f Ht Hf) as (index0 & Hlook0 & Hne).
    rewrite Hlook in Hlook0. injection Hlook0 as <-. by eapply Hne.
  - apply Hcat, Hdom. rewrite <- Hrest; [by eexists|].
    intros t f Ht Hf ->. apply Hcat, list_elem_of_omap.
    exists t. split; [done|]. by rewrite Hf.
Qed.

Lemma scans_leave_no_empty_filename_witness :
  let r := scan_each (world_of ∅ "") (fun _ => ["a.jar"]) CATEGORIES
             empty_name_state in
  r.2 = Ok () ∧ no_empty_filename r.1.
Proof.
  cbv zeta.
  destruct (scans_leave_no_empty_filename (world_of ∅ "") (fun _ => ["a.jar"])
              empty_name_state) as (H1 & _ & H2 & _).
  - intros path index Hlook.
    change (index_files empty_name_state)
      with ({[mods_index_path := [("", "X")]]} : gmap string Index) in Hlook.
    apply lookup_singleton_Some in Hlook as [_ <-].
    unfold dict_wf. by apply (bool_decide_unpack _).
  - intros path [index Hlook].
    change (index_files empty_name_state)
      with ({[mods_index_path := [("", "X")]]} : gmap string Index) in Hlook.
    apply lookup_singleton_Some in Hlook as [<- _].
    by apply (bool_decide_unpack _).
  - exact (conj H1 H2).
Defined.
